(** * EntityLoader: a shallow embedding of packages/core/src/entity/EntityLoader.ts

    The development follows the source file top to bottom:
    - [Metadata]: the parts of EntityMetadata / EntityProperty / MetadataStorage
      that the loader reads;
    - [Normalizer]: normalizePopulate, mergeNestedPopulate, expandNestedPopulate,
      lookupAllRelationships, getRelationName, lookupEagerLoadedRelationships;
    - [Conditions]: mergePrimaryCondition and extractChildCondition over JavaScript
      values;
    - [Loader]: populate, populateField, populateMany, findChildren,
      findChildrenFromPivotTable and the filters, as a state-and-error monad over
      the entity graph, with every collaborator call recorded in a trace. *)

From Stdlib Require Import String Ascii List ZArith Bool Arith Lia RelationClasses.
Import ListNotations.
Open Scope string_scope.
Open Scope list_scope.

Set Implicit Arguments.
Set Warnings "-register-all".

(** ** Outcomes of a call: a value, a thrown error, or exhausted recursion budget *)

Inductive Error : Type :=
| TypeError (msg : string)
| NotDiscoveredEntity (entityName : string)
| InvalidPropertyName (entityName field : string)
| FetchFailure (msg : string).

Inductive Outcome (A : Type) : Type :=
| Ok (a : A)
| Throw (e : Error)
| OutOfFuel.

Arguments Ok {A} a.
Arguments Throw {A} e.
Arguments OutOfFuel {A}.

Definition obind {A B} (x : Outcome A) (f : A -> Outcome B) : Outcome B :=
  match x with
  | Ok a => f a
  | Throw e => Throw e
  | OutOfFuel => OutOfFuel
  end.

Declare Scope outcome_scope.
Delimit Scope outcome_scope with outcome.
Notation "'let?' x ':=' c1 'in' c2" := (obind c1 (fun x => c2))
  (at level 61, x pattern, c1 at next level, right associativity) : outcome_scope.
Open Scope outcome_scope.

(** [for (const x of l)] with a body that may throw, accumulating left to right. *)
Fixpoint ofold {A B} (f : B -> A -> Outcome B) (l : list A) (acc : B) : Outcome B :=
  match l with
  | [] => Ok acc
  | x :: r => let? acc' := f acc x in ofold f r acc'
  end.

Fixpoint omap {A B} (f : A -> Outcome B) (l : list A) : Outcome (list B) :=
  match l with
  | [] => Ok []
  | x :: r => let? y := f x in let? ys := omap f r in Ok (y :: ys)
  end.

(** ** Strings: [includes('.')] and [split('.')] *)

Definition is_dot (c : ascii) : bool := Ascii.eqb c "."%char.

Fixpoint includes_dot (s : string) : bool :=
  match s with
  | EmptyString => false
  | String c r => is_dot c || includes_dot r
  end.

(** [s.split('.')]: never empty; the empty string splits to one empty segment. *)
Fixpoint split_dot (s : string) : list string :=
  match s with
  | EmptyString => [""]
  | String c r =>
      if is_dot c then "" :: split_dot r
      else match split_dot r with
           | h :: t => String c h :: t
           | [] => [String c ""]
           end
  end.

(** [parts.join('.')] *)
Fixpoint join_dot (parts : list string) : string :=
  match parts with
  | [] => ""
  | [p] => p
  | p :: r => (p ++ "." ++ join_dot r)%string
  end.

(** A JavaScript object used as a dictionary: keys in insertion order.  Keys are
    assumed to be ordinary property names (not array indices, which JavaScript
    enumerates first, and not names inherited from Object.prototype). *)
Definition Dictionary (V : Type) : Type := list (string * V).

Fixpoint dget {V} (d : Dictionary V) (k : string) : option V :=
  match d with
  | [] => None
  | (k', v) :: r => if String.eqb k' k then Some v else dget r k
  end.

(** [d[k] = v]: overwrite in place when the key exists, append otherwise. *)
Fixpoint dset {V} (d : Dictionary V) (k : string) (v : V) : Dictionary V :=
  match d with
  | [] => [(k, v)]
  | (k', v') :: r => if String.eqb k' k then (k', v) :: r else (k', v') :: dset r k v
  end.

(** [delete d[k]] *)
Fixpoint ddelete {V} (d : Dictionary V) (k : string) : Dictionary V :=
  match d with
  | [] => []
  | (k', v') :: r => if String.eqb k' k then r else (k', v') :: ddelete r k
  end.

Definition dkeys {V} (d : Dictionary V) : list string := map fst d.
Definition dvalues {V} (d : Dictionary V) : list V := map snd d.

(** ** JavaScript values as they occur in conditions, keys and rows *)

Inductive Value : Type :=
| VUndefined
| VNull
| VBool (b : bool)
| VNum (n : Z)
| VStr (s : string)
| VArr (l : list Value)
| VObj (o : list (string * Value)).   (* a plain object *)

(** Truthiness.  Numbers are integers here, so NaN does not occur. *)
Definition truthy (v : Value) : bool :=
  match v with
  | VUndefined | VNull => false
  | VBool b => b
  | VNum n => negb (Z.eqb n 0)
  | VStr s => negb (String.eqb s "")
  | VArr _ | VObj _ => true
  end.

(** [v == null] *)
Definition nullish (v : Value) : bool :=
  match v with VUndefined | VNull => true | _ => false end.

(** Utils.isPlainObject *)
Definition isPlainObject (v : Value) : bool :=
  match v with VObj _ => true | _ => false end.

(** [d[k]] on a dictionary of values: an absent key reads as undefined. *)
Definition dread (d : Dictionary Value) (k : string) : Value :=
  match dget d k with Some v => v | None => VUndefined end.

(** [v[k]] for a named key: reading a member of undefined or null throws;
    primitives and arrays have no named members of interest here. *)
Definition member (v : Value) (k : string) : Outcome Value :=
  match v with
  | VUndefined | VNull => Throw (TypeError "Cannot read properties of undefined")
  | VObj o => Ok (dread o k)
  | _ => Ok VUndefined
  end.

(** [===] on primitives; two object or array literals are never identical. *)
Definition strict_eqb (a b : Value) : bool :=
  match a, b with
  | VUndefined, VUndefined | VNull, VNull => true
  | VBool x, VBool y => Bool.eqb x y
  | VNum x, VNum y => Z.eqb x y
  | VStr x, VStr y => String.eqb x y
  | _, _ => false
  end.

(** [{ ...a, ...b }]: the keys of [a] in order, overwritten or extended by [b]. *)
Definition spread (a b : Dictionary Value) : Dictionary Value :=
  fold_left (fun acc kv => dset acc (fst kv) (snd kv)) b a.

(** ** Metadata read by the loader *)

Module Metadata.

Inductive ReferenceType : Type :=
| SCALAR | ONE_TO_ONE | ONE_TO_MANY | MANY_TO_ONE | MANY_TO_MANY | EMBEDDED.

Definition ReferenceType_eqb (a b : ReferenceType) : bool :=
  match a, b with
  | SCALAR, SCALAR | ONE_TO_ONE, ONE_TO_ONE | ONE_TO_MANY, ONE_TO_MANY
  | MANY_TO_ONE, MANY_TO_ONE | MANY_TO_MANY, MANY_TO_MANY | EMBEDDED, EMBEDDED => true
  | _, _ => false
  end.

Inductive LoadStrategy : Type := SELECT_IN | JOINED.

Definition LoadStrategy_eqb (a b : LoadStrategy) : bool :=
  match a, b with
  | SELECT_IN, SELECT_IN | JOINED, JOINED => true
  | _, _ => false
  end.

(** EntityProperty, restricted to the members EntityLoader.ts reads. *)
Record EntityProperty : Type := mkProp {
  prop_name : string;
  prop_type : string;                       (* target entity name *)
  prop_reference : ReferenceType;
  prop_owner : bool;
  prop_mappedBy : string;
  prop_strategy : option LoadStrategy;
  prop_eager : bool;
  prop_lazy : bool;
  prop_embedded : option (string * string); (* [parent property, child name] *)
  prop_customType : bool;
  prop_mapToPk : bool;
  prop_orderBy : option Value
}.

Record EntityMetadata : Type := mkMeta {
  meta_name : string;
  meta_className : string;
  meta_primaryKeys : list string;
  meta_properties : Dictionary EntityProperty;
  meta_relations : list EntityProperty
}.

(** MetadataStorage: a finite registry; [find] returns undefined for unknown names. *)
Definition MetadataStorage : Type := Dictionary EntityMetadata.

Definition find (metadata : MetadataStorage) (entityName : string) : option EntityMetadata :=
  dget metadata entityName.

End Metadata.

(** ** The populate normalizer *)

Module Normalizer.
Import Metadata.

(** PopulateOptions: [{ field, strategy?, children?, all? }].  [None] is an
    absent (undefined) member.  Nodes are values here: the source normalizes
    by rewriting the nodes of the caller's argument and returns a list that
    shares nodes with it; what the caller's argument looks like afterwards is
    not modelled. *)
Inductive PopulateOptions : Type :=
  mkPopulate {
    field : string;
    strategy : option LoadStrategy;
    children : option (list PopulateOptions);
    all : option bool
  }.

(** A populate hint given as a bare field name, [{ field }]. *)
Definition hint (f : string) : PopulateOptions := mkPopulate f None None None.

Definition set_children (p : PopulateOptions) (c : option (list PopulateOptions)) : PopulateOptions :=
  mkPopulate (field p) (strategy p) c (all p).

(** The [populate] argument: [PopulateOptions[] | boolean]. *)
Inductive PopulateArg : Type :=
| PBool (b : bool)
| PArr (l : list PopulateOptions).

(** Truthiness of [p.all]. *)
Definition all_set (p : PopulateOptions) : bool :=
  match all p with Some true => true | _ => false end.

(** *** mergeNestedPopulate *)

(** One step of the [reduce]: [ret] is the dictionary built so far. *)
Definition merge_item (ret : Dictionary PopulateOptions) (item : PopulateOptions)
  : Dictionary PopulateOptions :=
  match dget ret (field item) with
  | None => dset ret (field item) item
  | Some first =>
      match children first, children item with
      | None, Some ci => dset ret (field item) (set_children first (Some ci))
      | Some cf, Some ci => dset ret (field item) (set_children first (Some (cf ++ ci)))
      | _, None => ret
      end
  end.

Definition merge_reduce (populate : list PopulateOptions) : Dictionary PopulateOptions :=
  fold_left merge_item populate [].

(** Nesting depth of a populate forest; it bounds the recursion of the merge. *)
Fixpoint depth (p : PopulateOptions) : nat :=
  match children p with
  | None => 0
  | Some l => S ((fix depths (l : list PopulateOptions) : nat :=
                    match l with
                    | [] => 0
                    | c :: r => Nat.max (depth c) (depths r)
                    end) l)
  end.

Fixpoint depths (l : list PopulateOptions) : nat :=
  match l with
  | [] => 0
  | c :: r => Nat.max (depth c) (depths r)
  end.

Fixpoint mergeNestedPopulate_rec (fuel : nat) (populate : list PopulateOptions)
  : list PopulateOptions :=
  match fuel with
  | 0 => dvalues (merge_reduce populate)
  | S fuel' =>
      map (fun item =>
             match children item with
             | Some c => set_children item (Some (mergeNestedPopulate_rec fuel' c))
             | None => item
             end)
          (dvalues (merge_reduce populate))
  end.

(** merge multiple populates for the same entity with different children *)
Definition mergeNestedPopulate (populate : list PopulateOptions) : list PopulateOptions :=
  mergeNestedPopulate_rec (depths populate) populate.

(** *** expandNestedPopulate *)

(** Expands [books.perex] like populate to use a [children] array instead of the
    dot syntax.  [parts] is consumed by [shift]; the first call passes the caller's
    [all], the recursive calls pass none. *)
Fixpoint expandNestedPopulate (metadata : MetadataStorage) (entityName : string)
    (parts : list string) (strategy : option LoadStrategy) (all : option bool)
  : Outcome PopulateOptions :=
  match find metadata entityName with
  | None => Throw (TypeError "Cannot read properties of undefined (reading 'properties')")
  | Some meta =>
      match parts with
      | [] => Ok (mkPopulate "" strategy None all)  (* shift() of an empty array; not reached *)
      | field :: rest =>
          match rest with
          | [] => Ok (mkPopulate field strategy None all)
          | _ :: _ =>
              match dget (meta_properties meta) field with
              | None => Throw (TypeError "Cannot read properties of undefined (reading 'type')")
              | Some prop =>
                  let? child := expandNestedPopulate metadata (prop_type prop) rest strategy None in
                  Ok (mkPopulate field strategy (Some [child]) all)
              end
          end
      end
  end.

(** The body of the [forEach] in normalizePopulate that converts a dotted [field]
    into a node with a [children] array. *)
Definition expand_dotted (metadata : MetadataStorage) (entityName : string)
    (p : PopulateOptions) : Outcome PopulateOptions :=
  if negb (includes_dot (field p)) then Ok p
  else
    match split_dot (field p) with
    | [] => Ok p
    | f :: parts =>
        let c := match children p with Some c => c | None => [] end in
        match find metadata entityName with
        | None => Throw (TypeError "Cannot read properties of undefined (reading 'properties')")
        | Some meta =>
            match dget (meta_properties meta) f with
            | None => Throw (TypeError "Cannot read properties of undefined (reading 'strategy')")
            | Some prop =>
                let s := match strategy p with Some s => Some s | None => prop_strategy prop end in
                let? child := expandNestedPopulate metadata (prop_type prop) parts s (all p) in
                Ok (mkPopulate f s (Some (c ++ [child])) (all p))
            end
        end
    end.

(** *** getRelationName *)

(** The recursion follows [prop.embedded[0]] through [meta.properties]; [fuel]
    bounds the length of that chain. *)
Fixpoint getRelationName_rec (fuel : nat) (meta : EntityMetadata) (prop : EntityProperty)
  : Outcome string :=
  match prop_embedded prop with
  | None => Ok (prop_name prop)
  | Some (parent, child) =>
      match fuel with
      | 0 => OutOfFuel
      | S fuel' =>
          match dget (meta_properties meta) parent with
          | None => Throw (TypeError "Cannot read properties of undefined (reading 'embedded')")
          | Some pprop =>
              let? pname := getRelationName_rec fuel' meta pprop in
              Ok (pname ++ "." ++ child)%string
          end
      end
  end.

Definition getRelationName (meta : EntityMetadata) (prop : EntityProperty) : Outcome string :=
  getRelationName_rec (length (meta_properties meta)) meta prop.

(** *** lookupAllRelationships *)

Definition lookupAllRelationships (metadata : MetadataStorage) (entityName : string)
  : Outcome (list PopulateOptions) :=
  match find metadata entityName with
  | None => Throw (TypeError "Cannot read properties of undefined (reading 'relations')")
  | Some meta =>
      ofold (fun ret prop =>
               let? f := getRelationName meta prop in
               (* force select-in strategy when populating all relations; no children,
                  as [all: true] is passed on *)
               Ok (ret ++ [mkPopulate f (Some SELECT_IN) None (Some true)]))
            (meta_relations meta) []
  end.

(** *** lookupEagerLoadedRelationships *)

(** [populate.some(p => p.field === name)] *)
Definition requested (populate : list PopulateOptions) (name : string) : bool :=
  existsb (fun p => String.eqb (field p) name) populate.

(** [populate.find(p => p.field === name)?.children ?? []] *)
Definition nested_of (populate : list PopulateOptions) (name : string) : list PopulateOptions :=
  match List.find (fun p => String.eqb (field p) name) populate with
  | Some p => match children p with Some c => c | None => [] end
  | None => []
  end.

(** [visited.includes(entityName)] *)
Definition includes (visited : list string) (entityName : string) : bool :=
  existsb (String.eqb entityName) visited.

(** The recursion descends through [prop.type]; [fuel] bounds its depth.  The
    two early exits (type already visited, unknown type) need no fuel.
    [visited.push] followed by [visited.slice()] in the recursive call is the
    extended list passed by value. *)
Fixpoint lookupEagerLoadedRelationships (fuel : nat) (metadata : MetadataStorage)
    (entityName : string) (populate : list PopulateOptions)
    (strategy : option LoadStrategy) (prefix : string) (visited : list string)
  : Outcome (list PopulateOptions) :=
  match find metadata entityName with
  | None => Ok populate
  | Some meta =>
      if includes visited entityName then Ok populate
      else
        match fuel with
        | 0 => OutOfFuel
        | S fuel' =>
            let visited' := visited ++ [entityName] in
            let ret := if String.eqb prefix "" then populate else [] in
            ofold (fun ret prop =>
                     let? field := getRelationName meta prop in
                     let prefixed := if String.eqb prefix "" then field
                                     else (prefix ++ "." ++ field)%string in
                     let nestedPopulate := nested_of populate (prop_name prop) in
                     let? nested := lookupEagerLoadedRelationships fuel' metadata
                                      (prop_type prop) nestedPopulate strategy prefixed visited' in
                     match nested with
                     | _ :: _ => Ok (ret ++ nested)
                     | [] =>
                         let s := match strategy with
                                  | Some s => Some s
                                  | None => prop_strategy prop
                                  end in
                         Ok (ret ++ [mkPopulate prefixed s None None])
                     end)
                  (filter (fun prop => prop_eager prop || requested populate (prop_name prop))
                          (meta_relations meta))
                  ret
        end
  end.

(** *** normalizePopulate *)

(** Lines 75-79: the request is replaced by all relations when it is [true] or
    contains an [all] node, and taken as it is otherwise. *)
Definition select_populate (metadata : MetadataStorage) (entityName : string)
    (populate : PopulateArg) : Outcome (list PopulateOptions) :=
  match populate with
  | PBool true => lookupAllRelationships metadata entityName
  | PBool false => Throw (TypeError "populate.some is not a function")
  | PArr l => if existsb all_set l then lookupAllRelationships metadata entityName
              else Ok l
  end.

(** The eager lookup is run with a budget of one level per registered entity
    type, which [lookupEager_budget] below shows is never exhausted. *)
Definition normalizePopulate (metadata : MetadataStorage) (entityName : string)
    (populate : PopulateArg) (strategy : option LoadStrategy) (lookup : bool)
  : Outcome (list PopulateOptions) :=
  let? populate := select_populate metadata entityName populate in
  let? populate :=
    if lookup
    then lookupEagerLoadedRelationships (length metadata) metadata entityName populate
           strategy "" []
    else Ok populate in
  (* convert nested [field] with dot syntax to PopulateOptions with children array *)
  let? populate := omap (expand_dotted metadata entityName) populate in
  (* merge same fields *)
  Ok (mergeNestedPopulate populate).

End Normalizer.


(** ** Predicates used to state the normalizer's properties *)

Module NormalizerSpec.
Import Metadata Normalizer.

(** Every value of the dictionary built by the [reduce] is keyed by its own
    field, and the keys are pairwise distinct. *)
Definition keyed (ret : Dictionary PopulateOptions) : Prop :=
  NoDup (dkeys ret) /\ forall k v, In (k, v) ret -> field v = k.

(** No two siblings share a field, at any level of the forest. *)
Inductive unique_fields : list PopulateOptions -> Prop :=
| unique_fields_intro l :
    NoDup (map field l) ->
    (forall p c, In p l -> children p = Some c -> unique_fields c) ->
    unique_fields l.

(** The names of all declared relations can be computed: the [embedded] chain
    of a property ends.  Metadata produced by discovery has this shape. *)
Definition relation_names_resolvable (metadata : MetadataStorage) : Prop :=
  forall k meta prop,
    In (k, meta) metadata -> In prop (meta_relations meta) ->
    getRelationName meta prop <> OutOfFuel.

(** Relation names that are non-empty, without dots and outside embeddables. *)
Definition plain_relation_names (metadata : MetadataStorage) : Prop :=
  forall k meta prop,
    In (k, meta) metadata -> In prop (meta_relations meta) ->
    prop_embedded prop = None /\ includes_dot (prop_name prop) = false /\
    prop_name prop <> "".

(** Number of segments of a dotted path. *)
Definition segments (path : string) : nat := length (split_dot path).

(** The spec that lookupAllRelationships pushes for one relation. *)
Definition all_spec (f : string) : PopulateOptions :=
  mkPopulate f (Some SELECT_IN) None (Some true).

(** The eager lookup has nothing to add around relation [a] of [meta] (target
    metadata [metaA]) beyond the bare node for [a]: no relation of either type
    is eager, [a] is declared once under that name and outside embeddables, and
    no relation is literally named [a.b]. *)
Definition no_eager_expansion (meta metaA : EntityMetadata) (pa : EntityProperty) : Prop :=
  In pa (meta_relations meta) /\ prop_name pa = "a" /\ prop_embedded pa = None /\
  NoDup (map prop_name (meta_relations meta)) /\
  (forall r, In r (meta_relations meta) -> prop_eager r = false /\ prop_name r <> "a.b") /\
  (forall r, In r (meta_relations metaA) -> prop_eager r = false).

End NormalizerSpec.

(** ** Conditions: mergePrimaryCondition and extractChildCondition *)

Module Conditions.
Import Metadata.

(** A caller's [where] is an object query: a dictionary of values. *)
Definition Condition : Type := Dictionary Value.

Section WithHelpers.

(** QueryHelper.processWhere, applied to [{ where, entityName, convertCustomTypes }];
    metadata and platform are fixed. *)
Variable processWhere : string -> bool -> Value -> Value.
(** Utils.isOperator(key, includeGroupOperators) and Utils.isPrimaryKey *)
Variable isOperator : string -> bool -> bool.
Variable isPrimaryKey : Value -> bool.

(** The own enumerable members that an object spread copies.  Only plain objects
    contribute; [cond1] is one whenever processWhere returns an object query. *)
Definition own_members (v : Value) : Dictionary Value :=
  match v with VObj o => o | _ => [] end.

Definition mergePrimaryCondition (ids : list Value) (pk : string)
    (where_ : Condition) (convertCustomTypes : bool) (metaName : string) : Value :=
  let cond1 := processWhere metaName (negb convertCustomTypes)
                 (VObj [(pk, VObj [("$in", VArr ids)])]) in
  if truthy (dread where_ pk)
  then VObj [("$and", VArr [cond1; VObj where_])]
  else VObj (spread (own_members cond1) where_).

(** The state of extractChildCondition: [subCond], whether it is the very object
    stored at [where[prop.name]], and [where] itself.  A write to an aliased
    [subCond] is a write into the caller's [where]. *)
Record ChildCondition : Type := mkChild {
  subCond : Condition;
  aliased : bool;
  where_after : Condition
}.

Definition write_subCond (propName : string) (st : ChildCondition) (sub : Condition)
  : ChildCondition :=
  mkChild sub (aliased st)
    (if aliased st then dset (where_after st) propName (VObj sub) else where_after st).

(** The body of [['$and', '$or'].forEach(op => ...)]. *)
Definition collect_group (propName pk : string) (st : ChildCondition) (op : string)
  : Outcome ChildCondition :=
  let group := dread (where_after st) op in
  if truthy group then
    match group with
    | VArr conds =>
        let? subs := omap (fun cond => member cond propName) conds in
        let kept :=
          filter (fun sub =>
                    negb (nullish sub) &&
                    negb (isPlainObject sub &&
                          forallb (fun key => isOperator key false)
                                  (dkeys (own_members sub))))
                 subs in
        let child := map (fun cond => if isPrimaryKey cond then VObj [(pk, cond)] else cond)
                         kept in
        match child with
        | [] => Ok st
        | _ :: _ => Ok (write_subCond propName st (dset (subCond st) op (VArr child)))
        end
    | _ => Throw (TypeError "options.where[op].map is not a function")
    end
  else Ok st.

(** The body of [operators.forEach(op => ...)]: move [subCond[op]] below
    [subCond[pk]]. *)
Definition move_operator (propName pk : string) (st : ChildCondition) (op : string)
  : Outcome ChildCondition :=
  let sub := subCond st in
  let sub := if nullish (dread sub pk) then dset sub pk (VObj []) else sub in
  match dread sub pk with
  | VObj target =>
      let sub := dset sub pk (VObj (dset target op (dread sub op))) in
      Ok (write_subCond propName st (ddelete sub op))
  | VArr _ =>
      (* a named member set on an array is not represented; the array stays *)
      Ok (write_subCond propName st (ddelete sub op))
  | _ => Throw (TypeError "Cannot create property on a primitive value")
  end.

(** Steps run in order on the state; a step that throws leaves the state as the
    steps before it made it, and stops the run. *)
Fixpoint run_steps {A} (step : ChildCondition -> A -> Outcome ChildCondition)
    (l : list A) (st : ChildCondition) : ChildCondition * option Error :=
  match l with
  | [] => (st, None)
  | x :: r =>
      match step st x with
      | Ok st' => run_steps step r st'
      | Throw e => (st, Some e)
      | OutOfFuel => (st, None)
      end
  end.

(** extractChildCondition up to the final [if (filters)]: the sub-condition, the
    caller's [where] as the in-place writes leave it, and the error if one of
    the steps threw. *)
Definition extractChildCondition (where_ : Condition) (propName pk : string)
  : ChildCondition * option Error :=
  let st := match dread where_ propName with
            | VObj sub => mkChild sub true where_
            | _ => mkChild [] false where_
            end in
  match run_steps (collect_group propName pk) ["$and"; "$or"] st with
  | (st, Some e) => (st, Some e)
  | (st, None) =>
      let operators := filter (fun key => isOperator key false) (dkeys (subCond st)) in
      run_steps (move_operator propName pk) operators st
  end.

End WithHelpers.

End Conditions.

(** ** The loader *)

Module Loader.
Import Metadata Normalizer Conditions.

(** Entities, embedded objects and everything else with an identity are named
    by an index into the entity graph. *)
Definition EntId : Type := nat.

(** What a property read [entity[field]] finds. *)
Inductive SlotValue : Type :=
| SUndefined
| SValue (v : Value)              (* a scalar, or null *)
| SEntity (target : EntId)        (* an entity: Utils.isEntity(v) *)
| SReference (target : EntId)     (* a Reference wrapper: Reference.isReference(v) *)
| SCollection                     (* a Collection: Utils.isCollection(v) *)
| SEmbedded (objects : list EntId). (* an embedded object, or an array of them *)

(** [options.where] is held by reference: the object lives in the store of
    condition objects, and a nested sub-condition is the member of its parent
    found by following [where_path]. *)
Record WhereRef : Type := mkWhereRef {
  where_loc : nat;
  where_path : list string
}.

Record EntityLoaderOptions : Type := mkOptions {
  opt_where : option WhereRef;
  opt_populateWhere : option string;
  opt_fields : option (list Value);
  opt_orderBy : option Value;
  opt_refresh : option bool;
  opt_validate : option bool;
  opt_lookup : option bool;
  opt_convertCustomTypes : option bool;
  opt_ignoreLazyScalarProperties : option bool;
  opt_filters : option Value;
  opt_strategy : option LoadStrategy;
  opt_lockMode : option string;
  opt_schema : option string;
  opt_connectionType : option string
}.

(** The options object handed to [em.find] and to the pivot fetch. *)
Record FindOptions : Type := mkFind {
  find_refresh : option bool;
  find_filters : option Value;
  find_convertCustomTypes : option bool;
  find_lockMode : option string;
  find_populateWhere : option string;
  find_orderBy : Value;
  find_populate : PopulateArg;
  find_strategy : option LoadStrategy;
  find_fields : option (list Value);
  find_schema : option string;
  find_connectionType : option string
}.

(** Calls that leave the loader, in the order they are made. *)
Inductive Event : Type :=
| EvFind (entityName : string) (where_ : Value) (options : FindOptions)
| EvLoadFromPivotTable (prop : EntityProperty) (ids : list Value) (where_ : Value)
    (orderBy : list Value) (options : FindOptions)
| EvHydrate (entity : EntId) (field : string) (items : list EntId) (forcePropagate : bool).

Definition is_fetch (ev : Event) : bool :=
  match ev with
  | EvFind _ _ _ | EvLoadFromPivotTable _ _ _ _ _ => true
  | EvHydrate _ _ _ _ => false
  end.

Definition is_find (ev : Event) : bool :=
  match ev with EvFind _ _ _ => true | _ => false end.

Definition is_pivot_fetch (ev : Event) : bool :=
  match ev with EvLoadFromPivotTable _ _ _ _ _ => true | _ => false end.

(** The collaborators of the loader.  [Heap] is the state of the entity graph,
    identity map and unit of work, which the loader only reaches through them. *)
Record Collaborators (Heap : Type) : Type := mkCollaborators {
  (* EntityManager *)
  canPopulate : string -> string -> bool;
  em_find : string -> Value -> FindOptions -> Heap -> Outcome (list EntId) * Heap;
  applyFilters : string -> Value -> option Value -> Outcome Value;
  factory_create : string -> Value -> option bool -> option string -> Heap -> EntId * Heap;
  registerManaged : EntId -> Value -> option bool -> Heap -> EntId * Heap;
  config_autoJoinOneToOneOwner : bool;
  config_schema : option string;
  (* driver and platform *)
  loadFromPivotTable : EntityProperty -> list Value -> Value -> list Value -> FindOptions ->
                       Heap -> Outcome (Dictionary (list Value)) * Heap;
  usesPivotTable : bool;
  (* QueryHelper *)
  processWhere : string -> bool -> Value -> Value;
  processCustomType : EntityProperty -> Value -> Value;
  (* Utils *)
  isOperator : string -> bool -> bool;
  isPrimaryKey : Value -> bool;
  getPrimaryKeyHash : list string -> string;
  getPrimaryKeyValues : Heap -> EntId -> list string -> Value;
  (* entities and their helpers *)
  slot : Heap -> EntId -> string -> SlotValue;
  has_helper : Heap -> EntId -> bool;
  helper_initialized : Heap -> EntId -> bool;
  helper_schema : Heap -> EntId -> option string;
  helper_primaryKeys : Heap -> EntId -> Value;
  helper_getPrimaryKey : Heap -> EntId -> Value;
  helper_getSerializedPrimaryKey : Heap -> EntId -> string;
  helper_populated : EntId -> Heap -> Heap;
  init_serialization_populate : EntId -> list PopulateOptions -> Heap -> Heap;
  entity_primaryKeys : Heap -> EntId -> list string;
  (* Collection, addressed by its owner and field *)
  coll_isInitialized : Heap -> EntId -> string -> bool -> bool;
  coll_getItems : Heap -> EntId -> string -> Outcome (list EntId);
  coll_owner : Heap -> EntId -> string -> EntId;
  coll_contains : Heap -> EntId -> string -> EntId -> bool;
  coll_populated : EntId -> string -> Heap -> Heap;
  coll_hydrate : EntId -> string -> list EntId -> bool -> Heap -> Heap
}.

(** The state a call runs in. *)
Record World (Heap : Type) : Type := mkWorld {
  heap : Heap;
  conds : list Condition;
  trace : list Event
}.

Arguments mkWorld {Heap} heap conds trace.
Arguments heap {Heap} w.
Arguments conds {Heap} w.
Arguments trace {Heap} w.

(** *** Condition objects in the store *)

Fixpoint path_get (d : Condition) (path : list string) : option Condition :=
  match path with
  | [] => Some d
  | k :: r => match dget d k with
              | Some (VObj o) => path_get o r
              | _ => None
              end
  end.

Fixpoint path_set (d : Condition) (path : list string) (new : Condition) : Condition :=
  match path with
  | [] => new
  | k :: r => match dget d k with
              | Some (VObj o) => dset d k (VObj (path_set o r new))
              | _ => d
              end
  end.

Fixpoint list_set {A} (l : list A) (i : nat) (x : A) : list A :=
  match l, i with
  | [], _ => []
  | _ :: r, 0 => x :: r
  | y :: r, S j => y :: list_set r j x
  end.

Definition cond_read (cs : list Condition) (r : WhereRef) : option Condition :=
  match nth_error cs (where_loc r) with
  | Some root => path_get root (where_path r)
  | None => None
  end.

Definition cond_write (cs : list Condition) (r : WhereRef) (c : Condition) : list Condition :=
  match nth_error cs (where_loc r) with
  | Some root => list_set cs (where_loc r) (path_set root (where_path r) c)
  | None => cs
  end.

(** *** Utils on values *)

(** Utils.asArray *)
Definition asArray (v : Value) : list Value :=
  match v with
  | VUndefined => []
  | VArr l => l
  | _ => [v]
  end.

(** Utils.isObject *)
Definition isObject (v : Value) : bool :=
  match v with VObj _ | VArr _ => true | _ => false end.

(** Utils.isEmpty on a populate argument *)
Definition isEmpty (populate : PopulateArg) : bool :=
  match populate with
  | PBool b => negb b
  | PArr l => match l with [] => true | _ :: _ => false end
  end.

(** Utils.unique: first occurrences, in order. *)
Fixpoint unique_by {A} (eqb : A -> A -> bool) (l : list A) : list A :=
  match l with
  | [] => []
  | x :: r => x :: filter (fun y => negb (eqb x y)) (unique_by eqb r)
  end.

Definition unique_entities : list EntId -> list EntId := unique_by Nat.eqb.
Definition unique_values : list Value -> list Value := unique_by strict_eqb.

(** [asArray(orderBy).filter(o => isObject(o[name])).map(o => o[name])] *)
Definition inner_orderBy (orderBy : option Value) (name : string) : Outcome (list Value) :=
  let? subs := omap (fun o => member o name)
                    (match orderBy with Some v => asArray v | None => [] end) in
  Ok (filter isObject subs).


Section WithCollaborators.

Variable Heap : Type.
Variable C : Collaborators Heap.
Variable metadata : MetadataStorage.

(** *** The monad of the loader: state, errors and the trace *)

Definition M (A : Type) : Type := World Heap -> Outcome A * World Heap.

Definition ret {A} (a : A) : M A := fun w => (Ok a, w).

Definition bind {A B} (c : M A) (k : A -> M B) : M B :=
  fun w => match c w with
           | (Ok a, w') => k a w'
           | (Throw e, w') => (Throw e, w')
           | (OutOfFuel, w') => (OutOfFuel, w')
           end.

Notation "'let*' x ':=' c1 'in' c2" := (bind c1 (fun x => c2))
  (at level 61, x pattern, c1 at next level, right associativity).

Definition lift {A} (o : Outcome A) : M A := fun w => (o, w).

Definition throw {A} (e : Error) : M A := fun w => (Throw e, w).

Definition get_heap : M Heap := fun w => (Ok (heap w), w).

Definition modify_heap (f : Heap -> Heap) : M unit :=
  fun w => (Ok tt, mkWorld (f (heap w)) (conds w) (trace w)).

Definition emit (ev : Event) : M unit :=
  fun w => (Ok tt, mkWorld (heap w) (conds w) (trace w ++ [ev])).

(** [for (const x of l) { body }] *)
Fixpoint for_each {A} (l : list A) (body : A -> M unit) : M unit :=
  match l with
  | [] => ret tt
  | x :: r => let* _ := body x in for_each r body
  end.

(** [l.map(x => body)] with a body that has effects. *)
Fixpoint map_m {A B} (l : list A) (body : A -> M B) : M (list B) :=
  match l with
  | [] => ret []
  | x :: r => let* y := body x in let* ys := map_m r body in ret (y :: ys)
  end.

Definition required {A} (o : option A) (msg : string) : M A :=
  match o with Some a => ret a | None => throw (TypeError msg) end.

(** [this.metadata.find(entityName)!] followed by a member read *)
Definition find_meta (entityName : string) : M EntityMetadata :=
  required (find metadata entityName) "Cannot read properties of undefined (metadata)".

(** [meta.properties[name]] followed by a member read *)
Definition property_of (meta : EntityMetadata) (name : string) : M EntityProperty :=
  required (dget (meta_properties meta) name) "Cannot read properties of undefined (property)".

(** Truthiness of an optional boolean option. *)
Definition flag (o : option bool) : bool :=
  match o with Some b => b | None => false end.

(** *** Collaborator calls, recorded *)

Definition call_find (entityName : string) (where_ : Value) (options : FindOptions)
  : M (list EntId) :=
  fun w =>
    let (r, h) := em_find C entityName where_ options (heap w) in
    (r, mkWorld h (conds w) (trace w ++ [EvFind entityName where_ options])).

Definition call_loadFromPivotTable (prop : EntityProperty) (ids : list Value) (where_ : Value)
    (orderBy : list Value) (options : FindOptions) : M (Dictionary (list Value)) :=
  fun w =>
    let (r, h) := loadFromPivotTable C prop ids where_ orderBy options (heap w) in
    (r, mkWorld h (conds w)
          (trace w ++ [EvLoadFromPivotTable prop ids where_ orderBy options])).

Definition call_hydrate (entity : EntId) (field : string) (items : list EntId)
    (forcePropagate : bool) : M unit :=
  fun w =>
    (Ok tt, mkWorld (coll_hydrate C entity field items forcePropagate (heap w)) (conds w)
              (trace w ++ [EvHydrate entity field items forcePropagate])).

(** [em.getEntityFactory().create(type, item, { refresh, merge: true,
    convertCustomTypes: true, schema })] *)
Definition create_entity (type : string) (item : Value) (refresh : option bool)
    (schema : option string) : M EntId :=
  fun w =>
    let (e, h) := factory_create C type item refresh schema (heap w) in
    (Ok e, mkWorld h (conds w) (trace w)).

(** [em.getUnitOfWork().registerManaged(entity, item, { refresh, loaded: true })] *)
Definition register_managed (entity : EntId) (item : Value) (refresh : option bool) : M EntId :=
  fun w =>
    let (e, h) := registerManaged C entity item refresh (heap w) in
    (Ok e, mkWorld h (conds w) (trace w)).

(** *** Condition objects *)

Definition read_where (options : EntityLoaderOptions) : M Condition :=
  fun w =>
    match opt_where options with
    | None => (Throw (TypeError "Cannot read properties of undefined (where)"), w)
    | Some r =>
        match cond_read (conds w) r with
        | Some c => (Ok c, w)
        | None => (Throw (TypeError "Cannot read properties of undefined (where)"), w)
        end
    end.

Definition write_cond (r : WhereRef) (c : Condition) : M unit :=
  fun w => (Ok tt, mkWorld (heap w) (cond_write (conds w) r c) (trace w)).

(** A fresh object literal. *)
Definition alloc_cond (c : Condition) : M WhereRef :=
  fun w => (Ok (mkWhereRef (length (conds w)) []),
            mkWorld (heap w) (conds w ++ [c]) (trace w)).

Definition mergePrimaryCondition (ids : list Value) (pk : string)
    (options : EntityLoaderOptions) (meta : EntityMetadata) : M Value :=
  let* where_ := read_where options in
  ret (Conditions.mergePrimaryCondition (processWhere C) ids pk where_
         (flag (opt_convertCustomTypes options)) (meta_name meta)).

(** extractChildCondition returns the sub-condition object, or, with [filters],
    the condition that applyFilters makes of it.  Both are given here: the
    reference to the sub-condition object and the returned condition's value. *)
Definition extractChildCondition (options : EntityLoaderOptions) (prop : EntityProperty)
    (filters : bool) : M (WhereRef * Value) :=
  let* r := required (opt_where options) "Cannot read properties of undefined (where)" in
  let* where_ := read_where options in
  let* meta2 := find_meta (prop_type prop) in
  let pk := getPrimaryKeyHash C (meta_primaryKeys meta2) in
  let (st, err) := Conditions.extractChildCondition (isOperator C) (isPrimaryKey C)
                     where_ (prop_name prop) pk in
  let* sub :=
    if aliased st
    then let* _ := write_cond r (where_after st) in
         ret (mkWhereRef (where_loc r) (where_path r ++ [prop_name prop]))
    else alloc_cond (subCond st) in
  match err with
  | Some e => throw e
  | None =>
      if filters
      then let* v := lift (applyFilters C (prop_type prop) (VObj (subCond st))
                             (opt_filters options)) in
           ret (sub, v)
      else ret (sub, VObj (subCond st))
  end.

(** *** buildFields *)

Definition field_entry (name : string) (f : Value) : Outcome (list Value) :=
  match f with
  | VObj o =>
      ofold (fun ret ff =>
               match dread o ff with
               | VArr l => Ok (ret ++ l)
               | _ => Throw (TypeError "f[ff] is not iterable")
               end)
            (filter (fun ff => String.eqb ff name) (dkeys o)) []
  | VStr s =>
      if includes_dot s then
        match split_dot s with
        | propName :: parts =>
            if String.eqb propName name then Ok [VStr (join_dot parts)] else Ok []
        | [] => Ok []
        end
      else Ok []
  | _ => Ok []
  end.

Definition buildFields (fields : option (list Value)) (prop : EntityProperty)
  : M (option (list Value)) :=
  let fields := match fields with Some l => l | None => [] end in
  let* ret_ := lift (ofold (fun ret f => let? more := field_entry (prop_name prop) f in
                                         Ok (ret ++ more)) fields []) in
  match ret_ with
  | [] => ret None
  | _ :: _ =>
      (* select the FKs too, e.g. for 1:m relations, to be able to wire them with the items *)
      match prop_reference prop with
      | ONE_TO_MANY =>
          let* targetMeta := find_meta (prop_type prop) in
          let* owner := property_of targetMeta (prop_mappedBy prop) in
          if existsb (strict_eqb (VStr (prop_name owner))) ret_
          then ret (Some ret_)
          else ret (Some (ret_ ++ [VStr (prop_name owner)]))
      | _ => ret (Some ret_)
      end
  end.

(** *** The filters *)

Definition slot_truthy (s : SlotValue) : bool :=
  match s with
  | SUndefined => false
  | SValue v => truthy v
  | _ => true
  end.

Definition isCollection (s : SlotValue) : bool :=
  match s with SCollection => true | _ => false end.

(** Utils.isEntity(value, allowReference) *)
Definition isEntity (s : SlotValue) (allowReference : bool) : bool :=
  match s with
  | SEntity _ => true
  | SReference _ => allowReference
  | _ => false
  end.

(** Reference.unwrapReference, on an entity or a reference. *)
Definition unwrapReference (s : SlotValue) : list EntId :=
  match s with SEntity t | SReference t => [t] | _ => [] end.

(** [(value as AnyEntity).__helper.__initialized]: a Reference exposes the
    helper of the entity it wraps. *)
Definition slot_initialized (h : Heap) (s : SlotValue) : bool :=
  match s with
  | SEntity t | SReference t => helper_initialized C h t
  | _ => false
  end.

Definition filterCollections (h : Heap) (entities : list EntId) (field : string)
    (refresh : bool) : list EntId :=
  if refresh
  then filter (fun e => slot_truthy (slot C h e field)) entities
  else filter (fun e => isCollection (slot C h e field) &&
                        negb (coll_isInitialized C h e field true)) entities.

Definition filterReferences (h : Heap) (entities : list EntId) (field : string)
    (refresh : bool) : list EntId :=
  let children := filter (fun e => isEntity (slot C h e field) true) entities in
  if refresh
  then flat_map (fun e => unwrapReference (slot C h e field)) children
  else flat_map (fun e => unwrapReference (slot C h e field))
         (filter (fun e => negb (slot_initialized h (slot C h e field))) children).

Definition filterByReferences (h : Heap) (entities : list EntId) (field : string)
    (refresh : bool) : list EntId :=
  if refresh then entities
  else filter (fun e => negb (slot_initialized h (slot C h e field))) entities.

Definition getChildReferences (h : Heap) (entities : list EntId) (prop : EntityProperty)
    (refresh : bool) : Outcome (list EntId) :=
  let filtered := filterCollections h entities (prop_name prop) refresh in
  match prop_reference prop with
  | ONE_TO_MANY =>
      omap (fun e => if isCollection (slot C h e (prop_name prop))
                     then Ok (coll_owner C h e (prop_name prop))
                     else Throw (TypeError "Cannot read properties of undefined (owner)"))
           filtered
  | MANY_TO_MANY =>
      if prop_owner prop
      then ofold (fun a b =>
                    if isCollection (slot C h b (prop_name prop))
                    then let? items := coll_getItems C h b (prop_name prop) in Ok (a ++ items)
                    else Throw (TypeError "getItems is not a function"))
                 filtered []
      else Ok filtered   (* inverse side *)
  | _ => (* MANY_TO_ONE or ONE_TO_ONE *)
      Ok (filterReferences h entities (prop_name prop) refresh)
  end.


(** *** findChildren *)

Definition string_truthy (o : option string) : bool :=
  match o with Some s => negb (String.eqb s "") | None => false end.

(** [populate.children ?? populate.all ?? []] *)
Definition children_or_all (populate : PopulateOptions) : PopulateArg :=
  match children populate, all populate with
  | Some c, _ => PArr c
  | None, Some b => PBool b
  | None, None => PArr []
  end.

Definition with_where (options : EntityLoaderOptions) (where_ : WhereRef) (orderBy : Value)
  : EntityLoaderOptions :=
  mkOptions (Some where_) (opt_populateWhere options) (opt_fields options) (Some orderBy)
    (opt_refresh options) (opt_validate options) (opt_lookup options)
    (opt_convertCustomTypes options) (opt_ignoreLazyScalarProperties options)
    (opt_filters options) (opt_strategy options) (opt_lockMode options)
    (opt_schema options) (opt_connectionType options).

Definition findChildren (entities : list EntId) (prop : EntityProperty)
    (populate : PopulateOptions) (options : EntityLoaderOptions) : M (list EntId) :=
  let refresh := flag (opt_refresh options) in
  let* h := get_heap in
  let* children := lift (getChildReferences h entities prop refresh) in
  let* meta := find_meta (prop_type prop) in
  let fk := getPrimaryKeyHash C (meta_primaryKeys meta) in
  let schema := opt_schema options in
  let* fk :=
    match prop_reference prop, prop_owner prop with
    | ONE_TO_MANY, _ | MANY_TO_MANY, false =>
        let* mapped := property_of meta (prop_mappedBy prop) in ret (prop_name mapped)
    | _, _ => ret fk
    end in
  let* (children, fk) :=
    match prop_reference prop, prop_owner prop, strategy populate with
    | ONE_TO_ONE, false, Some JOINED => ret (children, fk)
    | ONE_TO_ONE, false, _ =>
        if config_autoJoinOneToOneOwner C then ret (children, fk)
        else
          let* mapped := property_of meta (prop_mappedBy prop) in
          ret (filterByReferences h entities (prop_name prop) refresh, prop_name mapped)
    | _, _, _ => ret (children, fk)
    end in
  match children with
  | [] => ret []
  | _ :: _ =>
      let schema :=
        match prop_reference prop with
        | ONE_TO_ONE | MANY_TO_ONE =>
            if string_truthy schema then schema
            else match List.find (fun e => string_truthy (helper_schema C h e)) children with
                 | Some e => helper_schema C h e
                 | None => None
                 end
        | _ => schema
        end in
      let ids := unique_values
                   (map (fun e => getPrimaryKeyValues C h e (entity_primaryKeys C h e)) children) in
      let* where_ := mergePrimaryCondition ids fk options meta in
      let* fields := buildFields (opt_fields options) prop in
      call_find (prop_type prop) where_
        (mkFind (opt_refresh options) (opt_filters options) (opt_convertCustomTypes options)
           (opt_lockMode options) (opt_populateWhere options)
           (VArr ((match opt_orderBy options with Some v => asArray v | None => [] end)
                  ++ (match prop_orderBy prop with Some v => asArray v | None => [] end)
                  ++ [VObj [(fk, VStr "ASC")]]))
           (children_or_all populate)
           (opt_strategy options) fields schema (opt_connectionType options))
  end.

(** *** initializeCollections *)

Definition hydrate (entity : EntId) (field : string) (items : list EntId)
    (forcePropagate : bool) : M unit :=
  let* h := get_heap in
  if isCollection (slot C h entity field)
  then call_hydrate entity field items forcePropagate
  else throw (TypeError "hydrate is not a function").

Definition initializeOneToMany (filtered : list EntId) (children : list EntId)
    (prop : EntityProperty) (field : string) : M unit :=
  for_each filtered (fun entity =>
    let* h := get_heap in
    let* keep :=
      map_m children (fun child =>
        let* targetMeta := find_meta (prop_type prop) in
        let* mapped := property_of targetMeta (prop_mappedBy prop) in
        if prop_mapToPk mapped
        then ret (match slot C h child (prop_mappedBy prop) with
                  | SValue v => strict_eqb v (helper_getPrimaryKey C h entity)
                  | SUndefined => strict_eqb VUndefined (helper_getPrimaryKey C h entity)
                  | _ => false
                  end)
        else ret (match slot C h child (prop_mappedBy prop) with
                  | SEntity t | SReference t => Nat.eqb t entity
                  | _ => false
                  end)) in
    let items := map fst (filter snd (combine children keep)) in
    hydrate entity field items false).

Definition initializeManyToMany (filtered : list EntId) (children : list EntId)
    (prop : EntityProperty) (field : string) : M unit :=
  for_each filtered (fun entity =>
    let* h := get_heap in
    let* keep :=
      map_m children (fun child =>
        if isCollection (slot C h child (prop_mappedBy prop))
        then ret (coll_contains C h child (prop_mappedBy prop) entity)
        else throw (TypeError "contains is not a function")) in
    let items := map fst (filter snd (combine children keep)) in
    hydrate entity field items true).

Definition initializeCollections (filtered : list EntId) (prop : EntityProperty)
    (field : string) (children : list EntId) : M unit :=
  let* _ := match prop_reference prop with
            | ONE_TO_MANY => initializeOneToMany filtered children prop field
            | _ => ret tt
            end in
  match prop_reference prop with
  | MANY_TO_MANY =>
      if negb (prop_owner prop) && negb (usesPivotTable C)
      then initializeManyToMany filtered children prop field
      else ret tt
  | _ => ret tt
  end.

(** *** findChildrenFromPivotTable *)

Definition option_or {A} (a b : option A) : option A :=
  match a with Some _ => a | None => b end.

Definition findChildrenFromPivotTable (filtered : list EntId) (prop : EntityProperty)
    (options : EntityLoaderOptions) (orderBy : list Value) (populate : PopulateOptions)
  : M (list EntId) :=
  let* h := get_heap in
  let ids := map (helper_primaryKeys C h) filtered in
  let refresh := opt_refresh options in
  let* (_, where_) := extractChildCondition options prop true in
  let* fields := buildFields (opt_fields options) prop in
  let options2 :=
    mkFind (opt_refresh options) (opt_filters options) (opt_convertCustomTypes options)
      (opt_lockMode options) (opt_populateWhere options)
      (match opt_orderBy options with Some v => v | None => VUndefined end)
      (PArr (match children populate with Some c => c | None => [] end))
      (opt_strategy options) fields (opt_schema options) (opt_connectionType options) in
  let ids := if prop_customType prop then map (processCustomType C prop) ids else ids in
  let* map_ := call_loadFromPivotTable prop ids where_ orderBy options2 in
  let* per_entity :=
    map_m filtered (fun entity =>
      let* h := get_heap in
      let* rows := required (dget map_ (helper_getSerializedPrimaryKey C h entity))
                     "Cannot read properties of undefined (reading 'map')" in
      let* items :=
        map_m rows (fun item =>
          let* created := create_entity (prop_type prop) item refresh
                            (option_or (opt_schema options) (config_schema C)) in
          register_managed created item refresh) in
      let* _ := hydrate entity (prop_name prop) items true in
      ret items) in
  ret (concat per_entity).

(** *** populateMany *)

(** [entities.forEach(entity => ... populated())]: set populate flag *)
Definition mark_populated (entities : list EntId) (field : string) : M unit :=
  for_each entities (fun entity =>
    let* h := get_heap in
    match slot C h entity field with
    | SEntity t | SReference t => modify_heap (helper_populated C t)
    | SCollection => modify_heap (coll_populated C entity field)
    | _ => ret tt
    end).

(** preload everything in one call (this will update already existing references in IM) *)
Definition populateMany (entityName : string) (entities : list EntId)
    (populate : PopulateOptions) (options : EntityLoaderOptions) : M (list EntId) :=
  let field := field populate in
  let* meta := find_meta entityName in
  let* prop := property_of meta field in
  match prop_reference prop, prop_lazy prop with
  | SCALAR, true =>
      let* h := get_heap in
      let filtered :=
        filter (fun e => flag (opt_refresh options) ||
                         match slot C h e (prop_name prop) with SUndefined => true | _ => false end)
               entities in
      if flag (opt_ignoreLazyScalarProperties options) then ret entities
      else
        match filtered with
        | [] => ret entities
        | _ :: _ =>
            let pk := getPrimaryKeyHash C (meta_primaryKeys meta) in
            let ids := unique_values
                         (map (fun e => getPrimaryKeyValues C h e (meta_primaryKeys meta)) filtered) in
            let* where_ := mergePrimaryCondition ids pk options meta in
            let* _ := call_find (meta_className meta) where_
                        (mkFind None (opt_filters options) (opt_convertCustomTypes options)
                           (opt_lockMode options) (opt_populateWhere options) VUndefined
                           (PArr []) (opt_strategy options) (Some [VStr (prop_name prop)])
                           None (opt_connectionType options)) in
            ret entities
        end
  | EMBEDDED, _ => ret []
  | _, _ =>
      let* _ := mark_populated entities field in
      let* h := get_heap in
      let filtered := filterCollections h entities field (flag (opt_refresh options)) in
      let* innerOrderBy := lift (inner_orderBy (opt_orderBy options) (prop_name prop)) in
      if match prop_reference prop with MANY_TO_MANY => usesPivotTable C | _ => false end
      then findChildrenFromPivotTable filtered prop options innerOrderBy populate
      else
        let* (where_, _) := extractChildCondition options prop false in
        let* data := findChildren entities prop populate
                       (with_where options where_ (VArr innerOrderBy)) in
        let* _ := initializeCollections filtered prop field data in
        ret data
  end.

(** *** populateField *)

(** A nested call of [populate], as populateField sees it. *)
Definition PopulateCall : Type :=
  string -> list EntId -> PopulateArg -> EntityLoaderOptions -> M unit.

Definition populateField (rec : PopulateCall) (entityName : string) (entities : list EntId)
    (populate : PopulateOptions) (options : EntityLoaderOptions) : M unit :=
  let* meta := find_meta entityName in
  let* prop := property_of meta (field populate) in
  match prop_reference prop, prop_lazy prop with
  | SCALAR, false => ret tt
  | _, _ =>
      match children populate with
      | None =>
          let* _ := populateMany entityName entities populate options in ret tt
      | Some nested =>
          let* _ := populateMany entityName entities populate options in
          let* found := map_m entities (fun entity =>
                          let* h := get_heap in
                          match slot C h entity (field populate) with
                          | SEntity t => ret [t]
                          | SReference t => ret [t]
                          | SCollection => lift (coll_getItems C h entity (field populate))
                          | SEmbedded objects =>
                              match prop_reference prop with
                              | EMBEDDED => ret objects
                              | _ => ret []
                              end
                          | SUndefined | SValue _ => ret []
                          end) in
          let filtered := unique_entities (concat found) in
          let* fields := buildFields (opt_fields options) prop in
          let* innerOrderBy := lift (inner_orderBy (opt_orderBy options) (prop_name prop)) in
          let* (where_, _) := extractChildCondition options prop false in
          rec (prop_type prop) filtered (PArr nested)
            (mkOptions (Some where_) (opt_populateWhere options) fields
               (Some (VArr innerOrderBy)) (opt_refresh options) (Some false) (Some false)
               None (opt_ignoreLazyScalarProperties options) (opt_filters options)
               None None None (opt_connectionType options))
      end
  end.

(** *** populate *)

(** Lines 52-58: [options.x ??= default], in place. *)
Definition default_value (o : option Value) (d : Value) : option Value :=
  match o with
  | Some v => if nullish v then Some d else Some v
  | None => Some d
  end.

Definition default_bool (o : option bool) (d : bool) : option bool :=
  match o with Some b => Some b | None => Some d end.

Definition apply_defaults (options : EntityLoaderOptions) (w : World Heap)
  : EntityLoaderOptions * World Heap :=
  let (where_, w) :=
    match opt_where options with
    | Some r => (r, w)
    | None => (mkWhereRef (length (conds w)) [],
               mkWorld (heap w) (conds w ++ [[]]) (trace w))
    end in
  (mkOptions (Some where_) (opt_populateWhere options) (opt_fields options)
     (default_value (opt_orderBy options) (VObj []))
     (default_bool (opt_refresh options) false)
     (default_bool (opt_validate options) true)
     (default_bool (opt_lookup options) true)
     (default_bool (opt_convertCustomTypes options) true)
     (opt_ignoreLazyScalarProperties options)
     (default_value (opt_filters options) (VObj []))
     (opt_strategy options) (opt_lockMode options) (opt_schema options)
     (opt_connectionType options),
   w).

(** Lines 59-71, with the options as the defaults left them. *)
Definition populate_fields (rec : PopulateCall) (entityName : string) (entities : list EntId)
    (populate : PopulateArg) (options : EntityLoaderOptions) : M unit :=
  let* normalized := lift (normalizePopulate metadata entityName populate
                             (opt_strategy options) (flag (opt_lookup options))) in
  let invalid := List.find (fun p => negb (canPopulate C entityName (field p))) normalized in
  match (if flag (opt_validate options) then invalid else None) with
  | Some bad => throw (InvalidPropertyName entityName (field bad))
  | None =>
      let* _ := for_each entities (fun e =>
                  modify_heap (init_serialization_populate C e normalized)) in
      for_each normalized (fun pop => populateField rec entityName entities pop options)
  end.

(** The result of a call: how it ended, and the caller's options object as the
    call left it. *)
Definition PopulateResult : Type := (Outcome unit * EntityLoaderOptions) * World Heap.

Definition populate_body (rec : PopulateCall) (entityName : string) (entities : list EntId)
    (populate : PopulateArg) (options : EntityLoaderOptions) (w : World Heap)
  : PopulateResult :=
  if Nat.eqb (length entities) 0 || isEmpty populate then ((Ok tt, options), w)
  else if existsb (fun e => negb (has_helper C (heap w) e)) entities
       then ((Throw (NotDiscoveredEntity entityName), options), w)
       else
         let (options, w) := apply_defaults options w in
         let (r, w) := populate_fields rec entityName entities populate options w in
         ((r, options), w).

(** A populate call seen from populateField: only how it ended matters there. *)
Definition as_call
    (p : string -> list EntId -> PopulateArg -> EntityLoaderOptions -> World Heap ->
         PopulateResult) : PopulateCall :=
  fun entityName entities populateArg options w =>
    let (r, w) := p entityName entities populateArg options w in (fst r, w).

Definition out_of_fuel : PopulateCall := fun _ _ _ _ w => (OutOfFuel, w).

(** Loads specified relations in batch. This will execute one query for each
    relation, that will populate it on all of the specified entities.
    [fuel] bounds the nesting of populate calls through [children]. *)
Fixpoint populate (fuel : nat) (entityName : string) (entities : list EntId)
    (populateArg : PopulateArg) (options : EntityLoaderOptions) (w : World Heap)
  : PopulateResult :=
  populate_body
    (match fuel with
     | 0 => out_of_fuel
     | S fuel' => as_call (populate fuel')
     end)
    entityName entities populateArg options w.

(** The nested calls available to [populate fuel]. *)
Definition nested_populate (fuel : nat) : PopulateCall :=
  match fuel with
  | 0 => out_of_fuel
  | S fuel' => as_call (populate fuel')
  end.

End WithCollaborators.

End Loader.

(** ** Predicates used to state the loader's properties *)

Module LoaderSpec.
Import Metadata Normalizer Conditions Loader.

Section Transitions.

Variable Heap : Type.

(** A computation's effect on the world, whatever its outcome. *)
Definition preserves {A} (R : World Heap -> World Heap -> Prop) (c : M Heap A) : Prop :=
  forall w r w', c w = (r, w') -> R w w'.

Definition same_world (w w' : World Heap) : Prop := w' = w.
Definition same_conds (w w' : World Heap) : Prop := conds w' = conds w.
Definition same_trace (w w' : World Heap) : Prop := trace w' = trace w.
Definition same_heap (w w' : World Heap) : Prop := heap w' = heap w.

(** The batched fetches of a trace: calls of [em.find] and of the pivot fetch. *)
Definition fetches (t : list Event) : list Event := filter is_fetch t.

(** The call added at most [n] fetches. *)
Definition adds_fetches (n : nat) (w w' : World Heap) : Prop :=
  exists evs, trace w' = trace w ++ evs /\ length (fetches evs) <= n.

(** The call appended events whose batched fetches are exactly [l]. *)
Definition fetched (l : list Event) (w w' : World Heap) : Prop :=
  exists evs, trace w' = trace w ++ evs /\ fetches evs = l.

(** The condition objects that were there are as they were; the call may have
    made new ones. *)
Definition conds_extended (w w' : World Heap) : Prop :=
  exists fresh, conds w' = conds w ++ fresh.

(** The object behind [r] is the empty object [{}]. *)
Definition empty_where (r : WhereRef) (w : World Heap) : Prop :=
  cond_read (conds w) r = Some [].

(** Started with [{}] behind [r], the call leaves the condition objects that
    were there as they were. *)
Definition keeps_empty_where (r : WhereRef) (w w' : World Heap) : Prop :=
  empty_where r w -> conds_extended w w'.

(** [options.x ??= d], read off the options before and after the call. *)
Definition defaulted {A} (d : A) (before after : option A) : Prop :=
  match before with
  | None => after = Some d
  | Some v => after = Some v
  end.

Definition defaulted_value (d : Value) (before after : option Value) : Prop :=
  match before with
  | None | Some VUndefined | Some VNull => after = Some d
  | Some v => after = Some v
  end.

(** The hydrate events of the pivot load, one per parent, in the order of the
    parents. *)
Definition hydrate_events (name : string) (filtered : list EntId)
    (perEntity : list (list EntId)) : list Event :=
  map (fun p => EvHydrate (fst p) name (snd p) true) (combine filtered perEntity).

End Transitions.

Section Loaded.

Variable Heap : Type.
Variable C : Collaborators Heap.

(** The entity graph after [populated()] has been called on every parent's
    slot, as populateMany does before it filters. *)
Definition marked (entities : list EntId) (field : string) (h : Heap) : Heap :=
  fold_left (fun h entity =>
               match slot C h entity field with
               | SEntity t | SReference t => helper_populated C t h
               | SCollection => coll_populated C entity field h
               | _ => h
               end)
            entities h.

(** What findChildren settles before it asks the store (lines 239-252): the
    batch of child references, the key to look them up by, and the target
    metadata. *)
Definition find_plan (metadata : MetadataStorage) (h : Heap) (entities : list EntId)
    (prop : EntityProperty) (populate : PopulateOptions) (refresh : bool)
  : Outcome (list EntId * string * EntityMetadata) :=
  let? children := getChildReferences C h entities prop refresh in
  match find metadata (prop_type prop) with
  | None => Throw (TypeError "Cannot read properties of undefined (metadata)")
  | Some meta =>
      let mapped := dget (meta_properties meta) (prop_mappedBy prop) in
      let missing {A} : Outcome A :=
        Throw (TypeError "Cannot read properties of undefined (property)") in
      let? fk :=
        match prop_reference prop, prop_owner prop with
        | ONE_TO_MANY, _ | MANY_TO_MANY, false =>
            match mapped with Some m => Ok (prop_name m) | None => missing end
        | _, _ => Ok (getPrimaryKeyHash C (meta_primaryKeys meta))
        end in
      match prop_reference prop, prop_owner prop, strategy populate with
      | ONE_TO_ONE, false, Some JOINED => Ok (children, fk, meta)
      | ONE_TO_ONE, false, _ =>
          if config_autoJoinOneToOneOwner C then Ok (children, fk, meta)
          else match mapped with
               | Some m => Ok (filterByReferences C h entities (prop_name prop) refresh,
                               prop_name m, meta)
               | None => missing
               end
      | _, _, _ => Ok (children, fk, meta)
      end
  end.

(** populateMany on a relation, after the populated flags are set (lines 191-204). *)
Definition load_relation (metadata : MetadataStorage) (prop : EntityProperty)
    (entities : list EntId) (populate : PopulateOptions) (options : EntityLoaderOptions)
  : M Heap (list EntId) :=
  bind (get_heap (Heap := Heap)) (fun h =>
  let filtered := filterCollections C h entities (field populate) (flag (opt_refresh options)) in
  bind (lift (inner_orderBy (opt_orderBy options) (prop_name prop))) (fun innerOrderBy =>
  if match prop_reference prop with MANY_TO_MANY => usesPivotTable C | _ => false end
  then findChildrenFromPivotTable C metadata filtered prop options innerOrderBy populate
  else
    bind (extractChildCondition C metadata options prop false) (fun '(where_, _) =>
    bind (findChildren C metadata entities prop populate
            (with_where options where_ (VArr innerOrderBy))) (fun data =>
    bind (initializeCollections C metadata filtered prop (field populate) data) (fun _ =>
    ret data))))).

(** A property that names a relation. *)
Definition is_relation (prop : EntityProperty) : Prop :=
  prop_reference prop <> SCALAR /\ prop_reference prop <> EMBEDDED.

(** A many-to-many relation kept in a pivot table. *)
Definition on_pivot (prop : EntityProperty) : bool :=
  match prop_reference prop with MANY_TO_MANY => usesPivotTable C | _ => false end.

(** The batch of child references alone. *)
Definition child_batch (metadata : MetadataStorage) (h : Heap) (entities : list EntId)
    (prop : EntityProperty) (populate : PopulateOptions) (refresh : bool)
  : Outcome (list EntId) :=
  let? plan := find_plan metadata h entities prop populate refresh in
  Ok (fst (fst plan)).

(** The call that findChildren makes for a batch that is not empty (lines 258-272). *)
Definition find_batch (metadata : MetadataStorage) (prop : EntityProperty)
    (populate : PopulateOptions) (options : EntityLoaderOptions)
    (children : list EntId) (fk : string) (meta : EntityMetadata) : M Heap (list EntId) :=
  bind (get_heap (Heap := Heap)) (fun h =>
  let schema :=
    match prop_reference prop with
    | ONE_TO_ONE | MANY_TO_ONE =>
        if string_truthy (opt_schema options) then opt_schema options
        else match List.find (fun e => string_truthy (helper_schema C h e)) children with
             | Some e => helper_schema C h e
             | None => None
             end
    | _ => opt_schema options
    end in
  let ids := unique_values
               (map (fun e => getPrimaryKeyValues C h e (entity_primaryKeys C h e)) children) in
  bind (mergePrimaryCondition C ids fk options meta) (fun where_ =>
  bind (buildFields metadata (opt_fields options) prop) (fun fields =>
  call_find C (prop_type prop) where_
    (mkFind (opt_refresh options) (opt_filters options) (opt_convertCustomTypes options)
       (opt_lockMode options) (opt_populateWhere options)
       (VArr ((match opt_orderBy options with Some v => asArray v | None => [] end)
              ++ (match prop_orderBy prop with Some v => asArray v | None => [] end)
              ++ [VObj [(fk, VStr "ASC")]]))
       (children_or_all populate)
       (opt_strategy options) fields schema (opt_connectionType options))))).

(** What the filters and the collection of children look at in the graph. *)
Definition same_view (h h' : Heap) : Prop :=
  (forall e f, slot C h' e f = slot C h e f) /\
  (forall e, helper_initialized C h' e = helper_initialized C h e) /\
  (forall e f fully, coll_isInitialized C h' e f fully = coll_isInitialized C h e f fully) /\
  (forall e f, coll_getItems C h' e f = coll_getItems C h e f).

(** Setting the populated flag and caching the serialization hint leave what
    the filters look at as it was. *)
Definition marks_keep_view : Prop :=
  forall h,
    (forall e, same_view h (helper_populated C e h)) /\
    (forall e f, same_view h (coll_populated C e f h)) /\
    (forall e p, same_view h (init_serialization_populate C e p h)).

(** With [refresh] off, the parent's slot for [prop] needs no loading: a lazy
    scalar that has a value, a collection that is fully initialized, an entity
    or reference that is initialized.  On the inverse side of a one-to-one
    relation this asks for an initialized entity in the slot, as
    filterByReferences does. *)
Definition settled (h : Heap) (prop : EntityProperty) (e : EntId) : bool :=
  let s := slot C h e (prop_name prop) in
  match prop_reference prop with
  | SCALAR => negb (prop_lazy prop) || match s with SUndefined => false | _ => true end
  | EMBEDDED => true
  | ONE_TO_MANY | MANY_TO_MANY =>
      negb (isCollection s) || coll_isInitialized C h e (prop_name prop) true
  | MANY_TO_ONE => negb (isEntity s true) || slot_initialized C h s
  | ONE_TO_ONE =>
      if prop_owner prop then negb (isEntity s true) || slot_initialized C h s
      else slot_initialized C h s
  end.

(** The children that populateField collects from one parent (lines 297-307). *)
Definition slot_children (h : Heap) (prop : EntityProperty) (e : EntId) (field : string)
  : Outcome (list EntId) :=
  match slot C h e field with
  | SEntity t | SReference t => Ok [t]
  | SCollection => coll_getItems C h e field
  | SEmbedded objects =>
      match prop_reference prop with EMBEDDED => Ok objects | _ => Ok [] end
  | SUndefined | SValue _ => Ok []
  end.

(** [reach name e]: the entity [e] is handled as an instance of [name].  The
    set is closed when every property of a reached entity's type is filed
    under its own name, is not kept in a pivot table, is settled on the
    entity, and leads to reached entities only. *)
Definition loaded_closed (metadata : MetadataStorage) (h : Heap)
    (reach : string -> EntId -> Prop) : Prop :=
  forall name e, reach name e ->
  forall meta field prop,
    find metadata name = Some meta ->
    dget (meta_properties meta) field = Some prop ->
    prop_name prop = field
    /\ on_pivot prop = false
    /\ settled h prop e = true
    /\ (forall items, slot_children h prop e field = Ok items ->
        forall t, In t items -> reach (prop_type prop) t).

(** The call leaves what the filters look at as it was, and records nothing. *)
Definition quiet (h0 : Heap) (w w' : World Heap) : Prop :=
  same_view h0 (heap w) -> same_view h0 (heap w') /\ trace w' = trace w.

(** A nested populate call that is quiet on reached entities. *)
Definition call_quiet (metadata : MetadataStorage) (h0 : Heap)
    (reach : string -> EntId -> Prop) (rec : PopulateCall Heap) : Prop :=
  forall entityName entities populateArg options,
    (forall e, In e entities -> reach entityName e) ->
    opt_refresh options <> Some true ->
    preserves (quiet h0) (rec entityName entities populateArg options).

(** A nested populate call that keeps to its own [where]. *)
Definition call_keeps (rec : PopulateCall Heap) : Prop :=
  forall entityName entities populateArg options r,
    opt_where options = Some r ->
    preserves (keeps_empty_where r) (rec entityName entities populateArg options).

(** The entity that a pivot row resolves to: created (or found) by the entity
    factory and registered with the unit of work, in some state of the graph. *)
Definition resolves (prop : EntityProperty) (options : EntityLoaderOptions)
    (row : Value) (item : EntId) : Prop :=
  exists h1 h2,
    item = fst (registerManaged C
                  (fst (factory_create C (prop_type prop) row (opt_refresh options)
                          (option_or (opt_schema options) (config_schema C)) h1))
                  row (opt_refresh options) h2).

End Loaded.

End LoaderSpec.

(** ** Notions used to state the laws of the normalizer *)

Module NormalizerLawsSpec.
Import Metadata Normalizer.

(** [p.field === f] *)
Definition same_field (f : string) (p : PopulateOptions) : bool := String.eqb (field p) f.

Definition has_children (p : PopulateOptions) : bool :=
  match children p with Some _ => true | None => false end.

Definition children_or_none (p : PopulateOptions) : list PopulateOptions :=
  match children p with Some c => c | None => [] end.

(** The children of all the nodes for field [f], in the order of the nodes;
    absent when none of these nodes has a [children] array. *)
Definition gathered_children (l : list PopulateOptions) (f : string)
  : option (list PopulateOptions) :=
  let group := filter (same_field f) l in
  if existsb has_children group then Some (concat (map children_or_none group)) else None.

(** The first node for field [f], carrying the children of all of them. *)
Definition merged_node (l : list PopulateOptions) (f : string) : option PopulateOptions :=
  match List.find (same_field f) l with
  | Some first => Some (set_children first (gathered_children l f))
  | None => None
  end.

(** The distinct names of a list, each at its first occurrence. *)
Fixpoint first_occurrences (l : list string) : list string :=
  match l with
  | [] => []
  | x :: r => x :: filter (fun y => negb (String.eqb x y)) (first_occurrences r)
  end.

(** The fields along a chain of single children, from the node down. *)
Fixpoint chain_fields (p : PopulateOptions) : list string :=
  field p ::
  match children p with
  | Some [c] => chain_fields c
  | _ => []
  end.

(** Every node of a chain of single children carries the strategy [s]. *)
Fixpoint chain_strategy (s : option LoadStrategy) (p : PopulateOptions) : Prop :=
  strategy p = s /\
  match children p with
  | Some [c] => chain_strategy s c
  | _ => True
  end.

(** The first segment of a dotted field. *)
Definition first_segment (p : PopulateOptions) : string :=
  match split_dot (field p) with
  | f :: _ => f
  | [] => field p
  end.

(** The field lies under the dotted prefix. *)
Definition under (prefix : string) (p : PopulateOptions) : Prop :=
  exists rest, field p = (prefix ++ "." ++ rest)%string.

End NormalizerLawsSpec.

(** ** Notions used to state the laws of the condition helpers *)

Module ConditionLawsSpec.
Import Metadata Conditions.

(** What the steps keep of the caller's [where]: every key but the field's
    own, and at the field's key the sub-condition object itself when that is
    the caller's object. *)
Definition where_kept (where_ : Condition) (propName : string) (st : ChildCondition) : Prop :=
  (forall k, k <> propName -> dget (where_after st) k = dget where_ k)
  /\ (aliased st = true -> dget (where_after st) propName = Some (VObj (subCond st)))
  /\ (aliased st = false -> where_after st = where_).

(** Every operator key still at the top of the sub-condition is among those
    left to move, and the keys are distinct. *)
Definition operators_within (isOperator : string -> bool -> bool) (ops : list string)
    (st : ChildCondition) : Prop :=
  NoDup (dkeys (subCond st))
  /\ forall k, In k (dkeys (subCond st)) -> isOperator k false = true -> In k ops.

End ConditionLawsSpec.

(** ** Notions used to state the laws of the loader *)

Module LoaderLawsSpec.
Import Metadata Normalizer Conditions Loader.

Section Notions.

Variable Heap : Type.
Variable C : Collaborators Heap.
Variable metadata : MetadataStorage.

(** The child's inverse property points back to the parent: by primary key
    when the inverse property is mapped to the key, by identity otherwise
    (lines 219-225). *)
Definition points_back (h : Heap) (prop : EntityProperty) (parent child : EntId) : bool :=
  match find metadata (prop_type prop) with
  | Some targetMeta =>
      match dget (meta_properties targetMeta) (prop_mappedBy prop) with
      | Some mapped =>
          if prop_mapToPk mapped
          then match slot C h child (prop_mappedBy prop) with
               | SValue v => strict_eqb v (helper_getPrimaryKey C h parent)
               | SUndefined => strict_eqb VUndefined (helper_getPrimaryKey C h parent)
               | _ => false
               end
          else match slot C h child (prop_mappedBy prop) with
               | SEntity t | SReference t => Nat.eqb t parent
               | _ => false
               end
      | None => false
      end
  | None => false
  end.

(** The child's inverse collection contains the parent (line 233). *)
Definition holds_parent (h : Heap) (prop : EntityProperty) (parent child : EntId) : bool :=
  coll_contains C h child (prop_mappedBy prop) parent.

(** One hydrate call per parent, in the order of the parents. *)
Definition hydrations (field : string) (forcePropagate : bool) (parents : list EntId)
    (perParent : list (list EntId)) : list Event :=
  map (fun p => EvHydrate (fst p) field (snd p) forcePropagate) (combine parents perParent).

(** The key batch of a pivot fetch (lines 331, 341-343). *)
Definition pivot_keys (h : Heap) (prop : EntityProperty) (filtered : list EntId) : list Value :=
  let ids := map (helper_primaryKeys C h) filtered in
  if prop_customType prop then map (processCustomType C prop) ids else ids.

(** The entities with no value yet for a lazy scalar (line 156). *)
Definition lazy_missing (h : Heap) (prop : EntityProperty) (refresh : bool)
    (entities : list EntId) : list EntId :=
  filter (fun e => refresh || match slot C h e (prop_name prop) with
                              | SUndefined => true
                              | _ => false
                              end) entities.

End Notions.

End LoaderLawsSpec.

(** * Sample registries *)

Module Fixtures.
Import Metadata Normalizer.

Definition relation (name type : string) (kind : ReferenceType)
    (strategy : option LoadStrategy) (eager : bool) : EntityProperty :=
  mkProp name type kind true "" strategy eager false None false false None.

(** A self-referencing type: [Node.parent : Node], eager. *)
Definition node_parent : EntityProperty := relation "parent" "Node" MANY_TO_ONE None true.

Definition self_registry : MetadataStorage :=
  [("Node", mkMeta "Node" "Node" ["id"] [("parent", node_parent)] [node_parent])].

(** A two-type cycle of eager relations: [Author.book : Book], [Book.author : Author]. *)
Definition author_book : EntityProperty := relation "book" "Book" ONE_TO_ONE None true.
Definition book_author : EntityProperty := relation "author" "Author" ONE_TO_ONE None true.

Definition cycle_registry : MetadataStorage :=
  [("Author", mkMeta "Author" "Author" ["id"] [("book", author_book)] [author_book]);
   ("Book", mkMeta "Book" "Book" ["id"] [("author", book_author)] [book_author])].

(** [E.a : A] with a declared JOINED strategy, [A.b : B]. *)
Definition E_a : EntityProperty := relation "a" "A" MANY_TO_ONE (Some JOINED) false.
Definition A_b : EntityProperty := relation "b" "B" MANY_TO_ONE None false.

Definition joined_registry : MetadataStorage :=
  [("E", mkMeta "E" "E" ["id"] [("a", E_a)] [E_a]);
   ("A", mkMeta "A" "A" ["id"] [("b", A_b)] [A_b]);
   ("B", mkMeta "B" "B" ["id"] [] [])].

(** The same shape with no declared strategy. *)
Definition E_a_plain : EntityProperty := relation "a" "A" MANY_TO_ONE None false.

Definition plain_registry : MetadataStorage :=
  [("E", mkMeta "E" "E" ["id"] [("a", E_a_plain)] [E_a_plain]);
   ("A", mkMeta "A" "A" ["id"] [("b", A_b)] [A_b]);
   ("B", mkMeta "B" "B" ["id"] [] [])].

End Fixtures.

(** * A sample entity graph with in-memory collaborators *)

Module MemoryFixture.
Import Metadata Normalizer Conditions Loader.

(** What an entity's property holds. *)
Inductive Stored : Type :=
| StValue (v : Value)
| StEntity (target : EntId)
| StReference (target : EntId)
| StCollection (items : list EntId) (initialized : bool)
| StEmbedded (objects : list EntId).

Record EntityRec : Type := mkEntity {
  er_type : string;
  er_pk : Z;
  er_key : string;            (* serialized primary key *)
  er_helper : bool;           (* decorated with [__helper] *)
  er_initialized : bool;
  er_slots : Dictionary Stored
}.

Definition Graph : Type := list EntityRec.

Definition stored (g : Graph) (e : EntId) (f : string) : option Stored :=
  match nth_error g e with
  | Some r => dget (er_slots r) f
  | None => None
  end.

Definition graph_slot (g : Graph) (e : EntId) (f : string) : SlotValue :=
  match stored g e f with
  | Some (StValue v) => SValue v
  | Some (StEntity t) => SEntity t
  | Some (StReference t) => SReference t
  | Some (StCollection _ _) => SCollection
  | Some (StEmbedded l) => SEmbedded l
  | None => SUndefined
  end.

Definition initialized (g : Graph) (e : EntId) : bool :=
  match nth_error g e with Some r => er_initialized r | None => false end.

Definition pk_of (g : Graph) (e : EntId) : Value :=
  match nth_error g e with Some r => VNum (er_pk r) | None => VUndefined end.

Definition set_slot (g : Graph) (e : EntId) (f : string) (s : Stored) : Graph :=
  match nth_error g e with
  | Some r => list_set g e (mkEntity (er_type r) (er_pk r) (er_key r) (er_helper r)
                              (er_initialized r) (dset (er_slots r) f s))
  | None => g
  end.

(** The entity of the given type and key, if the graph has one. *)
Fixpoint lookup_entity (g : Graph) (type : string) (pk : Z) (i : nat) : option EntId :=
  match g with
  | [] => None
  | r :: rest =>
      if String.eqb (er_type r) type && Z.eqb (er_pk r) pk then Some i
      else lookup_entity rest type pk (S i)
  end.

(** The entity factory with merge semantics: the known instance for the row's
    key, or a new managed one. *)
Definition create (type : string) (row : Value) (g : Graph) : EntId * Graph :=
  match row with
  | VObj o =>
      match dread o "id" with
      | VNum pk =>
          match lookup_entity g type pk 0 with
          | Some e => (e, g)
          | None => (length g, g ++ [mkEntity type pk "" true true []])
          end
      | _ => (length g, g ++ [mkEntity type 0 "" true true []])
      end
  | _ => (length g, g ++ [mkEntity type 0 "" true true []])
  end.

Definition queryOperators : list string :=
  ["$eq"; "$in"; "$nin"; "$gt"; "$gte"; "$lt"; "$lte"; "$ne"; "$not"; "$like"; "$re";
   "$fulltext"; "$exists"; "$ilike"; "$overlap"; "$contains"; "$contained"].

(** Collaborators over a graph: a store whose [em.find] finds nothing and
    whose pivot fetch answers from a fixed table. *)
Definition memory (metadata : MetadataStorage) (pivot : bool)
    (table : Dictionary (list Value)) : Collaborators Graph :=
  mkCollaborators
    (* canPopulate *)
    (fun entityName f =>
       match find metadata entityName with
       | Some meta => match dget (meta_properties meta) f with Some _ => true | None => false end
       | None => true
       end)
    (* em_find *) (fun _ _ _ g => (Ok [], g))
    (* applyFilters *) (fun _ cond _ => Ok cond)
    (* factory_create *) (fun type row _ _ g => create type row g)
    (* registerManaged *) (fun e _ _ g => (e, g))
    (* config *) false None
    (* loadFromPivotTable *) (fun _ _ _ _ _ g => (Ok table, g))
    pivot
    (* processWhere, processCustomType *) (fun _ _ cond => cond) (fun _ v => v)
    (* isOperator *)
    (fun key group => existsb (String.eqb key) queryOperators ||
                      (group && existsb (String.eqb key) ["$and"; "$or"]))
    (* isPrimaryKey *) (fun v => match v with VNum _ | VStr _ => true | _ => false end)
    (* getPrimaryKeyHash *) (fun pks => match pks with [p] => p | _ => "" end)
    (* getPrimaryKeyValues *) (fun g e _ => pk_of g e)
    graph_slot
    (* has_helper *)
    (fun g e => match nth_error g e with Some r => er_helper r | None => false end)
    initialized
    (* helper_schema *) (fun _ _ => None)
    (* helper_primaryKeys, getPrimaryKey *) (fun g e => VArr [pk_of g e]) pk_of
    (* getSerializedPrimaryKey *)
    (fun g e => match nth_error g e with Some r => er_key r | None => "" end)
    (* helper_populated, init_serialization_populate *) (fun _ g => g) (fun _ _ g => g)
    (* entity_primaryKeys *) (fun _ _ => ["id"])
    (* coll_isInitialized *)
    (fun g e f fully =>
       match stored g e f with
       | Some (StCollection items init) =>
           init && (negb fully || forallb (initialized g) items)
       | _ => false
       end)
    (* coll_getItems *)
    (fun g e f => match stored g e f with
                  | Some (StCollection items _) => Ok items
                  | _ => Throw (TypeError "getItems is not a function")
                  end)
    (* coll_owner *) (fun _ e _ => e)
    (* coll_contains *)
    (fun g e f x => match stored g e f with
                    | Some (StCollection items _) => existsb (Nat.eqb x) items
                    | _ => false
                    end)
    (* coll_populated *) (fun _ _ g => g)
    (* coll_hydrate *) (fun e f items _ g => set_slot g e f (StCollection items true)).

(** The schema of the test for issue 3177: a user has an access profile, an
    access profile has permissions through a pivot table. *)
Definition accessProfile_prop : EntityProperty :=
  mkProp "accessProfile" "UserAccessProfile" MANY_TO_ONE true "" None false false None
    false false None.
Definition permissions_prop : EntityProperty :=
  mkProp "permissions" "Permission" MANY_TO_MANY true "" None false false None
    false false None.
Definition id_prop : EntityProperty :=
  mkProp "id" "number" SCALAR false "" None false false None false false None.

Definition registry : MetadataStorage :=
  [("User", mkMeta "User" "User" ["id"]
              [("id", id_prop); ("accessProfile", accessProfile_prop)] [accessProfile_prop]);
   ("UserAccessProfile", mkMeta "UserAccessProfile" "UserAccessProfile" ["id"]
              [("id", id_prop); ("permissions", permissions_prop)] [permissions_prop]);
   ("Permission", mkMeta "Permission" "Permission" ["id"] [("id", id_prop)] [])].

(** Entity 0 is access profile 1 with its permissions not loaded; entities 1 to
    3 are permissions 1 to 3; entity 4 is user 1 holding a reference to its
    profile. *)
Definition graph (permissions_loaded : bool) : Graph :=
  [mkEntity "UserAccessProfile" 1 "1" true true
     [("permissions", StCollection (if permissions_loaded then [3; 1; 2] else [])
                        permissions_loaded)];
   mkEntity "Permission" 1 "1" true true [];
   mkEntity "Permission" 2 "2" true true [];
   mkEntity "Permission" 3 "3" true true [];
   mkEntity "User" 1 "1" true true [("accessProfile", StReference 0)]].

(** The pivot fetch returns, for profile 1, permissions 3, 1, 2 in this order. *)
Definition pivot_rows : Dictionary (list Value) :=
  [("1", [VObj [("id", VNum 3)]; VObj [("id", VNum 1)]; VObj [("id", VNum 2)]])].

Definition store : Collaborators Graph := memory registry true pivot_rows.

Definition no_options : EntityLoaderOptions :=
  mkOptions None None None None None None None None None None None None None None.

(** Options as [populate] leaves them after its defaults, with [where] the
    empty object at index 0 of the store of condition objects. *)
Definition default_options : EntityLoaderOptions :=
  mkOptions (Some (mkWhereRef 0 [])) None None (Some (VObj [])) (Some false) (Some true)
    (Some true) (Some true) None (Some (VObj [])) None None None None.

Definition world (permissions_loaded : bool) : World Graph :=
  mkWorld (graph permissions_loaded) [[]] [].

Definition empty_world (permissions_loaded : bool) : World Graph :=
  mkWorld (graph permissions_loaded) [] [].

(** The same schema on a store that keeps many-to-many relations without a
    pivot table, and the entities that a call on user 1 reaches, by type. *)
Definition plain_store : Collaborators Graph := memory registry false pivot_rows.

Definition sample_reach (name : string) (e : EntId) : Prop :=
  In (name, e) [("User", 4); ("UserAccessProfile", 0);
                ("Permission", 1); ("Permission", 2); ("Permission", 3)].

End MemoryFixture.

(** * A second sample graph: authors, their books, and a lazy scalar *)

Module LibraryFixture.
Import Metadata Normalizer Conditions Loader MemoryFixture.

Definition author_books : EntityProperty :=
  mkProp "books" "Book" ONE_TO_MANY false "author" None false false None false false None.
Definition book_author : EntityProperty :=
  mkProp "author" "Author" MANY_TO_ONE true "" None false false None false false None.
Definition book_perex : EntityProperty :=
  mkProp "perex" "string" SCALAR false "" None false true None false false None.

Definition library : MetadataStorage :=
  [("Author", mkMeta "Author" "Author" ["id"]
                [("id", id_prop); ("books", author_books)] [author_books]);
   ("Book", mkMeta "Book" "Book" ["id"]
              [("id", id_prop); ("author", book_author); ("perex", book_perex)]
              [book_author])].

(** Entity 0 is author 1, known by reference only, with its books not loaded;
    entities 1 and 2 are books 1 and 2 of that author; book 1 has no perex
    loaded, book 2 has. *)
Definition shelf : Graph :=
  [mkEntity "Author" 1 "1" true false [("books", StCollection [] false)];
   mkEntity "Book" 1 "1" true true [("author", StEntity 0)];
   mkEntity "Book" 2 "2" true true [("author", StEntity 0); ("perex", StValue (VStr "p"))]].

Definition librarian : Collaborators Graph := memory library false [].

Definition reading_room : World Graph := mkWorld shelf [[]] [].

(** A store whose pivot fetch returns no rows at all. *)
Definition bare_store : Collaborators Graph := memory registry true [].

End LibraryFixture.
(** * Properties *)

(** ** Dictionaries *)

Section DictionaryFacts.
Context {V : Type}.
Implicit Types (d : Dictionary V) (k : string) (v : V).

Lemma dget_dset_eq d k v : dget (dset d k v) k = Some v.
Proof.
  induction d as [|[k' v'] d IH]; simpl.
  - now rewrite String.eqb_refl.
  - destruct (String.eqb k' k) eqn:E; simpl; rewrite E; auto.
Qed.

Lemma dget_dset_ne d k k' v : k <> k' -> dget (dset d k v) k' = dget d k'.
Proof.
  intros Hne. induction d as [|[k0 v0] d IH]; simpl.
  - destruct (String.eqb k k') eqn:E; auto.
    apply String.eqb_eq in E. contradiction.
  - destruct (String.eqb k0 k) eqn:E; simpl.
    + apply String.eqb_eq in E. subst k0.
      destruct (String.eqb k k') eqn:E'; auto.
      apply String.eqb_eq in E'. contradiction.
    + now rewrite IH.
Qed.

Lemma dget_Some_In d k v : dget d k = Some v -> In k (dkeys d).
Proof.
  induction d as [|[k' v'] d IH]; simpl; [discriminate|].
  destruct (String.eqb k' k) eqn:E.
  - apply String.eqb_eq in E. auto.
  - auto.
Qed.

Lemma dget_None_not_In d k : dget d k = None -> ~ In k (dkeys d).
Proof.
  induction d as [|[k' v'] d IH]; simpl; [tauto|].
  destruct (String.eqb k' k) eqn:E; [discriminate|].
  apply String.eqb_neq in E. intros H [H'|H']; [contradiction|]. now apply IH.
Qed.

Lemma dget_In d k v : dget d k = Some v -> In (k, v) d.
Proof.
  induction d as [|[k' v'] d IH]; simpl; [discriminate|].
  destruct (String.eqb k' k) eqn:E.
  - apply String.eqb_eq in E. intros [= ->]. subst. auto.
  - auto.
Qed.

(** Writing to an absent key appends; writing to a present one keeps the keys. *)
Lemma dset_absent d k v : dget d k = None -> dset d k v = d ++ [(k, v)].
Proof.
  induction d as [|[k' v'] d IH]; simpl; auto.
  destruct (String.eqb k' k); [discriminate|]. intros H. now rewrite IH.
Qed.

Lemma dkeys_dset_present d k v v0 : dget d k = Some v0 -> dkeys (dset d k v) = dkeys d.
Proof.
  induction d as [|[k' v'] d IH]; simpl; [discriminate|].
  destruct (String.eqb k' k) eqn:E; simpl; auto.
  intros H. now rewrite IH.
Qed.

Lemma In_dset d k v k1 v1 :
  In (k1, v1) (dset d k v) -> (k1 = k /\ v1 = v) \/ In (k1, v1) d.
Proof.
  induction d as [|[k' v'] d IH]; simpl.
  - intros [[= <- <-]|[]]. auto.
  - destruct (String.eqb k' k) eqn:E; simpl.
    + apply String.eqb_eq in E. subst. intros [[= <- <-]|H]; auto.
    + intros [H|H]; auto. destruct (IH H); auto.
Qed.
End DictionaryFacts.

(** ** mergeNestedPopulate: the recursion equation and unique sibling fields *)

Module MergeFacts.
Import Metadata Normalizer NormalizerSpec.

Lemma depth_eq p :
  depth p = match children p with None => 0 | Some l => S (depths l) end.
Proof.
  destruct p as [f s [l|] a]; reflexivity.
Qed.

Lemma depths_app l1 l2 : depths (l1 ++ l2) = Nat.max (depths l1) (depths l2).
Proof.
  induction l1 as [|c r IH]; simpl; auto.
  rewrite IH. now rewrite Nat.max_assoc.
Qed.

Lemma depths_In p l : In p l -> depth p <= depths l.
Proof.
  induction l as [|c r IH]; simpl; [tauto|].
  intros [->|H]; [lia|]. specialize (IH H). lia.
Qed.

Lemma depths_bound l n : (forall p, In p l -> depth p <= n) -> depths l <= n.
Proof.
  induction l as [|c r IH]; simpl; intros H; [lia|].
  apply Nat.max_lub; auto.
Qed.


Lemma keyed_dset_absent ret item :
  keyed ret -> dget ret (field item) = None -> keyed (dset ret (field item) item).
Proof.
  intros [Hnd Hk] Hnone. rewrite (dset_absent _ _ _ Hnone). split.
  - unfold dkeys. rewrite map_app. simpl.
    apply NoDup_app; auto.
    + constructor; [simpl; tauto|constructor].
    + intros a Ha [<-|[]]. now apply (dget_None_not_In _ _ Hnone).
  - intros k v H. apply in_app_or in H. destruct H as [H|[[= <- <-]|[]]]; auto.
Qed.

Lemma keyed_dset_present ret k v v0 :
  keyed ret -> dget ret k = Some v0 -> field v = k -> keyed (dset ret k v).
Proof.
  intros [Hnd Hk] Hsome Hf. split.
  - now rewrite (dkeys_dset_present _ _ _ Hsome).
  - intros k1 v1 H. apply In_dset in H. destruct H as [[-> ->]|H]; auto.
Qed.

Lemma keyed_merge_item ret item : keyed ret -> keyed (merge_item ret item).
Proof.
  intros H. unfold merge_item.
  destruct (dget ret (field item)) as [first|] eqn:E.
  - assert (Hf : field first = field item).
    { destruct H as [_ Hk]. apply Hk. now apply dget_In. }
    destruct (children first), (children item); auto;
      eapply keyed_dset_present; eauto.
  - now apply keyed_dset_absent.
Qed.

Lemma keyed_fold l ret : keyed ret -> keyed (fold_left merge_item l ret).
Proof.
  revert ret. induction l as [|item l IH]; simpl; auto.
  intros ret H. apply IH. now apply keyed_merge_item.
Qed.

Lemma keyed_merge_reduce l : keyed (merge_reduce l).
Proof.
  apply keyed_fold. split; [constructor|intros k v []].
Qed.

Lemma fields_merge_reduce l :
  map field (dvalues (merge_reduce l)) = dkeys (merge_reduce l).
Proof.
  destruct (keyed_merge_reduce l) as [_ Hk]. unfold dvalues, dkeys.
  rewrite map_map. apply map_ext_in. intros [k v] H. simpl. auto.
Qed.

(** The reduce never deepens the forest. *)
Lemma depth_values_merge_item ret item n :
  (forall v, In v (dvalues ret) -> depth v <= n) -> depth item <= n ->
  forall v, In v (dvalues (merge_item ret item)) -> depth v <= n.
Proof.
  intros Hret Hitem v Hv. unfold merge_item in Hv.
  assert (Hset : forall x, depth x <= n ->
            In v (dvalues (dset ret (field item) x)) -> depth v <= n).
  { intros x Hx Hin. unfold dvalues in Hin. apply in_map_iff in Hin.
    destruct Hin as [[k v'] [Hs Hin]]. simpl in Hs. subst v'.
    apply In_dset in Hin. destruct Hin as [[_ ->]|Hin]; auto.
    apply Hret. unfold dvalues. apply in_map_iff. now exists (k, v). }
  destruct (dget ret (field item)) as [first|] eqn:E.
  - assert (Hfirst : depth first <= n).
    { apply Hret. unfold dvalues. apply in_map_iff.
      exists (field item, first). split; auto. now apply dget_In. }
    rewrite depth_eq in Hfirst, Hitem.
    destruct (children first) as [cf|] eqn:Ef, (children item) as [ci|] eqn:Ei; auto;
      apply Hset in Hv; auto; rewrite depth_eq; simpl; auto.
    rewrite depths_app. lia.
  - apply Hset in Hv; auto.
Qed.

Lemma depth_values_fold l ret n :
  (forall v, In v (dvalues ret) -> depth v <= n) -> depths l <= n ->
  forall v, In v (dvalues (fold_left merge_item l ret)) -> depth v <= n.
Proof.
  revert ret. induction l as [|item l IH]; simpl; auto.
  intros ret Hret Hl. apply IH; [|lia].
  apply depth_values_merge_item; auto. lia.
Qed.

Lemma depth_values_merge_reduce l v :
  In v (dvalues (merge_reduce l)) -> depth v <= depths l.
Proof.
  apply depth_values_fold; auto. intros v' [].
Qed.

(** Any budget of at least the nesting depth gives the same result. *)
Lemma mergeNestedPopulate_rec_enough n m l :
  depths l <= n -> depths l <= m ->
  mergeNestedPopulate_rec n l = mergeNestedPopulate_rec m l.
Proof.
  revert m l. induction n as [|n IH]; intros [|m] l Hn Hm; simpl; auto.
  - symmetry. rewrite <- (map_id (dvalues (merge_reduce l))) at 2.
    apply map_ext_in. intros v Hv. apply depth_values_merge_reduce in Hv.
    rewrite depth_eq in Hv. destruct (children v); auto. lia.
  - rewrite <- (map_id (dvalues (merge_reduce l))) at 2.
    apply map_ext_in. intros v Hv. apply depth_values_merge_reduce in Hv.
    rewrite depth_eq in Hv. destruct (children v); auto. lia.
  - apply map_ext_in. intros v Hv. apply depth_values_merge_reduce in Hv.
    rewrite depth_eq in Hv. destruct (children v) as [c|]; auto.
    f_equal. f_equal. apply IH; lia.
Qed.

(** The recursion equation of the source: group by field, then merge the
    children of every group. *)
Lemma mergeNestedPopulate_eq l :
  mergeNestedPopulate l =
  map (fun item =>
         match children item with
         | Some c => set_children item (Some (mergeNestedPopulate c))
         | None => item
         end)
      (dvalues (merge_reduce l)).
Proof.
  unfold mergeNestedPopulate at 1.
  rewrite (mergeNestedPopulate_rec_enough (n := depths l) (m := S (depths l))); auto.
  simpl. apply map_ext_in. intros v Hv. apply depth_values_merge_reduce in Hv.
  rewrite depth_eq in Hv. destruct (children v) as [c|]; auto.
  f_equal. f_equal. unfold mergeNestedPopulate.
  apply mergeNestedPopulate_rec_enough; lia.
Qed.


Lemma mergeNestedPopulate_unique_fields l : unique_fields (mergeNestedPopulate l).
Proof.
  remember (depths l) as n eqn:Hn.
  assert (Hle : depths l <= n) by lia. clear Hn.
  revert l Hle. induction n as [|n IH]; intros l Hle;
    rewrite mergeNestedPopulate_eq; constructor.
  - rewrite map_map.
    rewrite (map_ext _ field); [|intros v; destruct (children v); auto].
    rewrite fields_merge_reduce. apply keyed_merge_reduce.
  - intros p c Hp Hc. apply in_map_iff in Hp. destruct Hp as [v [Hv Hin]].
    apply depth_values_merge_reduce in Hin. rewrite depth_eq in Hin.
    destruct (children v) eqn:Ecv; [lia|]. subst p. congruence.
  - rewrite map_map.
    rewrite (map_ext _ field); [|intros v; destruct (children v); auto].
    rewrite fields_merge_reduce. apply keyed_merge_reduce.
  - intros p c Hp Hc. apply in_map_iff in Hp. destruct Hp as [v [Hv Hin]].
    apply depth_values_merge_reduce in Hin. rewrite depth_eq in Hin.
    destruct (children v) as [cv|] eqn:Ecv.
    + subst p. simpl in Hc. injection Hc as <-. apply IH. lia.
    + subst p. congruence.
Qed.

End MergeFacts.

(** ** lookupEagerLoadedRelationships: budget and cycles *)

Module EagerFacts.
Import Metadata Normalizer NormalizerSpec.

Lemma ofold_not_OutOfFuel {A B} (f : B -> A -> Outcome B) l acc :
  (forall acc x, In x l -> f acc x <> OutOfFuel) -> ofold f l acc <> OutOfFuel.
Proof.
  revert acc. induction l as [|x l IH]; simpl; intros acc H; [discriminate|].
  destruct (f acc x) eqn:E; simpl.
  - apply IH. intros; apply H; auto.
  - discriminate.
  - exfalso. eapply H; eauto.
Qed.

Lemma ofold_ext_ok {A B} (f g : B -> A -> Outcome B) l acc :
  (forall acc x, In x l -> f acc x <> OutOfFuel -> g acc x = f acc x) ->
  ofold f l acc <> OutOfFuel -> ofold g l acc = ofold f l acc.
Proof.
  revert acc. induction l as [|x l IH]; simpl; intros acc H Hne; auto.
  assert (Hx : f acc x <> OutOfFuel).
  { intros E. rewrite E in Hne. simpl in Hne. congruence. }
  rewrite (H acc x (or_introl eq_refl) Hx).
  destruct (f acc x) eqn:E; simpl in *; auto.
Qed.

Lemma includes_In visited n : includes visited n = true <-> In n visited.
Proof.
  unfold includes. rewrite existsb_exists. split.
  - intros [x [Hin Heq]]. apply String.eqb_eq in Heq. now subst.
  - intros H. exists n. split; auto. apply String.eqb_refl.
Qed.

(** A type already on the current path is not expanded: the populate list comes
    back as it was given, whatever the budget. *)
Lemma lookupEager_visited fuel metadata entityName populate strategy prefix visited :
  In entityName visited ->
  lookupEagerLoadedRelationships fuel metadata entityName populate strategy prefix visited
  = Ok populate.
Proof.
  intros H. apply includes_In in H.
  destruct fuel; simpl; destruct (find metadata entityName); rewrite ?H; auto.
Qed.

(** One expanding level, spelled out. *)
Lemma lookupEager_S fuel metadata entityName populate strategy prefix visited meta :
  find metadata entityName = Some meta ->
  includes visited entityName = false ->
  lookupEagerLoadedRelationships (S fuel) metadata entityName populate strategy prefix visited
  = ofold (fun ret prop =>
             let? field := getRelationName meta prop in
             let prefixed := if String.eqb prefix "" then field
                             else (prefix ++ "." ++ field)%string in
             let nestedPopulate := nested_of populate (prop_name prop) in
             let? nested := lookupEagerLoadedRelationships fuel metadata
                              (prop_type prop) nestedPopulate strategy prefixed
                              (visited ++ [entityName]) in
             match nested with
             | _ :: _ => Ok (ret ++ nested)
             | [] =>
                 let s := match strategy with
                          | Some s => Some s
                          | None => prop_strategy prop
                          end in
                 Ok (ret ++ [mkPopulate prefixed s None None])
             end)
          (filter (fun prop => prop_eager prop || requested populate (prop_name prop))
                  (meta_relations meta))
          (if String.eqb prefix "" then populate else []).
Proof.
  intros H1 H2. simpl. now rewrite H1, H2.
Qed.

(** More budget never changes a result that was reached. *)
Lemma lookupEager_mono n metadata :
  forall m entityName populate strategy prefix visited,
    n <= m ->
    lookupEagerLoadedRelationships n metadata entityName populate strategy prefix visited
      <> OutOfFuel ->
    lookupEagerLoadedRelationships m metadata entityName populate strategy prefix visited
    = lookupEagerLoadedRelationships n metadata entityName populate strategy prefix visited.
Proof.
  induction n as [|n IH]; intros m entityName populate strategy prefix visited Hle Hne.
  - destruct m; simpl in *; auto.
    destruct (find metadata entityName); auto.
    destruct (includes visited entityName); auto. congruence.
  - destruct m as [|m]; [lia|]. simpl in *.
    destruct (find metadata entityName) as [meta|]; auto.
    destruct (includes visited entityName); auto.
    apply ofold_ext_ok; auto.
    intros acc prop _ Hx.
    destruct (getRelationName meta prop) as [f| |]; simpl in *; auto.
    rewrite IH; auto; [lia|].
    intros E. rewrite E in Hx. simpl in Hx. congruence.
Qed.


Lemma lookupEager_budget fuel metadata :
  relation_names_resolvable metadata ->
  forall entityName populate strategy prefix visited,
    NoDup visited -> incl visited (dkeys metadata) ->
    length metadata <= fuel + length visited ->
    lookupEagerLoadedRelationships fuel metadata entityName populate strategy prefix visited
    <> OutOfFuel.
Proof.
  intros Hres. induction fuel as [|fuel IH];
    intros entityName populate strategy prefix visited Hnd Hincl Hlen; simpl;
    destruct (find metadata entityName) as [meta|] eqn:Ef; try discriminate;
    destruct (includes visited entityName) eqn:Ev; try discriminate.
  - exfalso.
    assert (Hnv : ~ In entityName visited).
    { intros H. apply includes_In in H. congruence. }
    assert (Hl : length (entityName :: visited) <= length (dkeys metadata)).
    { apply NoDup_incl_length; [now constructor|].
      intros x [<-|Hx]; auto. eapply dget_Some_In; eauto. }
    unfold dkeys in Hl. rewrite length_map in Hl. simpl in *. lia.
  - assert (Hnv : ~ In entityName visited).
    { intros H. apply includes_In in H. congruence. }
    apply ofold_not_OutOfFuel. intros acc prop Hin.
    apply filter_In in Hin. destruct Hin as [Hin _].
    pose proof (Hres entityName meta prop (dget_In _ _ Ef) Hin) as Hn.
    destruct (getRelationName meta prop) as [f| |]; simpl; try congruence.
    match goal with |- context [lookupEagerLoadedRelationships fuel ?a ?b ?c ?d ?e ?v] =>
      pose proof (IH b c d e v) as Hrec end.
    match type of Hrec with ?P -> ?Q -> ?R -> _ =>
      assert (H1 : P); [|assert (H2 : Q); [|assert (H3 : R)]] end.
    + apply NoDup_app; [auto|constructor; [simpl; tauto|constructor]|].
      intros a Ha [<-|[]]. contradiction.
    + intros x Hx. apply in_app_or in Hx. destruct Hx as [Hx|[<-|[]]]; auto.
      eapply dget_Some_In; eauto.
    + rewrite length_app. simpl. lia.
    + specialize (Hrec H1 H2 H3).
      destruct (lookupEagerLoadedRelationships fuel metadata (prop_type prop) _ _ _ _)
        as [[|x nested]| |]; simpl; congruence.
Qed.

(** *** Depth of the generated paths *)

Lemma split_dot_nonempty s : split_dot s <> [].
Proof.
  destruct s as [|c r]; simpl; [discriminate|].
  destruct (is_dot c); [discriminate|]. destruct (split_dot r); discriminate.
Qed.

Lemma split_dot_app a b :
  split_dot (a ++ "." ++ b)%string = split_dot a ++ split_dot b.
Proof.
  change ("." ++ b)%string with (String "."%char b).
  induction a as [|c r IH]; simpl; auto.
  rewrite IH. destruct (is_dot c); auto.
  pose proof (split_dot_nonempty r). destruct (split_dot r); [congruence|]. auto.
Qed.

Lemma split_dot_plain n : includes_dot n = false -> split_dot n = [n].
Proof.
  induction n as [|c r IH]; simpl; auto.
  intros H. apply orb_false_iff in H. destruct H as [Hc Hr].
  rewrite Hc, (IH Hr). auto.
Qed.

Lemma ofold_invariant {A B} (P : B -> Prop) (f : B -> A -> Outcome B) l :
  (forall acc x acc', In x l -> P acc -> f acc x = Ok acc' -> P acc') ->
  forall acc r, P acc -> ofold f l acc = Ok r -> P r.
Proof.
  induction l as [|x l IH]; simpl; intros H acc r Hacc Hr.
  - now injection Hr as <-.
  - destruct (f acc x) as [acc'| |] eqn:E; simpl in Hr; try discriminate.
    apply (IH (fun a y a' Hy => H a y a' (or_intror Hy)) acc' r); auto.
    apply (H acc x acc'); auto.
Qed.



(** Every path the lookup adds has at most one segment per registered type:
    along one path no type is entered twice. *)
Lemma lookupEager_depth fuel metadata :
  plain_relation_names metadata ->
  forall entityName populate strategy prefix visited r,
    (forall n, nested_of populate n = []) ->
    NoDup visited -> incl visited (dkeys metadata) ->
    (prefix = "" /\ visited = []) \/ (prefix <> "" /\ segments prefix = length visited) ->
    lookupEagerLoadedRelationships fuel metadata entityName populate strategy prefix visited
    = Ok r ->
    forall p, In p r -> In p populate \/ segments (field p) <= length metadata.
Proof.
  intros Hplain. induction fuel as [|fuel IH];
    intros entityName populate strategy prefix visited r Hnested Hnd Hincl Hpre; simpl;
    destruct (find metadata entityName) as [meta|] eqn:Ef;
    try (intros [= <-]; auto; fail);
    destruct (includes visited entityName) eqn:Ev;
    try (intros [= <-]; auto; fail); try discriminate.
  assert (Hnv : ~ In entityName visited).
  { intros H. apply includes_In in H. congruence. }
  assert (Hl : S (length visited) <= length metadata).
  { change (S (length visited)) with (length (entityName :: visited)).
    rewrite <- (length_map fst metadata).
    apply NoDup_incl_length; [now constructor|].
    intros x [<-|Hx]; auto. eapply dget_Some_In; eauto. }
  intros Hr.
  eapply (ofold_invariant
            (fun acc => forall p, In p acc ->
                                  In p populate \/ segments (field p) <= length metadata));
    [ | | exact Hr].
  - intros acc prop acc' Hin Hacc.
    apply filter_In in Hin. destruct Hin as [Hin _].
    destruct (Hplain entityName meta prop (dget_In _ _ Ef) Hin) as [Hemb [Hdot Hname]].
    unfold getRelationName.
    replace (getRelationName_rec (length (meta_properties meta)) meta prop)
      with (Ok (A := string) (prop_name prop))
      by (destruct (length (meta_properties meta)); simpl; now rewrite Hemb).
    simpl. rewrite Hnested.
    set (prefixed := if String.eqb prefix "" then prop_name prop
                     else (prefix ++ String "."%char (prop_name prop))%string).
    assert (Hseg : segments prefixed = S (length visited)).
    { unfold prefixed, segments. destruct Hpre as [[-> ->]|[Hne Hs]].
      - simpl. now rewrite split_dot_plain.
      - destruct (String.eqb prefix "") eqn:E.
        + apply String.eqb_eq in E. contradiction.
        + change (String "."%char (prop_name prop)) with ("." ++ prop_name prop)%string.
          rewrite split_dot_app, length_app, (split_dot_plain _ Hdot).
          unfold segments in Hs. simpl. lia. }
    assert (Hpne : prefixed <> "").
    { unfold prefixed. destruct (String.eqb prefix "") eqn:E; auto.
      destruct prefix; simpl; [discriminate E|discriminate]. }
    destruct (lookupEagerLoadedRelationships fuel metadata (prop_type prop) [] strategy
                prefixed (visited ++ [entityName])) as [nested| |] eqn:En;
      simpl; try discriminate.
    assert (Hn : forall p, In p nested -> segments (field p) <= length metadata).
    { intros p Hp.
      assert (H1 : NoDup (visited ++ [entityName])).
      { apply NoDup_app; [auto|constructor; [simpl; tauto|constructor]|].
        intros a Ha [<-|[]]. contradiction. }
      assert (H2 : incl (visited ++ [entityName]) (dkeys metadata)).
      { intros x Hx. apply in_app_or in Hx. destruct Hx as [Hx|[<-|[]]]; auto.
        eapply dget_Some_In; eauto. }
      assert (H3 : segments prefixed = length (visited ++ [entityName])).
      { rewrite length_app. simpl. lia. }
      destruct (IH (prop_type prop) [] strategy prefixed (visited ++ [entityName]) nested
                  (fun _ => eq_refl) H1 H2 (or_intror (conj Hpne H3)) En p Hp) as [[]|H];
        auto. }
    destruct nested as [|x nested]; simpl; intros [= <-] p Hp;
      apply in_app_or in Hp; destruct Hp as [Hp|Hp]; auto.
    destruct Hp as [<-|[]]. simpl. right. lia.
  - intros p Hp. destruct (String.eqb prefix ""); auto. destruct Hp.
Qed.

End EagerFacts.

(** ** The loader: what each step does to the world *)

Module LoaderFacts.
Import Metadata Normalizer Conditions Loader LoaderSpec.

Create HintDb pres discriminated.

Section Combinators0.

Variable Heap : Type.
Variable C : Collaborators Heap.
Variable metadata : MetadataStorage.

#[local] Abbreviation M := (M Heap).
#[local] Abbreviation World := (World Heap).

#[export] Instance same_world_refl : Reflexive (@same_world Heap).
Proof. intros w. reflexivity. Qed.
#[export] Instance same_world_trans : Transitive (@same_world Heap).
Proof. intros a b c H1 H2. unfold same_world in *. congruence. Qed.
#[export] Instance same_conds_refl : Reflexive (@same_conds Heap).
Proof. intros w. reflexivity. Qed.
#[export] Instance same_conds_trans : Transitive (@same_conds Heap).
Proof. intros a b c H1 H2. unfold same_conds in *. congruence. Qed.
#[export] Instance same_heap_refl : Reflexive (@same_heap Heap).
Proof. intros w. reflexivity. Qed.
#[export] Instance same_heap_trans : Transitive (@same_heap Heap).
Proof. intros a b c H1 H2. unfold same_heap in *. congruence. Qed.
#[export] Instance same_trace_refl : Reflexive (@same_trace Heap).
Proof. intros w. reflexivity. Qed.
#[export] Instance same_trace_trans : Transitive (@same_trace Heap).
Proof. intros a b c H1 H2. unfold same_trace in *. congruence. Qed.

Lemma fetches_app t1 t2 : fetches (t1 ++ t2) = fetches t1 ++ fetches t2.
Proof. apply filter_app. Qed.

Lemma adds_fetches_refl n (w : World) : adds_fetches n w w.
Proof. exists []. rewrite app_nil_r. split; [reflexivity|simpl; lia]. Qed.

Lemma adds_fetches_trans n m (a b c : World) :
  adds_fetches n a b -> adds_fetches m b c -> adds_fetches (n + m) a c.
Proof.
  intros [e1 [H1 L1]] [e2 [H2 L2]]. exists (e1 ++ e2). split.
  - rewrite H2, H1. now rewrite app_assoc.
  - rewrite fetches_app, length_app. lia.
Qed.

Lemma adds_fetches_mono n m (a b : World) : n <= m -> adds_fetches n a b -> adds_fetches m a b.
Proof. intros Hle [e [H L]]. exists e. split; auto. lia. Qed.

#[export] Instance adds_fetches_Reflexive n : Reflexive (@adds_fetches Heap n).
Proof. intros w. apply adds_fetches_refl. Qed.
#[export] Instance no_fetch_trans : Transitive (@adds_fetches Heap 0).
Proof. intros a b c H1 H2. apply (adds_fetches_trans H1 H2). Qed.

(** *** The combinators *)

Section Combinators.
Variable R : World -> World -> Prop.
Context {Rrefl : Reflexive R} {Rtrans : Transitive R}.

Lemma preserves_ret {A} (a : A) : preserves R (ret (Heap := Heap) a).
Proof. intros w r w' [= <- <-]. reflexivity. Qed.

Lemma preserves_throw {A} e : preserves R (throw (Heap := Heap) (A := A) e).
Proof. intros w r w' [= <- <-]. reflexivity. Qed.

Lemma preserves_lift {A} (o : Outcome A) : preserves R (lift (Heap := Heap) o).
Proof. intros w r w' [= <- <-]. reflexivity. Qed.

Lemma preserves_required {A} (o : option A) msg : preserves R (required (Heap := Heap) o msg).
Proof. destruct o; [apply preserves_ret|apply preserves_throw]. Qed.

Lemma preserves_get_heap : preserves R (get_heap (Heap := Heap)).
Proof. intros w r w' [= <- <-]. reflexivity. Qed.

Lemma preserves_find_meta n : preserves R (find_meta (Heap := Heap) metadata n).
Proof. apply preserves_required. Qed.

Lemma preserves_property_of meta n : preserves R (property_of (Heap := Heap) meta n).
Proof. apply preserves_required. Qed.

Lemma preserves_bind {A B} (c : M A) (k : A -> M B) :
  preserves R c -> (forall a, preserves R (k a)) -> preserves R (bind c k).
Proof.
  intros Hc Hk w r w' H. unfold bind in H.
  destruct (c w) as [[a| |] w1] eqn:E.
  - transitivity w1; [eapply Hc; eauto|eapply Hk; eauto].
  - injection H as <- <-. eapply Hc; eauto.
  - injection H as <- <-. eapply Hc; eauto.
Qed.

Lemma preserves_for_each {A} (l : list A) (body : A -> M unit) :
  (forall x, In x l -> preserves R (body x)) -> preserves R (for_each l body).
Proof.
  induction l as [|x l IH]; simpl; intros H.
  - apply preserves_ret.
  - apply preserves_bind; [apply H; auto|]. intros _. apply IH. intros; apply H; auto.
Qed.

Lemma preserves_map_m {A B} (l : list A) (body : A -> M B) :
  (forall x, In x l -> preserves R (body x)) -> preserves R (map_m l body).
Proof.
  induction l as [|x l IH]; simpl; intros H.
  - apply preserves_ret.
  - apply preserves_bind; [apply H; auto|]. intros y.
    apply preserves_bind; [apply IH; intros; apply H; auto|].
    intros ys. apply preserves_ret.
Qed.

End Combinators.

(** A first step under one relation, the rest under another. *)
Lemma preserves_bind_then {A B} (R1 R2 R3 : World -> World -> Prop) (c : M A) (k : A -> M B) :
  (forall a b c, R1 a b -> R2 b c -> R3 a c) ->
  (forall a b, R1 a b -> R3 a b) ->
  preserves R1 c -> (forall a, preserves R2 (k a)) -> preserves R3 (bind c k).
Proof.
  intros Hcomp Hsub Hc Hk w r w' H. unfold bind in H.
  destruct (c w) as [[a| |] w1] eqn:E.
  - eapply Hcomp; [eapply Hc; eauto|eapply Hk; eauto].
  - injection H as <- <-. eapply Hsub, Hc; eauto.
  - injection H as <- <-. eapply Hsub, Hc; eauto.
Qed.

Lemma fetch_after_none (a b c : World) :
  adds_fetches 0 a b -> adds_fetches 1 b c -> adds_fetches 1 a c.
Proof. intros H1 H2. apply (adds_fetches_trans H1 H2). Qed.

Lemma none_after_fetch (a b c : World) :
  adds_fetches 1 a b -> adds_fetches 0 b c -> adds_fetches 1 a c.
Proof. intros H1 H2. apply (adds_fetches_trans H1 H2). Qed.

Lemma none_is_at_most_one (a b : World) : adds_fetches 0 a b -> adds_fetches 1 a b.
Proof. apply adds_fetches_mono. lia. Qed.

End Combinators0.

Ltac atom :=
  let w := fresh "w" in let r := fresh "r" in let w' := fresh "w'" in let H := fresh "H" in
  intros w r w' H; cbv beta delta [modify_heap emit call_find call_loadFromPivotTable
    call_hydrate create_entity register_managed read_where write_cond alloc_cond] in H;
  repeat match type of H with
         | context [match ?x with _ => _ end] => destruct x
         | context [let (_, _) := ?x in _] => destruct x
         end;
  injection H as <- <-;
  first [ reflexivity
        | exists []; rewrite app_nil_r; split; [reflexivity|simpl; lia]
        | eexists; split; [reflexivity|simpl; lia] ].

(** Decompose a computation along its binds and case distinctions. *)
Ltac class_goals :=
  try match goal with
      | |- Reflexive _ => typeclasses eauto
      | |- Transitive _ => typeclasses eauto
      end.

Ltac pres_step :=
  match goal with
  | |- preserves _ (bind _ _) => apply preserves_bind; class_goals; [|intros ?]
  | |- preserves _ (ret _) => apply preserves_ret; class_goals
  | |- preserves _ (throw _) => apply preserves_throw; class_goals
  | |- preserves _ (lift _) => apply preserves_lift; class_goals
  | |- preserves _ (required _ _) => apply preserves_required; class_goals
  | |- preserves _ (@get_heap _) => apply preserves_get_heap; class_goals
  | |- preserves _ (find_meta _ _) => apply preserves_find_meta; class_goals
  | |- preserves _ (property_of _ _) => apply preserves_property_of; class_goals
  | |- preserves _ (for_each _ _) => apply preserves_for_each; class_goals; intros ? ?
  | |- preserves _ (map_m _ _) => apply preserves_map_m; class_goals; intros ? ?
  | |- preserves _ (match ?x with _ => _ end) => destruct x
  | |- preserves _ (let (_, _) := ?x in _) => destruct x
  | |- preserves _ _ => solve [auto with pres]
  end.

Ltac pres := repeat pres_step.

Create HintDb pres1 discriminated.

Ltac pres1_step :=
  match goal with
  | |- preserves (adds_fetches 1) (bind _ _) =>
      first
        [ apply (@preserves_bind_then _ _ _ (@adds_fetches _ 0) (@adds_fetches _ 1)
                   (@adds_fetches _ 1));
          [intros ? ? ? ? ?; eapply fetch_after_none; eassumption
          |intros ? ? ?; eapply none_is_at_most_one; eassumption|solve [pres]|intros ?]
        | apply (@preserves_bind_then _ _ _ (@adds_fetches _ 1) (@adds_fetches _ 0)
                   (@adds_fetches _ 1));
          [intros ? ? ? ? ?; eapply none_after_fetch; eassumption
          |intros ? ? ?; assumption| |intros ?; solve [pres]] ]
  | |- preserves _ (ret _) => apply preserves_ret; class_goals
  | |- preserves _ (throw _) => apply preserves_throw; class_goals
  | |- preserves _ (lift _) => apply preserves_lift; class_goals
  | |- preserves _ (match ?x with _ => _ end) => destruct x
  | |- preserves _ (let (_, _) := ?x in _) => destruct x
  | |- preserves _ _ => solve [auto with pres1]
  end.

Ltac pres1 := repeat pres1_step.

Section Steps.

Variable Heap : Type.
Variable C : Collaborators Heap.
Variable metadata : MetadataStorage.

#[local] Abbreviation M := (M Heap).
#[local] Abbreviation World := (World Heap).

(** *** The primitive steps *)


Lemma modify_heap_conds f : preserves (@same_conds Heap) (modify_heap f).
Proof. atom. Qed.
Lemma emit_conds ev : preserves (@same_conds Heap) (emit ev).
Proof. atom. Qed.
Lemma call_find_conds n wh o : preserves (@same_conds Heap) (call_find C n wh o).
Proof. atom. Qed.
Lemma call_pivot_conds p i wh ob o :
  preserves (@same_conds Heap) (call_loadFromPivotTable C p i wh ob o).
Proof. atom. Qed.
Lemma call_hydrate_conds e f i b : preserves (@same_conds Heap) (call_hydrate C e f i b).
Proof. atom. Qed.
Lemma create_entity_conds t i r sc : preserves (@same_conds Heap) (create_entity C t i r sc).
Proof. atom. Qed.
Lemma register_managed_conds e i r : preserves (@same_conds Heap) (register_managed C e i r).
Proof. atom. Qed.
Lemma read_where_conds o : preserves (@same_conds Heap) (read_where o).
Proof. atom. Qed.

Lemma modify_heap_trace f : preserves (@same_trace Heap) (modify_heap f).
Proof. atom. Qed.
Lemma create_entity_trace t i r sc : preserves (@same_trace Heap) (create_entity C t i r sc).
Proof. atom. Qed.
Lemma register_managed_trace e i r : preserves (@same_trace Heap) (register_managed C e i r).
Proof. atom. Qed.
Lemma read_where_trace o : preserves (@same_trace Heap) (read_where o).
Proof. atom. Qed.
Lemma write_cond_trace r c : preserves (@same_trace Heap) (write_cond r c).
Proof. atom. Qed.
Lemma alloc_cond_trace c : preserves (@same_trace Heap) (alloc_cond c).
Proof. atom. Qed.
Lemma read_where_heap o : preserves (@same_heap Heap) (read_where o).
Proof. atom. Qed.
Lemma write_cond_heap r c : preserves (@same_heap Heap) (write_cond r c).
Proof. atom. Qed.
Lemma alloc_cond_heap c : preserves (@same_heap Heap) (alloc_cond c).
Proof. atom. Qed.
Lemma read_where_world o : preserves (@same_world Heap) (read_where o).
Proof. atom. Qed.

Lemma modify_heap_no_fetch f : preserves (@adds_fetches Heap 0) (modify_heap f).
Proof. atom. Qed.
Lemma call_hydrate_no_fetch e f i b : preserves (@adds_fetches Heap 0) (call_hydrate C e f i b).
Proof. atom. Qed.
Lemma create_entity_no_fetch t i r sc : preserves (@adds_fetches Heap 0) (create_entity C t i r sc).
Proof. atom. Qed.
Lemma register_managed_no_fetch e i r :
  preserves (@adds_fetches Heap 0) (register_managed C e i r).
Proof. atom. Qed.
Lemma read_where_no_fetch o : preserves (@adds_fetches Heap 0) (read_where o).
Proof. atom. Qed.
Lemma write_cond_no_fetch r c : preserves (@adds_fetches Heap 0) (write_cond r c).
Proof. atom. Qed.
Lemma alloc_cond_no_fetch c : preserves (@adds_fetches Heap 0) (alloc_cond c).
Proof. atom. Qed.

Lemma call_find_one_fetch n wh o : preserves (@adds_fetches Heap 1) (call_find C n wh o).
Proof. atom. Qed.
Lemma call_pivot_one_fetch p i wh ob o :
  preserves (@adds_fetches Heap 1) (call_loadFromPivotTable C p i wh ob o).
Proof. atom. Qed.

Hint Resolve modify_heap_conds emit_conds call_find_conds call_pivot_conds call_hydrate_conds
  create_entity_conds register_managed_conds read_where_conds
  modify_heap_no_fetch call_hydrate_no_fetch create_entity_no_fetch register_managed_no_fetch
  read_where_no_fetch write_cond_no_fetch alloc_cond_no_fetch
  modify_heap_trace create_entity_trace register_managed_trace read_where_trace
  write_cond_trace alloc_cond_trace read_where_heap write_cond_heap alloc_cond_heap
  read_where_world : pres.


(** *** Steps that fetch nothing *)

Lemma mergePrimaryCondition_no_fetch ids pk options meta :
  preserves (@adds_fetches Heap 0) (mergePrimaryCondition C ids pk options meta).
Proof. unfold mergePrimaryCondition. pres. Qed.

Lemma extractChildCondition_no_fetch options prop filters :
  preserves (@adds_fetches Heap 0) (extractChildCondition C metadata options prop filters).
Proof. unfold extractChildCondition. pres. Qed.

Lemma buildFields_no_fetch fields prop :
  preserves (@adds_fetches Heap 0) (buildFields (Heap := Heap) metadata fields prop).
Proof. unfold buildFields. pres. Qed.

Lemma hydrate_no_fetch e f items b :
  preserves (@adds_fetches Heap 0) (hydrate C e f items b).
Proof. unfold hydrate. pres. Qed.

Hint Resolve mergePrimaryCondition_no_fetch extractChildCondition_no_fetch
  buildFields_no_fetch hydrate_no_fetch : pres.

Lemma initializeCollections_no_fetch filtered prop field children :
  preserves (@adds_fetches Heap 0)
            (initializeCollections C metadata filtered prop field children).
Proof.
  unfold initializeCollections, initializeOneToMany, initializeManyToMany. pres.
Qed.

Lemma mark_populated_no_fetch entities field :
  preserves (@adds_fetches Heap 0) (mark_populated C entities field).
Proof. unfold mark_populated. pres. Qed.

Hint Resolve initializeCollections_no_fetch mark_populated_no_fetch : pres.

(** *** Steps that leave the heap, the trace or the whole world alone *)

Lemma mergePrimaryCondition_world ids pk options meta :
  preserves (@same_world Heap) (mergePrimaryCondition C ids pk options meta).
Proof. unfold mergePrimaryCondition. pres. Qed.

Lemma buildFields_world fields prop :
  preserves (@same_world Heap) (buildFields (Heap := Heap) metadata fields prop).
Proof. unfold buildFields. pres. Qed.

Lemma extractChildCondition_trace options prop filters :
  preserves (@same_trace Heap) (extractChildCondition C metadata options prop filters).
Proof. unfold extractChildCondition. pres. Qed.

Lemma extractChildCondition_heap options prop filters :
  preserves (@same_heap Heap) (extractChildCondition C metadata options prop filters).
Proof. unfold extractChildCondition. pres. Qed.

Lemma mark_populated_trace entities field :
  preserves (@same_trace Heap) (mark_populated C entities field).
Proof. unfold mark_populated. pres. Qed.

(** Marking never fails, and changes the heap only. *)
Lemma mark_populated_run entities field (w : World) :
  mark_populated C entities field w
  = (Ok tt, mkWorld (marked C entities field (heap w)) (conds w) (trace w)).
Proof.
  revert w. unfold mark_populated, marked.
  induction entities as [|e l IH]; intros [h cs t]; [reflexivity|].
  cbn [for_each fold_left]. unfold bind at 1. unfold bind at 1. cbn [get_heap heap].
  destruct (slot C h e field); cbn; rewrite IH; reflexivity.
Qed.

(** *** At most one fetch *)


Hint Resolve call_find_one_fetch call_pivot_one_fetch : pres1.


Lemma findChildren_one_fetch entities prop populate options :
  preserves (@adds_fetches Heap 1) (findChildren C metadata entities prop populate options).
Proof. unfold findChildren. pres1. Qed.

Lemma findChildrenFromPivotTable_one_fetch filtered prop options orderBy populate :
  preserves (@adds_fetches Heap 1)
            (findChildrenFromPivotTable C metadata filtered prop options orderBy populate).
Proof. unfold findChildrenFromPivotTable. pres1. Qed.

Hint Resolve findChildren_one_fetch findChildrenFromPivotTable_one_fetch : pres1.

(** populateMany makes at most one batched fetch, for any list of parents. *)
Lemma populateMany_one_fetch entityName entities populate options :
  preserves (@adds_fetches Heap 1) (populateMany C metadata entityName entities populate options).
Proof. unfold populateMany. pres1. Qed.

(** *** findChildren, step by step *)

(** findChildren first settles its plan without touching the world, returns at
    once on an empty batch, and otherwise makes the one call. *)
Lemma findChildren_run entities prop populate options (w : World) :
  findChildren C metadata entities prop populate options w
  = match find_plan C metadata (heap w) entities prop populate (flag (opt_refresh options)) with
    | Ok ([], _, _) => (Ok [], w)
    | Ok (c :: cs, fk, meta) => find_batch C metadata prop populate options (c :: cs) fk meta w
    | Throw e => (Throw e, w)
    | OutOfFuel => (OutOfFuel, w)
    end.
Proof.
  unfold findChildren, find_plan, find_batch, find_meta, property_of, required.
  unfold bind at 1. cbn [get_heap heap]. unfold bind at 1. unfold lift at 1.
  destruct (getChildReferences C (heap w) entities prop (flag (opt_refresh options)))
    as [children| |]; cbn [obind]; auto.
  unfold bind at 1.
  destruct (find metadata (prop_type prop)) as [meta|]; cbn [ret throw]; auto.
  destruct (dget (meta_properties meta) (prop_mappedBy prop)) as [mapped|];
    destruct (prop_reference prop), (prop_owner prop), (strategy populate) as [[|]|];
    destruct (config_autoJoinOneToOneOwner C);
    cbn [bind ret throw obind fst snd];
    try reflexivity;
    try (destruct children; reflexivity);
    try (destruct (filterByReferences C (heap w) entities (prop_name prop)
                     (flag (opt_refresh options))); reflexivity).
Qed.

(** How a bind ran: its first step ended well and the rest ran, or the first
    step's failure is the result. *)
Lemma bind_cases {A B} (c : M A) (k : A -> M B) (w : World) r w' :
  bind c k w = (r, w') ->
  (exists a w1, c w = (Ok a, w1) /\ k a w1 = (r, w'))
  \/ (forall b, r <> Ok b) /\
     ((exists e, c w = (Throw e, w') /\ r = Throw e) \/ (c w = (OutOfFuel, w') /\ r = OutOfFuel)).
Proof.
  unfold bind. destruct (c w) as [[a| |] w1]; intros H.
  - left. eauto.
  - injection H as <- <-. right. split; [discriminate|]. left. eauto.
  - injection H as <- <-. right. split; [discriminate|]. right. auto.
Qed.

(** The call for a non-empty batch: it fails before reaching the store, leaving
    the world as it was, or it makes exactly one [em.find] call. *)
Lemma find_batch_shape prop populate options children fk meta (w : World) r w' :
  find_batch C metadata prop populate options children fk meta w = (r, w') ->
  (w' = w /\ forall data, r <> Ok data)
  \/ exists where_ o, trace w' = trace w ++ [EvFind (prop_type prop) where_ o].
Proof.
  unfold find_batch. unfold bind at 1. cbn [get_heap]. intros H.
  apply bind_cases in H. destruct H as [(where_ & w1 & Hm & H)|[Hr [(e & Hm & _)|[Hm _]]]];
    try (left; split; [eapply mergePrimaryCondition_world; eauto|exact Hr]).
  assert (w1 = w) as -> by (eapply mergePrimaryCondition_world; eauto).
  apply bind_cases in H. destruct H as [(fields & w2 & Hb & H)|[Hr [(e & Hb & _)|[Hb _]]]];
    try (left; split; [eapply buildFields_world; eauto|exact Hr]).
  assert (w2 = w) as -> by (eapply buildFields_world; eauto).
  right. unfold call_find in H.
  destruct (em_find C _ _ _ (heap w)) as [res h']. injection H as <- <-.
  eexists _, _. reflexivity.
Qed.

(** With an empty batch findChildren leaves the world untouched. *)
Lemma findChildren_empty_batch entities prop populate options (w : World) r w' :
  findChildren C metadata entities prop populate options w = (r, w') ->
  child_batch C metadata (heap w) entities prop populate (flag (opt_refresh options)) = Ok [] ->
  w' = w.
Proof.
  rewrite findChildren_run. unfold child_batch.
  destruct (find_plan C metadata (heap w) entities prop populate (flag (opt_refresh options)))
    as [[[[|c cs] fk] meta]| |]; cbn [obind fst]; intros H Hb; try discriminate;
    now injection H.
Qed.

(** With a batch that is not empty, a call that returns has made exactly one
    [em.find] call. *)
Lemma findChildren_nonempty_batch entities prop populate options (w : World) data w' c cs :
  findChildren C metadata entities prop populate options w = (Ok data, w') ->
  child_batch C metadata (heap w) entities prop populate (flag (opt_refresh options))
  = Ok (c :: cs) ->
  exists where_ o, trace w' = trace w ++ [EvFind (prop_type prop) where_ o].
Proof.
  rewrite findChildren_run. unfold child_batch.
  destruct (find_plan C metadata (heap w) entities prop populate (flag (opt_refresh options)))
    as [[[[|c' cs'] fk] meta]| |]; cbn [obind fst]; intros H Hb; try discriminate.
  apply find_batch_shape in H. destruct H as [[_ Hr]|H]; auto.
  exfalso. now apply (Hr data).
Qed.

(** *** The pivot load, step by step *)

Lemma bind_Ok {A B} (c : M A) (k : A -> M B) (w : World) b w' :
  bind c k w = (Ok b, w') -> exists a w1, c w = (Ok a, w1) /\ k a w1 = (Ok b, w').
Proof.
  intros H. apply bind_cases in H. destruct H as [H|[Hr _]]; auto.
  exfalso. now apply (Hr b).
Qed.

(** The rows of one parent are resolved one by one, in the order given;
    nothing is recorded and no condition object is touched. *)
Lemma register_rows prop options rows : forall (w : World) items w',
  map_m rows (fun item =>
    bind (create_entity C (prop_type prop) item (opt_refresh options)
            (option_or (opt_schema options) (config_schema C)))
         (fun created => register_managed C created item (opt_refresh options))) w
  = (Ok items, w') ->
  trace w' = trace w /\ Forall2 (resolves C prop options) rows items.
Proof.
  induction rows as [|row rows IH]; intros w items w' H.
  - injection H as <- <-. split; [reflexivity|constructor].
  - cbn [map_m] in H. apply bind_Ok in H. destruct H as (item & w1 & Hitem & H).
    apply bind_Ok in H. destruct H as (rest & w2 & Hrest & H).
    injection H as <- <-.
    destruct (IH _ _ _ Hrest) as [Ht Hf].
    apply bind_Ok in Hitem. destruct Hitem as (created & w0 & Hc & Hreg).
    unfold create_entity in Hc. unfold register_managed in Hreg.
    destruct (factory_create C _ _ _ _ (heap w)) as [e0 h0] eqn:Ec.
    injection Hc as <- <-. cbn [heap] in Hreg.
    destruct (registerManaged C e0 row (opt_refresh options) h0) as [e1 h1] eqn:Er.
    injection Hreg as <- <-. cbn [trace] in Ht. split; [exact Ht|].
    constructor; [|exact Hf].
    exists (heap w), h0. rewrite Ec. cbn [fst]. now rewrite Er.
Qed.

Lemma hydrate_rows prop options (map_ : Dictionary (list Value)) filtered :
  forall (w : World) perEntity w',
  map_m filtered (fun entity =>
    bind (get_heap (Heap := Heap)) (fun h =>
    bind (required (dget map_ (helper_getSerializedPrimaryKey C h entity))
            "Cannot read properties of undefined (reading 'map')") (fun rows =>
    bind (map_m rows (fun item =>
            bind (create_entity C (prop_type prop) item (opt_refresh options)
                    (option_or (opt_schema options) (config_schema C)))
                 (fun created => register_managed C created item (opt_refresh options))))
         (fun items =>
    bind (hydrate C entity (prop_name prop) items true) (fun _ => ret items))))) w
  = (Ok perEntity, w') ->
  trace w' = trace w ++ hydrate_events (prop_name prop) filtered perEntity
  /\ Forall2 (fun entity items =>
                exists h rows,
                  dget map_ (helper_getSerializedPrimaryKey C h entity) = Some rows /\
                  Forall2 (resolves C prop options) rows items)
             filtered perEntity.
Proof.
  induction filtered as [|entity filtered IH]; intros w perEntity w' H.
  - injection H as <- <-. split; [now rewrite app_nil_r|constructor].
  - cbn [map_m] in H. apply bind_Ok in H. destruct H as (items & w1 & Hitems & H).
    apply bind_Ok in H. destruct H as (rest & w2 & Hrest & H).
    injection H as <- <-.
    destruct (IH _ _ _ Hrest) as [Ht Hf]. clear IH Hrest.
    unfold bind at 1 in Hitems. cbn [get_heap] in Hitems.
    apply bind_Ok in Hitems. destruct Hitems as (rows & w0 & Hrows & Hitems).
    destruct (dget map_ (helper_getSerializedPrimaryKey C (heap w) entity)) as [rows'|] eqn:Ek;
      [|discriminate Hrows].
    injection Hrows as <- <-.
    apply bind_Ok in Hitems. destruct Hitems as (items' & w3 & Hreg & Hitems).
    apply register_rows in Hreg. destruct Hreg as [Ht3 Hres].
    apply bind_Ok in Hitems. destruct Hitems as ([] & w4 & Hh & Hret).
    injection Hret as <- <-.
    unfold hydrate in Hh. unfold bind at 1 in Hh. cbn [get_heap] in Hh.
    destruct (isCollection (slot C (heap w3) entity (prop_name prop))); [|discriminate Hh].
    unfold call_hydrate in Hh. injection Hh as <-. cbn [trace] in Ht.
    split.
    + rewrite Ht, Ht3. unfold hydrate_events. cbn [combine map fst snd].
      now rewrite <- app_assoc.
    + constructor; [|exact Hf]. exists (heap w), rows'. auto.
Qed.

(** A pivot load that returns has made the one pivot fetch, for the keys of all
    the parents handed in, and then hydrated every parent's collection with the
    entities resolved from the rows under that parent's key, in their order. *)
Lemma pivot_load_trace filtered prop options orderBy populate (w : World) children w' :
  findChildrenFromPivotTable C metadata filtered prop options orderBy populate w
  = (Ok children, w') ->
  exists ids where_ options2 map_ perEntity h0 h1,
    loadFromPivotTable C prop ids where_ orderBy options2 h0 = (Ok map_, h1)
    /\ length ids = length filtered
    /\ trace w' = trace w ++ EvLoadFromPivotTable prop ids where_ orderBy options2
                            :: hydrate_events (prop_name prop) filtered perEntity
    /\ Forall2 (fun entity items =>
                  exists h rows,
                    dget map_ (helper_getSerializedPrimaryKey C h entity) = Some rows /\
                    Forall2 (resolves C prop options) rows items)
               filtered perEntity
    /\ children = concat perEntity.
Proof.
  unfold findChildrenFromPivotTable. unfold bind at 1. cbn [get_heap]. intros H.
  apply bind_Ok in H. destruct H as ([sub where_] & w1 & Hx & H).
  assert (Ht1 : trace w1 = trace w) by (eapply extractChildCondition_trace; eauto).
  apply bind_Ok in H. destruct H as (fields & w2 & Hb & H).
  assert (w2 = w1) as -> by (eapply buildFields_world; eauto).
  apply bind_Ok in H. destruct H as (map_ & w3 & Hp & H).
  apply bind_Ok in H. destruct H as (perEntity & w4 & Hh & H).
  injection H as <- <-.
  apply hydrate_rows in Hh. destruct Hh as [Ht4 Hf].
  unfold call_loadFromPivotTable in Hp.
  match type of Hp with
  | context [loadFromPivotTable C prop ?ids ?wh ?ob ?o2 ?h] =>
      destruct (loadFromPivotTable C prop ids wh ob o2 h) as [res h1] eqn:El;
      exists ids, wh, o2, map_, perEntity, h, h1
  end.
  injection Hp as -> <-. cbn [trace] in Ht4.
  split; [exact El|]. split.
  - destruct (prop_customType prop); now rewrite ?length_map.
  - split; [|split; [exact Hf|reflexivity]].
    rewrite Ht4, Ht1. now rewrite <- app_assoc.
Qed.

(** *** populateMany on a relation *)

Lemma populateMany_relation entityName entities populate options (w : World) meta prop :
  find metadata entityName = Some meta ->
  dget (meta_properties meta) (field populate) = Some prop ->
  is_relation prop ->
  populateMany C metadata entityName entities populate options w
  = load_relation C metadata prop entities populate options
      (mkWorld (marked C entities (field populate) (heap w)) (conds w) (trace w)).
Proof.
  intros Hmeta Hprop [Hs He].
  unfold populateMany, load_relation, find_meta, property_of, required.
  unfold bind at 1. rewrite Hmeta. cbn [ret]. unfold bind at 1. rewrite Hprop. cbn [ret].
  destruct (prop_reference prop) eqn:Er, (prop_lazy prop); try congruence;
    unfold bind at 1; rewrite mark_populated_run; reflexivity.
Qed.

Lemma fetched_trans l1 l2 (a b c : World) :
  fetched l1 a b -> fetched l2 b c -> fetched (l1 ++ l2) a c.
Proof.
  intros [e1 [H1 F1]] [e2 [H2 F2]]. exists (e1 ++ e2). split.
  - rewrite H2, H1. now rewrite app_assoc.
  - rewrite fetches_app. congruence.
Qed.

Lemma no_fetch_fetched (a b : World) : adds_fetches 0 a b -> fetched [] a b.
Proof.
  intros [e [H L]]. exists e. split; auto.
  destruct (fetches e); [reflexivity|simpl in L; lia].
Qed.

Lemma same_world_fetched (a b : World) : b = a -> fetched [] a b.
Proof. intros ->. exists []. split; [now rewrite app_nil_r|reflexivity]. Qed.

Lemma same_world_fetched_trace (a b : World) : trace b = trace a -> fetched [] a b.
Proof. intros H. exists []. split; [now rewrite app_nil_r|reflexivity]. Qed.

Lemma hydrate_events_no_fetch name filtered perEntity :
  fetches (hydrate_events name filtered perEntity) = [].
Proof.
  unfold hydrate_events. induction (combine filtered perEntity); simpl; auto.
Qed.

(** On the pivot path a call that returns has made the pivot fetch, for the
    keys of the parents that filterCollections kept, however many those are. *)
Lemma load_relation_pivot prop entities populate options (w : World) data w' :
  on_pivot C prop = true ->
  load_relation C metadata prop entities populate options w = (Ok data, w') ->
  exists ids where_ orderBy options2 hydrated,
    trace w' = trace w ++ EvLoadFromPivotTable prop ids where_ orderBy options2 :: hydrated
    /\ fetches hydrated = []
    /\ length ids
       = length (filterCollections C (heap w) entities (field populate)
                   (flag (opt_refresh options))).
Proof.
  intros Hpivot. unfold load_relation. unfold bind at 1. cbn [get_heap]. intros H.
  apply bind_Ok in H. destruct H as (ob & w1 & Hl & H).
  unfold lift in Hl. injection Hl as _ <-.
  unfold on_pivot in Hpivot. rewrite Hpivot in H.
  apply pivot_load_trace in H.
  destruct H as (ids & where_ & o2 & map_ & perEntity & h0 & h1 & _ & Hlen & Ht & _ & _).
  exists ids, where_, ob, o2, (hydrate_events (prop_name prop)
    (filterCollections C (heap w) entities (field populate) (flag (opt_refresh options)))
    perEntity).
  split; [exact Ht|]. split; [apply hydrate_events_no_fetch|exact Hlen].
Qed.

(** Off the pivot path: the sub-condition is extracted, findChildren runs on
    the same entity graph, and the collections are initialized. *)
Lemma load_relation_steps prop entities populate options (w : World) r w' :
  on_pivot C prop = false ->
  load_relation C metadata prop entities populate options w = (r, w') ->
  (adds_fetches 0 w w' /\ forall data, r <> Ok data)
  \/ exists where_ orderBy w1 rf w2,
       heap w1 = heap w /\ trace w1 = trace w
       /\ findChildren C metadata entities prop populate
            (with_where options where_ orderBy) w1 = (rf, w2)
       /\ adds_fetches 0 w2 w'
       /\ (forall data, r = Ok data -> exists d, rf = Ok d).
Proof.
  intros Hpivot. unfold load_relation. unfold bind at 1. cbn [get_heap]. intros H.
  apply bind_cases in H. destruct H as [(ob & w0 & Hl & H)|[Hr [(e & Hl & _)|[Hl _]]]];
    try solve [left; split; [|exact Hr]; unfold lift in Hl; injection Hl as _ <-; reflexivity].
  unfold lift in Hl. injection Hl as _ <-.
  unfold on_pivot in Hpivot. rewrite Hpivot in H.
  apply bind_cases in H. destruct H as [([where_ v] & w1 & Hx & H)|[Hr [(e & Hx & _)|[Hx _]]]];
    try solve [left; split; [|exact Hr]; eapply extractChildCondition_no_fetch; eassumption].
  right. exists where_, (VArr ob), w1.
  destruct (findChildren C metadata entities prop populate
              (with_where options where_ (VArr ob)) w1) as [rf w2] eqn:Ef.
  exists rf, w2.
  split; [eapply extractChildCondition_heap; eauto|].
  split; [eapply extractChildCondition_trace; eauto|].
  split; [reflexivity|].
  unfold bind at 1 in H. rewrite Ef in H.
  destruct rf as [d| |].
  - split.
    + apply bind_cases in H.
      destruct H as [(u & w3 & Hi & H)|[Hr [(e & Hi & _)|[Hi _]]]];
        try solve [eapply initializeCollections_no_fetch; eassumption].
      injection H as _ <-. eapply initializeCollections_no_fetch; eassumption.
    + eauto.
  - injection H as <- <-. split; [reflexivity|]. intros data Hd. discriminate.
  - injection H as <- <-. split; [reflexivity|]. intros data Hd. discriminate.
Qed.

Lemma fetched_from l (a a' b : World) : trace a = trace a' -> fetched l a b -> fetched l a' b.
Proof. intros E [e [H F]]. exists e. split; congruence. Qed.

Lemma adds_fetches_from n (a a' b : World) :
  trace a = trace a' -> adds_fetches n a b -> adds_fetches n a' b.
Proof. intros E [e [H F]]. exists e. split; congruence. Qed.

Lemma fetched_after_none l (a b c : World) : fetched [] a b -> fetched l b c -> fetched l a c.
Proof. intros H1 H2. exact (fetched_trans H1 H2). Qed.

Lemma fetched_then_none l (a b c : World) : fetched l a b -> fetched [] b c -> fetched l a c.
Proof. intros H1 H2. pose proof (fetched_trans H1 H2) as H. now rewrite app_nil_r in H. Qed.

Lemma fetched_step evs (a b : World) : trace b = trace a ++ evs -> fetched (fetches evs) a b.
Proof. intros H. exists evs. auto. Qed.

End Steps.

End LoaderFacts.

(** ** The loader: what a call does to the condition objects *)

Module FrameFacts.
Import Metadata Normalizer Conditions Loader LoaderSpec LoaderFacts.

Section Frame.

Variable Heap : Type.
Variable C : Collaborators Heap.
Variable metadata : MetadataStorage.

#[local] Abbreviation M := (M Heap).
#[local] Abbreviation World := (World Heap).

Lemma cond_read_extended cs fresh r c :
  cond_read cs r = Some c -> cond_read (cs ++ fresh) r = Some c.
Proof.
  unfold cond_read. destruct (nth_error cs (where_loc r)) as [root|] eqn:E; [|discriminate].
  rewrite nth_error_app1 by (apply nth_error_Some; congruence).
  now rewrite E.
Qed.

Lemma empty_where_extended r (w w' : World) :
  empty_where r w -> conds_extended w w' -> empty_where r w'.
Proof. unfold empty_where. intros H [fresh ->]. now apply cond_read_extended. Qed.

#[export] Instance conds_extended_refl : Reflexive (@conds_extended Heap).
Proof. intros w. exists []. now rewrite app_nil_r. Qed.

#[export] Instance conds_extended_trans : Transitive (@conds_extended Heap).
Proof.
  intros a b c [f1 H1] [f2 H2]. exists (f1 ++ f2). rewrite H2, H1. now rewrite app_assoc.
Qed.

#[export] Instance keeps_empty_where_refl r : Reflexive (@keeps_empty_where Heap r).
Proof. intros w _. reflexivity. Qed.

#[export] Instance keeps_empty_where_trans r : Transitive (@keeps_empty_where Heap r).
Proof.
  intros a b c H1 H2 Ha. specialize (H1 Ha).
  transitivity b; [exact H1|]. apply H2. eapply empty_where_extended; eauto.
Qed.

Lemma same_conds_keeps {A} r (c : M A) :
  preserves (@same_conds Heap) c -> preserves (keeps_empty_where r) c.
Proof.
  intros H w res w' E _. exists []. rewrite app_nil_r. exact (H _ _ _ E).
Qed.

(** *** Steps that leave the condition objects alone *)

Hint Resolve modify_heap_conds emit_conds call_find_conds call_pivot_conds call_hydrate_conds
  create_entity_conds register_managed_conds read_where_conds : pres.

Lemma mergePrimaryCondition_conds ids pk options meta :
  preserves (@same_conds Heap) (mergePrimaryCondition C ids pk options meta).
Proof. unfold mergePrimaryCondition. pres. Qed.

Lemma buildFields_conds fields prop :
  preserves (@same_conds Heap) (buildFields (Heap := Heap) metadata fields prop).
Proof. unfold buildFields. pres. Qed.

Lemma hydrate_conds e f items b : preserves (@same_conds Heap) (hydrate C e f items b).
Proof. unfold hydrate. pres. Qed.

Hint Resolve mergePrimaryCondition_conds buildFields_conds hydrate_conds : pres.

Lemma initializeCollections_conds filtered prop field children :
  preserves (@same_conds Heap) (initializeCollections C metadata filtered prop field children).
Proof. unfold initializeCollections, initializeOneToMany, initializeManyToMany. pres. Qed.

Lemma mark_populated_conds entities field :
  preserves (@same_conds Heap) (mark_populated C entities field).
Proof. unfold mark_populated. pres. Qed.

Lemma findChildren_conds entities prop populate options :
  preserves (@same_conds Heap) (findChildren C metadata entities prop populate options).
Proof. unfold findChildren. pres. Qed.

(** *** The empty condition *)

(** Nothing is extracted from [{}], and nothing is written to it. *)
Lemma extract_from_empty isOp isPk propName pk :
  Conditions.extractChildCondition isOp isPk [] propName pk = (mkChild [] false [], None).
Proof. reflexivity. Qed.

(** On options whose [where] is [{}], extractChildCondition makes a new object
    [{}] and touches no other. *)
Lemma extractChildCondition_empty options prop filters r (w : World) res w' :
  opt_where options = Some r -> empty_where r w ->
  extractChildCondition C metadata options prop filters w = (res, w') ->
  conds_extended w w' /\ (forall sub v, res = Ok (sub, v) -> empty_where sub w').
Proof.
  intros Hr Hempty. unfold extractChildCondition. rewrite Hr. cbn [required].
  unfold bind at 1. cbn [ret]. unfold bind at 1. unfold read_where at 1. rewrite Hr.
  unfold empty_where in Hempty. rewrite Hempty.
  unfold bind at 1. unfold find_meta, required.
  destruct (find metadata (prop_type prop)) as [meta2|]; cbn [ret throw].
  2:{ intros [= <- <-]. split; [reflexivity|discriminate]. }
  rewrite extract_from_empty. cbn [aliased subCond].
  unfold bind at 1. unfold alloc_cond at 1.
  set (w1 := mkWorld (heap w) (conds w ++ [[]]) (trace w)).
  assert (Hext : conds_extended w w1) by (exists [[]]; reflexivity).
  assert (Hsub : empty_where (mkWhereRef (length (conds w)) []) w1).
  { unfold empty_where, cond_read, w1. cbn [conds where_loc where_path].
    rewrite nth_error_app2 by lia. now rewrite Nat.sub_diag. }
  destruct filters.
  - unfold bind, lift.
    destruct (applyFilters C (prop_type prop) (VObj []) (opt_filters options)) as [v| |];
      cbn [ret]; intros [= <- <-]; (split; [exact Hext|]); try discriminate.
    intros sub v' [= <- _]. exact Hsub.
  - cbn [ret]. intros [= <- <-]. split; [exact Hext|].
    intros sub v' [= <- _]. exact Hsub.
Qed.

Lemma extractChildCondition_keeps options prop filters r :
  opt_where options = Some r ->
  preserves (keeps_empty_where r) (extractChildCondition C metadata options prop filters).
Proof.
  intros Hr w res w' E Hempty. eapply extractChildCondition_empty; eauto.
Qed.

Hint Resolve same_conds_keeps initializeCollections_conds mark_populated_conds
  findChildren_conds extractChildCondition_keeps : pres.

Lemma findChildrenFromPivotTable_keeps filtered prop options orderBy populate r :
  opt_where options = Some r ->
  preserves (keeps_empty_where r)
            (findChildrenFromPivotTable C metadata filtered prop options orderBy populate).
Proof. intros Hr. unfold findChildrenFromPivotTable. pres. Qed.

Hint Resolve findChildrenFromPivotTable_keeps : pres.

Lemma populateMany_keeps entityName entities populate options r :
  opt_where options = Some r ->
  preserves (keeps_empty_where r)
            (populateMany C metadata entityName entities populate options).
Proof. intros Hr. unfold populateMany. pres. Qed.

(** *** Nested calls *)

(** The nested call runs on the sub-condition that extractChildCondition made. *)
Lemma nested_call_keeps {B} options prop r (k : WhereRef * Value -> M B) :
  opt_where options = Some r ->
  (forall sub v, preserves (keeps_empty_where sub) (k (sub, v))) ->
  preserves (keeps_empty_where r)
            (bind (extractChildCondition C metadata options prop false) k).
Proof.
  intros Hr Hk w res w' E Hempty.
  destruct (bind_cases _ _ _ E) as [[[sub v] [w1 [E1 E2]]]|[_ [[e [E1 _]]|[E1 _]]]].
  - destruct (@extractChildCondition_empty _ _ _ _ _ _ _ Hr Hempty E1) as [Hext Hsub].
    transitivity w1; [exact Hext|].
    exact (Hk _ _ _ _ _ E2 (Hsub _ _ eq_refl)).
  - exact (proj1 (@extractChildCondition_empty _ _ _ _ _ _ _ Hr Hempty E1)).
  - exact (proj1 (@extractChildCondition_empty _ _ _ _ _ _ _ Hr Hempty E1)).
Qed.

Hint Resolve populateMany_keeps : pres.

Lemma populateField_keeps rec entityName entities populate options r :
  call_keeps rec -> opt_where options = Some r ->
  preserves (keeps_empty_where r)
            (populateField C metadata rec entityName entities populate options).
Proof.
  intros Hrec Hr. unfold populateField.
  repeat first
    [ apply nested_call_keeps;
      [exact Hr | intros sub v; cbn beta iota; apply Hrec; reflexivity]
    | pres_step ].
Qed.

Hint Resolve populateField_keeps : pres.

Lemma populate_fields_keeps rec entityName entities populate options r :
  call_keeps rec -> opt_where options = Some r ->
  preserves (keeps_empty_where r)
            (populate_fields C metadata rec entityName entities populate options).
Proof. intros Hrec Hr. unfold populate_fields. pres. Qed.

Lemma populate_body_keeps rec entityName entities populate options r (w : World) res w' :
  call_keeps rec -> opt_where options = Some r ->
  populate_body C metadata rec entityName entities populate options w = (res, w') ->
  keeps_empty_where r w w'.
Proof.
  intros Hrec Hr. unfold populate_body.
  destruct (Nat.eqb (length entities) 0 || isEmpty populate); [intros [= _ <-]; reflexivity|].
  destruct (existsb _ entities); [intros [= _ <-]; reflexivity|].
  unfold apply_defaults. rewrite Hr.
  match goal with
  | |- context [populate_fields C metadata rec entityName entities populate ?o w] =>
      destruct (populate_fields C metadata rec entityName entities populate o w)
        as [r1 w1] eqn:E
  end.
  intros [= _ <-]. eapply populate_fields_keeps; [exact Hrec| |exact E]. reflexivity.
Qed.

Lemma nested_populate_keeps fuel : call_keeps (nested_populate C metadata fuel).
Proof.
  induction fuel as [|fuel IH]; intros entityName entities request options r Hr w res w'.
  - intros [= _ <-]. reflexivity.
  - cbn [nested_populate]. unfold as_call.
    destruct (populate C metadata fuel entityName entities request options w)
      as [r1 w1] eqn:E.
    intros [= _ <-].
    assert (E' : populate_body C metadata (nested_populate C metadata fuel)
                   entityName entities request options w = (r1, w1))
      by (destruct fuel; exact E).
    exact (@populate_body_keeps _ _ _ _ _ _ _ _ _ IH Hr E').
Qed.

End Frame.

End FrameFacts.

(** ** The loader on a graph that is already loaded *)

Module SettledFacts.
Import Metadata Normalizer Conditions Loader LoaderSpec LoaderFacts.

Section Settled.

Variable Heap : Type.
Variable C : Collaborators Heap.
Variable metadata : MetadataStorage.

#[local] Abbreviation M := (M Heap).
#[local] Abbreviation World := (World Heap).

Lemma same_view_refl h : same_view C h h.
Proof. repeat split. Qed.

Lemma same_view_trans h1 h2 h3 : same_view C h1 h2 -> same_view C h2 h3 -> same_view C h1 h3.
Proof.
  intros (S1 & I1 & C1 & G1) (S2 & I2 & C2 & G2). repeat split; intros.
  - now rewrite S2, S1.
  - now rewrite I2, I1.
  - now rewrite C2, C1.
  - now rewrite G2, G1.
Qed.

#[export] Instance quiet_refl h0 : Reflexive (quiet C h0).
Proof. intros w Hv. split; [exact Hv|reflexivity]. Qed.

#[export] Instance quiet_trans h0 : Transitive (quiet C h0).
Proof.
  intros a b c H1 H2 Ha. destruct (H1 Ha) as [Hb Tb]. destruct (H2 Hb) as [Hc Tc].
  split; [exact Hc|congruence].
Qed.

Lemma settled_view h h' prop e : same_view C h h' -> settled C h' prop e = settled C h prop e.
Proof.
  intros (Hs & Hi & Hc & _). unfold settled, slot_initialized.
  rewrite Hs, Hc. destruct (slot C h e (prop_name prop)); try rewrite Hi; reflexivity.
Qed.

Lemma slot_children_view h h' prop e field :
  same_view C h h' -> slot_children C h' prop e field = slot_children C h prop e field.
Proof. intros (Hs & _ & _ & Hg). unfold slot_children. now rewrite Hs, Hg. Qed.

(** Marking the parents leaves the view as it was. *)
Lemma marked_view entities field :
  marks_keep_view C -> forall h, same_view C h (marked C entities field h).
Proof.
  intros Hm. unfold marked. induction entities as [|e l IH]; intros h; cbn [fold_left].
  - apply same_view_refl.
  - eapply same_view_trans; [|apply IH].
    destruct (Hm h) as (Hp & Hc & _).
    destruct (slot C h e field); auto using same_view_refl.
Qed.

(** A step that keeps the graph and the trace is quiet. *)
Lemma heap_trace_quiet {A} h0 (c : M A) :
  preserves (@same_heap Heap) c -> preserves (@same_trace Heap) c -> preserves (quiet C h0) c.
Proof.
  intros Hh Ht w r w' E Hv. specialize (Hh _ _ _ E). specialize (Ht _ _ _ E).
  unfold same_heap in Hh. unfold same_trace in Ht. rewrite Hh. auto.
Qed.

Lemma filter_nothing {A} (f : A -> bool) l :
  (forall x, In x l -> f x = false) -> filter f l = [].
Proof.
  induction l as [|x l IH]; intros H; [reflexivity|]. cbn [filter].
  rewrite (H x (or_introl eq_refl)). apply IH. intros; apply H; now right.
Qed.

(** *** The filters on settled parents *)

Section OnHeap.

Variable h : Heap.
Variable prop : EntityProperty.
Variable entities : list EntId.
Hypothesis Hsettled : forall e, In e entities -> settled C h prop e = true.

Lemma filterCollections_settled :
  prop_reference prop = ONE_TO_MANY \/ prop_reference prop = MANY_TO_MANY ->
  filterCollections C h entities (prop_name prop) false = [].
Proof.
  intros Hk. unfold filterCollections. apply filter_nothing. intros e He.
  specialize (Hsettled e He). unfold settled in Hsettled.
  destruct Hk as [Hk|Hk]; rewrite Hk in Hsettled;
    destruct (isCollection (slot C h e (prop_name prop))); cbn in *; try reflexivity;
    now rewrite Hsettled.
Qed.

Lemma filterReferences_settled :
  prop_reference prop = MANY_TO_ONE \/ prop_reference prop = ONE_TO_ONE ->
  filterReferences C h entities (prop_name prop) false = [].
Proof.
  intros Hk. unfold filterReferences.
  rewrite filter_nothing; [reflexivity|]. intros e He. apply filter_In in He.
  destruct He as [He Hent]. specialize (Hsettled e He). unfold settled in Hsettled.
  destruct Hk as [Hk|Hk]; rewrite Hk in Hsettled.
  - rewrite Hent in Hsettled. cbn in Hsettled. now rewrite Hsettled.
  - destruct (prop_owner prop).
    + rewrite Hent in Hsettled. cbn in Hsettled. now rewrite Hsettled.
    + now rewrite Hsettled.
Qed.

Lemma filterByReferences_settled :
  prop_reference prop = ONE_TO_ONE -> prop_owner prop = false ->
  filterByReferences C h entities (prop_name prop) false = [].
Proof.
  intros Hk Ho. unfold filterByReferences. apply filter_nothing. intros e He.
  specialize (Hsettled e He). unfold settled in Hsettled. rewrite Hk, Ho in Hsettled.
  now rewrite Hsettled.
Qed.

End OnHeap.

(** On settled parents the batch of child references is empty. *)
Lemma find_plan_settled h prop entities populate plan :
  (forall e, In e entities -> settled C h prop e = true) ->
  is_relation prop ->
  find_plan C metadata h entities prop populate false = Ok plan ->
  fst (fst plan) = [].
Proof.
  intros Hs [Hscalar Hembedded]. unfold find_plan, getChildReferences.
  destruct (prop_reference prop) eqn:Ek; try congruence.
  - (* one to one *)
    rewrite (filterReferences_settled _ _ _ Hs) by auto. cbn [obind].
    destruct (find metadata (prop_type prop)) as [meta|]; [|discriminate].
    cbn [obind]. destruct (prop_owner prop) eqn:Eo.
    + destruct (strategy populate) as [[|]|]; intros [= <-]; reflexivity.
    + rewrite (filterByReferences_settled _ _ _ Hs) by auto.
      destruct (strategy populate) as [[|]|], (config_autoJoinOneToOneOwner C),
        (dget (meta_properties meta) (prop_mappedBy prop));
        intros [= <-]; reflexivity.
  - (* one to many *)
    rewrite (filterCollections_settled _ _ _ Hs) by auto. cbn [omap obind].
    destruct (find metadata (prop_type prop)) as [meta|]; [|discriminate].
    destruct (dget (meta_properties meta) (prop_mappedBy prop)); cbn [obind];
      destruct (prop_owner prop); try discriminate; intros [= <-]; reflexivity.
  - (* many to one *)
    rewrite (filterReferences_settled _ _ _ Hs) by auto. cbn [obind].
    destruct (find metadata (prop_type prop)) as [meta|]; [|discriminate].
    cbn [obind]. destruct (prop_owner prop); intros [= <-]; reflexivity.
  - (* many to many *)
    rewrite (filterCollections_settled _ _ _ Hs) by auto.
    destruct (prop_owner prop); cbn [ofold obind];
      (destruct (find metadata (prop_type prop)) as [meta|]; [|discriminate]);
      destruct (dget (meta_properties meta) (prop_mappedBy prop)); cbn [obind];
      try discriminate; intros [= <-]; reflexivity.
Qed.

(** So findChildren returns at once. *)
Lemma findChildren_settled entities prop populate options (w : World) r w' :
  (forall e, In e entities -> settled C (heap w) prop e = true) ->
  is_relation prop -> flag (opt_refresh options) = false ->
  findChildren C metadata entities prop populate options w = (r, w') ->
  w' = w.
Proof.
  intros Hs Hrel Hrefresh. rewrite findChildren_run, Hrefresh.
  destruct (find_plan C metadata (heap w) entities prop populate false)
    as [[[children fk] meta]| |] eqn:Ep; try (intros [= _ <-]; reflexivity).
  eapply find_plan_settled in Ep; [|exact Hs|exact Hrel]. cbn [fst] in Ep. subst children.
  intros [= _ <-]. reflexivity.
Qed.

(** With no collection to initialize, initializeCollections does nothing. *)
Lemma initializeCollections_nothing filtered prop field data (w : World) :
  (prop_reference prop = ONE_TO_MANY \/ prop_reference prop = MANY_TO_MANY -> filtered = []) ->
  initializeCollections C metadata filtered prop field data w = (Ok tt, w).
Proof.
  intros Hf. unfold initializeCollections.
  destruct (prop_reference prop); try reflexivity.
  - rewrite Hf by auto. reflexivity.
  - rewrite Hf by auto. cbn. destruct (negb (prop_owner prop) && negb (usesPivotTable C));
      reflexivity.
Qed.

(** Off the pivot table, loading a relation on settled parents changes neither
    the graph nor the trace. *)
Lemma load_relation_settled prop entities populate options (w : World) r w' :
  (forall e, In e entities -> settled C (heap w) prop e = true) ->
  is_relation prop -> on_pivot C prop = false ->
  flag (opt_refresh options) = false -> field populate = prop_name prop ->
  load_relation C metadata prop entities populate options w = (r, w') ->
  heap w' = heap w /\ trace w' = trace w.
Proof.
  intros Hs Hrel Hpivot Hrefresh Hname. unfold load_relation.
  unfold bind at 1. cbn [get_heap]. unfold bind at 1. unfold lift at 1.
  destruct (inner_orderBy (opt_orderBy options) (prop_name prop)) as [ob| |];
    try (intros [= _ <-]; split; reflexivity).
  unfold on_pivot in Hpivot. rewrite Hpivot.
  intros H. apply bind_cases in H.
  destruct H as [([where_ v] & w1 & Hx & H)|[_ [(e & Hx & _)|[Hx _]]]];
    try (split; [eapply extractChildCondition_heap|eapply extractChildCondition_trace];
         eassumption).
  assert (Hh1 : heap w1 = heap w) by (eapply extractChildCondition_heap; eassumption).
  assert (Ht1 : trace w1 = trace w) by (eapply extractChildCondition_trace; eassumption).
  rewrite <- Hh1, <- Ht1.
  assert (Hs1 : forall e, In e entities -> settled C (heap w1) prop e = true)
    by (rewrite Hh1; exact Hs).
  apply bind_cases in H.
  destruct H as [(data & w2 & Hf & H)|[_ [(e & Hf & _)|[Hf _]]]];
    try (eapply findChildren_settled in Hf; [subst; split; reflexivity|exact Hs1|exact Hrel|];
         exact Hrefresh).
  eapply findChildren_settled in Hf; [|exact Hs1|exact Hrel|exact Hrefresh]. subst w2.
  rewrite Hrefresh, Hname in H.
  unfold bind at 1 in H. rewrite initializeCollections_nothing in H.
  - injection H as _ <-. split; reflexivity.
  - intros Hk. eapply filterCollections_settled; eauto.
Qed.


Lemma refresh_off options : opt_refresh options <> Some true -> flag (opt_refresh options) = false.
Proof. destruct (opt_refresh options) as [[|]|]; auto. congruence. Qed.

(** *** populateMany on settled parents *)

Lemma populateMany_settled_relation h0 entityName entities pop options meta prop
    (w : World) r w' :
  marks_keep_view C ->
  find metadata entityName = Some meta ->
  dget (meta_properties meta) (field pop) = Some prop ->
  prop_name prop = field pop -> on_pivot C prop = false ->
  is_relation prop ->
  flag (opt_refresh options) = false ->
  (forall e, In e entities -> settled C (heap w) prop e = true) ->
  same_view C h0 (heap w) ->
  populateMany C metadata entityName entities pop options w = (r, w') ->
  same_view C h0 (heap w') /\ trace w' = trace w.
Proof.
  intros Hmarks Hmeta Hprop Hname Hpivot Hrel Hrefresh Hs Hv E.
  erewrite populateMany_relation in E by eassumption.
  pose proof (@marked_view entities (field pop) Hmarks (heap w)) as Hm.
  eapply load_relation_settled in E;
    [ | | exact Hrel | exact Hpivot | exact Hrefresh | symmetry; exact Hname ].
  - cbn [heap trace] in E. destruct E as [Eh Et]. rewrite Eh. split; [|exact Et].
    eapply same_view_trans; eauto.
  - cbn [heap]. intros e He. erewrite settled_view by exact Hm. auto.
Qed.

Lemma populateMany_settled h0 entityName entities pop options meta prop :
  marks_keep_view C ->
  find metadata entityName = Some meta ->
  dget (meta_properties meta) (field pop) = Some prop ->
  prop_name prop = field pop -> on_pivot C prop = false ->
  (prop_reference prop = SCALAR -> prop_lazy prop = true) ->
  opt_refresh options <> Some true ->
  (forall e, In e entities -> settled C h0 prop e = true) ->
  preserves (quiet C h0) (populateMany C metadata entityName entities pop options).
Proof.
  intros Hmarks Hmeta Hprop Hname Hpivot Hlazy Hrefresh Hs w r w' E Hv.
  apply refresh_off in Hrefresh.
  assert (Hsw : forall e, In e entities -> settled C (heap w) prop e = true)
    by (intros e He; erewrite settled_view by exact Hv; auto).
  destruct (prop_reference prop) eqn:Ek.
  - (* a lazy scalar *)
    unfold populateMany, find_meta, property_of, required in E.
    unfold bind at 1 in E. rewrite Hmeta in E. cbn [ret] in E.
    unfold bind at 1 in E. rewrite Hprop in E. cbn [ret] in E.
    rewrite Ek, (Hlazy eq_refl) in E. unfold bind at 1 in E. cbn [get_heap] in E.
    rewrite Hrefresh in E. rewrite filter_nothing in E.
    + destruct (flag (opt_ignoreLazyScalarProperties options)); injection E as _ <-;
        split; auto.
    + intros e He. specialize (Hsw e He). unfold settled in Hsw.
      rewrite Ek, (Hlazy eq_refl) in Hsw. cbn in Hsw |- *.
      destruct (slot C (heap w) e (prop_name prop)); auto; discriminate.
  - eapply populateMany_settled_relation; eauto. split; congruence.
  - eapply populateMany_settled_relation; eauto. split; congruence.
  - eapply populateMany_settled_relation; eauto. split; congruence.
  - eapply populateMany_settled_relation; eauto. split; congruence.
  - (* embedded *)
    unfold populateMany, find_meta, property_of, required in E.
    unfold bind at 1 in E. rewrite Hmeta in E. cbn [ret] in E.
    unfold bind at 1 in E. rewrite Hprop in E. cbn [ret] in E.
    rewrite Ek in E. destruct (prop_lazy prop); injection E as _ <-; split; auto.
Qed.

(** *** populateField on settled parents *)

Lemma unique_by_In {A} (eqb : A -> A -> bool) l x : In x (unique_by eqb l) -> In x l.
Proof.
  revert x. induction l as [|y l IH]; intros x; cbn [unique_by]; [auto|].
  intros [->|H]; [now left|]. right. apply IH. apply filter_In in H. tauto.
Qed.

Lemma omap_In {A B} (g : A -> Outcome B) l : forall ys y,
  omap g l = Ok ys -> In y ys -> exists x, In x l /\ g x = Ok y.
Proof.
  induction l as [|x l IH]; intros ys y; cbn [omap].
  - intros [= <-] [].
  - destruct (g x) as [b| |] eqn:Eg; cbn [obind]; try discriminate.
    destruct (omap g l) as [bs| |]; cbn [obind]; try discriminate.
    intros [= <-] [<-|Hin].
    + exists x. split; [now left|exact Eg].
    + destruct (IH bs y eq_refl Hin) as [x' [Hx Hg]]. exists x'. split; [now right|exact Hg].
Qed.

Lemma preserves_bind_ret {A B} (R : World -> World -> Prop) (a : A) (k : A -> M B) :
  preserves R (k a) -> preserves R (bind (ret a) k).
Proof. intros H w r w' E. exact (H w r w' E). Qed.

Lemma preserves_bind_throw {A B} (R : World -> World -> Prop) `{!Reflexive R}
    e (k : A -> M B) :
  preserves R (bind (throw e) k).
Proof. intros w r w' [= _ <-]. reflexivity. Qed.

(** A body that only reads the graph, mapped over a list. *)
Lemma map_m_pure {A B} (body : A -> M B) (g : Heap -> A -> Outcome B) l :
  (forall x (w : World), body x w = (g (heap w) x, w)) ->
  forall w : World, map_m l body w = (omap (g (heap w)) l, w).
Proof.
  intros Hbody w. induction l as [|x l IH]; [reflexivity|].
  cbn [map_m omap]. unfold bind at 1. rewrite Hbody.
  destruct (g (heap w) x) as [y| |]; cbn [obind]; try reflexivity.
  unfold bind at 1. rewrite IH.
  destruct (omap (g (heap w)) l) as [ys| |]; reflexivity.
Qed.

Lemma init_serialization_quiet h0 e p :
  marks_keep_view C ->
  preserves (quiet C h0) (modify_heap (init_serialization_populate C e p)).
Proof.
  intros Hmarks w r w' [= _ <-] Hv. cbn [heap trace]. split; [|reflexivity].
  eapply same_view_trans; [exact Hv|]. apply (Hmarks (heap w)).
Qed.

Section Reached.

Variable h0 : Heap.
Variable reach : string -> EntId -> Prop.
Hypothesis Hmarks : marks_keep_view C.
Hypothesis Hclosed : loaded_closed C metadata h0 reach.

Lemma buildFields_quiet fields prop :
  preserves (quiet C h0) (buildFields (Heap := Heap) metadata fields prop).
Proof.
  intros w r w' E Hv. apply buildFields_world in E. unfold same_world in E. subst.
  split; [exact Hv|reflexivity].
Qed.

Lemma extractChildCondition_quiet options prop filters :
  preserves (quiet C h0) (extractChildCondition C metadata options prop filters).
Proof.
  apply heap_trace_quiet; [apply extractChildCondition_heap|apply extractChildCondition_trace].
Qed.

Lemma populateField_settled rec entityName entities pop options :
  call_quiet C metadata h0 reach rec ->
  entities <> [] -> (forall e, In e entities -> reach entityName e) ->
  opt_refresh options <> Some true ->
  preserves (quiet C h0) (populateField C metadata rec entityName entities pop options).
Proof.
  intros Hrec Hne Hreach Hrefresh.
  unfold populateField, find_meta, property_of.
  destruct (find metadata entityName) as [meta|] eqn:Hmeta; cbn [required];
    [|apply preserves_bind_throw; typeclasses eauto].
  apply preserves_bind_ret.
  destruct (dget (meta_properties meta) (field pop)) as [prop|] eqn:Hprop; cbn [required];
    [|apply preserves_bind_throw; typeclasses eauto].
  apply preserves_bind_ret.
  assert (Hfacts : forall e, In e entities ->
            prop_name prop = field pop /\ on_pivot C prop = false
            /\ settled C h0 prop e = true
            /\ (forall items, slot_children C h0 prop e (field pop) = Ok items ->
                forall t, In t items -> reach (prop_type prop) t))
    by (intros e He; eapply Hclosed; eauto).
  assert (Hprop0 : prop_name prop = field pop /\ on_pivot C prop = false).
  { destruct entities as [|e0 rest]; [congruence|].
    destruct (Hfacts e0 (or_introl eq_refl)) as (H1 & H2 & _). auto. }
  destruct Hprop0 as [Hname Hpivot].
  assert (Hmany : (prop_reference prop = SCALAR -> prop_lazy prop = true) ->
                  preserves (quiet C h0)
                    (populateMany C metadata entityName entities pop options)).
  { intros Hlazy. eapply populateMany_settled; eauto. intros e He. now apply Hfacts. }
  assert (Hnested : forall nested,
    preserves (quiet C h0)
      (bind (map_m entities (fun entity =>
               bind (get_heap (Heap := Heap)) (fun h =>
               match slot C h entity (field pop) with
               | SEntity t => ret [t]
               | SReference t => ret [t]
               | SCollection => lift (coll_getItems C h entity (field pop))
               | SEmbedded objects =>
                   match prop_reference prop with
                   | EMBEDDED => ret objects
                   | _ => ret []
                   end
               | SUndefined | SValue _ => ret []
               end)))
         (fun found =>
            let filtered := unique_entities (concat found) in
            bind (buildFields metadata (opt_fields options) prop) (fun fields =>
            bind (lift (inner_orderBy (opt_orderBy options) (prop_name prop)))
              (fun innerOrderBy =>
            bind (extractChildCondition C metadata options prop false) (fun '(where_, _) =>
            rec (prop_type prop) filtered (PArr nested)
              (mkOptions (Some where_) (opt_populateWhere options) fields
                 (Some (VArr innerOrderBy)) (opt_refresh options) (Some false) (Some false)
                 None (opt_ignoreLazyScalarProperties options) (opt_filters options)
                 None None None (opt_connectionType options)))))))).
  { intros nested w r w' E Hv. unfold bind at 1 in E.
    rewrite (map_m_pure _ (fun h e => slot_children C h prop e (field pop))) in E.
    2:{ intros e w0. unfold bind, slot_children. cbn [get_heap].
        destruct (slot C (heap w0) e (field pop)); try reflexivity.
        destruct (prop_reference prop); reflexivity. }
    destruct (omap (fun e => slot_children C (heap w) prop e (field pop)) entities)
      as [found| |] eqn:Ef; try (injection E as _ <-; split; [exact Hv|reflexivity]).
    pose proof Hv as Hv0. revert Hv. revert E.
    match goal with
    | |- ?c w = _ -> _ => enough (Hrest : preserves (quiet C h0) c) by exact (Hrest w r w')
    end.
    cbv zeta.
    apply preserves_bind; try typeclasses eauto; [apply buildFields_quiet|intros fields].
    apply preserves_bind; try typeclasses eauto; [apply preserves_lift; typeclasses eauto|].
    intros innerOrderBy.
    apply preserves_bind; try typeclasses eauto; [apply extractChildCondition_quiet|].
    intros [where_ v]. apply Hrec; [|exact Hrefresh].
    intros t Ht. apply unique_by_In in Ht. apply in_concat in Ht.
    destruct Ht as [items [Hitems Ht]].
    destruct (omap_In _ _ _ Ef Hitems) as [e [He Hchildren]].
    cbv beta in Hchildren. erewrite slot_children_view in Hchildren by exact Hv0.
    destruct (Hfacts e He) as (_ & _ & _ & Hcl). eapply Hcl; eauto. }
  destruct (prop_reference prop) eqn:Ek, (prop_lazy prop) eqn:El;
    try (apply preserves_ret; typeclasses eauto);
    (destruct (children pop) as [nested|];
     [ apply preserves_bind; try typeclasses eauto;
       [apply Hmany; congruence|intros _; apply Hnested]
     | apply preserves_bind; try typeclasses eauto;
       [apply Hmany; congruence|intros _; apply preserves_ret; typeclasses eauto] ]).
Qed.

(** *** populate on settled entities *)

Lemma populate_fields_settled rec entityName entities request options :
  call_quiet C metadata h0 reach rec ->
  entities <> [] -> (forall e, In e entities -> reach entityName e) ->
  opt_refresh options <> Some true ->
  preserves (quiet C h0)
            (populate_fields C metadata rec entityName entities request options).
Proof.
  intros Hrec Hne Hreach Hrefresh. unfold populate_fields.
  apply preserves_bind; try typeclasses eauto; [apply preserves_lift; typeclasses eauto|].
  intros normalized.
  destruct (if flag (opt_validate options) then _ else None);
    [apply preserves_throw; typeclasses eauto|].
  apply preserves_bind; try typeclasses eauto.
  - apply preserves_for_each; try typeclasses eauto.
    intros e _. now apply init_serialization_quiet.
  - intros _. apply preserves_for_each; try typeclasses eauto.
    intros pop _. now apply populateField_settled.
Qed.

Lemma populate_body_quiet rec entityName entities request options (w : World) res w' :
  call_quiet C metadata h0 reach rec ->
  (forall e, In e entities -> reach entityName e) ->
  opt_refresh options <> Some true ->
  populate_body C metadata rec entityName entities request options w = (res, w') ->
  quiet C h0 w w'.
Proof.
  intros Hrec Hreach Hrefresh. unfold populate_body.
  destruct entities as [|e0 rest] eqn:Ee; [intros [= _ <-]; reflexivity|].
  rewrite <- Ee in *. replace (Nat.eqb (length entities) 0) with false by now rewrite Ee.
  cbn [orb].
  destruct (isEmpty request); [intros [= _ <-]; reflexivity|].
  destruct (existsb _ entities); [intros [= _ <-]; reflexivity|].
  destruct (apply_defaults options w) as [o1 w1] eqn:Ed.
  destruct (populate_fields C metadata rec entityName entities request o1 w1)
    as [r2 w2] eqn:Ef.
  intros [= _ <-].
  assert (Ho : opt_refresh o1 <> Some true /\ heap w1 = heap w /\ trace w1 = trace w).
  { unfold apply_defaults in Ed.
    destruct (opt_where options); injection Ed as <- <-; cbn;
      (split; [destruct (opt_refresh options) as [[|]|]; cbn; congruence|auto]). }
  destruct Ho as (Hr1 & Hh1 & Ht1).
  intros Hv. rewrite <- Hh1 in Hv.
  eapply populate_fields_settled in Ef; [| exact Hrec | congruence | exact Hreach | exact Hr1].
  destruct (Ef Hv) as [Hv2 Ht2]. split; [exact Hv2|congruence].
Qed.

Lemma nested_populate_quiet fuel :
  call_quiet C metadata h0 reach (nested_populate C metadata fuel).
Proof.
  induction fuel as [|fuel IH]; intros entityName entities request options Hreach Hrefresh
    w res w'.
  - intros [= _ <-]. reflexivity.
  - cbn [nested_populate]. unfold as_call.
    destruct (populate C metadata fuel entityName entities request options w)
      as [r1 w1] eqn:E.
    intros [= _ <-].
    assert (E' : populate_body C metadata (nested_populate C metadata fuel)
                   entityName entities request options w = (r1, w1))
      by (destruct fuel; exact E).
    eapply populate_body_quiet; eauto.
Qed.

End Reached.

End Settled.

End SettledFacts.

(** * The normalizer's claims *)

Module NormalizerClaims.
Import Metadata Normalizer NormalizerSpec MergeFacts EagerFacts.

Lemma expandNestedPopulate_not_OutOfFuel metadata parts :
  forall entityName strategy all,
    expandNestedPopulate metadata entityName parts strategy all <> OutOfFuel.
Proof.
  induction parts as [|f rest IH]; intros entityName strategy all; simpl;
    destruct (find metadata entityName) as [meta|]; try discriminate.
  destruct rest as [|g rest]; try discriminate.
  destruct (dget (meta_properties meta) f) as [prop|]; try discriminate.
  specialize (IH (prop_type prop) strategy None).
  destruct (expandNestedPopulate metadata (prop_type prop) (g :: rest) strategy None);
    simpl; congruence.
Qed.

Lemma expand_dotted_not_OutOfFuel metadata entityName p :
  expand_dotted metadata entityName p <> OutOfFuel.
Proof.
  unfold expand_dotted. destruct (negb (includes_dot (field p))); try discriminate.
  destruct (split_dot (field p)) as [|f parts]; try discriminate.
  destruct (find metadata entityName) as [meta|]; try discriminate.
  destruct (dget (meta_properties meta) f) as [prop|]; try discriminate.
  match goal with |- context [expandNestedPopulate ?a ?b ?c ?d ?e] =>
    pose proof (expandNestedPopulate_not_OutOfFuel a c b d e) as H;
    destruct (expandNestedPopulate a b c d e) end; simpl; congruence.
Qed.

Lemma omap_not_OutOfFuel {A B} (f : A -> Outcome B) l :
  (forall x, f x <> OutOfFuel) -> omap f l <> OutOfFuel.
Proof.
  intros H. induction l as [|x l IH]; simpl; [discriminate|].
  specialize (H x). destruct (f x); simpl; try congruence.
  destruct (omap f l); simpl; congruence.
Qed.

Lemma lookupAllRelationships_not_OutOfFuel metadata entityName :
  relation_names_resolvable metadata ->
  lookupAllRelationships metadata entityName <> OutOfFuel.
Proof.
  intros Hres. unfold lookupAllRelationships.
  destruct (find metadata entityName) as [meta|] eqn:Ef; try discriminate.
  apply ofold_not_OutOfFuel. intros acc prop Hin.
  pose proof (Hres entityName meta prop (dget_In _ _ Ef) Hin).
  destruct (getRelationName meta prop); simpl; congruence.
Qed.

(** C7. On every registry, cyclic or not, whose relation names can be computed,
    the eager-relationship lookup halts: a budget of one level per registered
    type is never exhausted and any larger budget gives the same result; a type
    already on the visited path is not expanded but hands its populate list back
    unchanged; normalizePopulate as a whole halts with a value or an error; and
    when the request carries no children of its own, every path the lookup adds
    has at most one segment per registered type, so a cyclic edge is entered
    once and not followed again. *)
Theorem eager_lookup_halts_on_cycles metadata entityName populate strategy :
  relation_names_resolvable metadata ->
  (exists r,
      r <> OutOfFuel /\
      forall fuel, length metadata <= fuel ->
        lookupEagerLoadedRelationships fuel metadata entityName populate strategy "" [] = r)
  /\ (forall fuel prefix visited,
        In entityName visited ->
        lookupEagerLoadedRelationships fuel metadata entityName populate strategy prefix visited
        = Ok populate)
  /\ (forall request lookup,
        normalizePopulate metadata entityName request strategy lookup <> OutOfFuel)
  /\ (plain_relation_names metadata ->
      (forall n, nested_of populate n = []) ->
      forall fuel r,
        lookupEagerLoadedRelationships fuel metadata entityName populate strategy "" [] = Ok r ->
        forall p, In p r -> In p populate \/ segments (field p) <= length metadata).
Proof.
  intros Hres.
  assert (Hb : forall p,
             lookupEagerLoadedRelationships (length metadata) metadata entityName p strategy "" []
             <> OutOfFuel).
  { intros p. apply lookupEager_budget; auto.
    - constructor.
    - intros x [].
    - simpl. lia. }
  split; [|split; [|split]].
  - eexists. split; [apply (Hb populate)|].
    intros fuel Hle. apply lookupEager_mono; auto.
  - intros. now apply lookupEager_visited.
  - intros request lookup. unfold normalizePopulate.
    pose proof (lookupAllRelationships_not_OutOfFuel entityName Hres) as Hall.
    assert (Hsel : select_populate metadata entityName request <> OutOfFuel).
    { destruct request as [[|]|l]; simpl; try discriminate; auto.
      destruct (existsb all_set l); auto. discriminate. }
    destruct (select_populate metadata entityName request) as [p1| |]; simpl;
      try congruence.
    assert (Hstep : (if lookup
                     then lookupEagerLoadedRelationships (length metadata) metadata
                            entityName p1 strategy "" []
                     else Ok p1) <> OutOfFuel).
    { destruct lookup; [apply Hb|discriminate]. }
    destruct (if lookup then _ else _) as [p2| |]; simpl; try congruence.
    pose proof (omap_not_OutOfFuel (expand_dotted metadata entityName) p2
                  (expand_dotted_not_OutOfFuel metadata entityName)) as Hm.
    destruct (omap (expand_dotted metadata entityName) p2); simpl; congruence.
  - intros Hplain Hnested fuel r Hr p Hp.
    eapply lookupEager_depth; eauto; [constructor|intros x []].
Qed.

Lemma self_registry_resolvable : relation_names_resolvable Fixtures.self_registry.
Proof.
  intros k meta prop [[= <- <-]|[]] [<-|[]]. discriminate.
Qed.

Lemma eager_lookup_halts_on_cycles_witness :
  relation_names_resolvable Fixtures.self_registry /\
  exists r,
    r <> OutOfFuel /\
    forall fuel, length Fixtures.self_registry <= fuel ->
      lookupEagerLoadedRelationships fuel Fixtures.self_registry "Node" [] None "" [] = r.
Proof.
  split; [exact self_registry_resolvable|].
  exact (proj1 (eager_lookup_halts_on_cycles "Node" [] None self_registry_resolvable)).
Defined.

(** On the self-referencing type the eager relation is listed once, one level
    deep, both for an eager lookup and for a populate-all request. *)
Example self_reference_one_level :
  lookupEagerLoadedRelationships 1 Fixtures.self_registry "Node" [] None "" []
  = Ok [mkPopulate "parent" None None None] /\
  normalizePopulate Fixtures.self_registry "Node" (PBool true) None true
  = Ok [mkPopulate "parent" (Some SELECT_IN) None (Some true)].
Proof. split; reflexivity. Qed.

(** On the two-type cycle the edge back to the start is entered once
    ([book.author]) and not followed again. *)
Example two_cycle_one_level :
  lookupEagerLoadedRelationships 2 Fixtures.cycle_registry "Author" [] None "" []
  = Ok [mkPopulate "book.author" None None None] /\
  normalizePopulate Fixtures.cycle_registry "Author" (PBool true) None true
  = Ok [mkPopulate "book" (Some SELECT_IN)
          (Some [mkPopulate "author" None None None]) (Some true)].
Proof. split; reflexivity. Qed.

(** *** Populate-all *)


Lemma lookupAll_fold meta rels : forall names acc,
  omap (getRelationName meta) rels = Ok names ->
  ofold (fun ret prop =>
           let? f := getRelationName meta prop in
           Ok (ret ++ [mkPopulate f (Some SELECT_IN) None (Some true)]))
        rels acc
  = Ok (acc ++ map all_spec names).
Proof.
  induction rels as [|prop rels IH]; simpl; intros names acc H.
  - injection H as <-. simpl. now rewrite app_nil_r.
  - destruct (getRelationName meta prop) as [f| |]; simpl in *; try discriminate.
    destruct (omap (getRelationName meta) rels) as [ns| |]; simpl in *; try discriminate.
    injection H as <-. rewrite (IH ns); auto. simpl. now rewrite <- app_assoc.
Qed.

Lemma omap_length {A B} (f : A -> Outcome B) l : forall r,
  omap f l = Ok r -> length r = length l.
Proof.
  induction l as [|x l IH]; simpl; intros r H.
  - now injection H as <-.
  - destruct (f x); simpl in H; try discriminate.
    destruct (omap f l); simpl in H; try discriminate.
    injection H as <-. simpl. f_equal. auto.
Qed.

Lemma expand_dotted_plain metadata entityName l :
  Forall (fun p => includes_dot (field p) = false) l ->
  omap (expand_dotted metadata entityName) l = Ok l.
Proof.
  induction 1 as [|p l Hp _ IH]; simpl; auto.
  unfold expand_dotted at 1. rewrite Hp. simpl. now rewrite IH.
Qed.

(** Without repeated fields the reduce keeps the list as it is. *)
Lemma merge_reduce_distinct l : forall acc,
  NoDup (dkeys acc ++ map field l) ->
  fold_left merge_item l acc = acc ++ map (fun p => (field p, p)) l.
Proof.
  induction l as [|p l IH]; simpl; intros acc Hnd.
  - now rewrite app_nil_r.
  - assert (Hnone : dget acc (field p) = None).
    { destruct (dget acc (field p)) eqn:E; auto.
      apply dget_Some_In in E. apply NoDup_remove_2 in Hnd.
      exfalso. apply Hnd. apply in_or_app. auto. }
    unfold merge_item at 2. rewrite Hnone, (dset_absent _ _ _ Hnone).
    rewrite IH.
    + now rewrite <- app_assoc.
    + unfold dkeys in *. rewrite map_app. simpl. now rewrite <- app_assoc.
Qed.

Lemma mergeNestedPopulate_flat l :
  NoDup (map field l) -> Forall (fun p => children p = None) l ->
  mergeNestedPopulate l = l.
Proof.
  intros Hnd Hc. rewrite mergeNestedPopulate_eq. unfold merge_reduce.
  rewrite merge_reduce_distinct; auto. simpl. unfold dvalues.
  rewrite map_map. simpl. rewrite map_map. simpl.
  rewrite <- (map_id l) at 2. apply map_ext_in. intros p Hp.
  rewrite Forall_forall in Hc. now rewrite (Hc p Hp).
Qed.

(** C6. When the request is [true] or contains a node with [all] set, it is
    replaced by exactly one spec per declared relation of the entity type, in
    declaration order, each with strategy SELECT_IN, [all: true] and no
    children; with relation names that are distinct and free of dots this list
    is also what normalizePopulate returns when no eager lookup follows. *)
Theorem populate_all_one_spec_per_relation metadata entityName meta request names :
  find metadata entityName = Some meta ->
  (request = PBool true \/ exists l, request = PArr l /\ existsb all_set l = true) ->
  omap (getRelationName meta) (meta_relations meta) = Ok names ->
  let produced := map all_spec names in
  select_populate metadata entityName request = Ok produced
  /\ length produced = length (meta_relations meta)
  /\ map field produced = names
  /\ Forall (fun p => strategy p = Some SELECT_IN /\ all p = Some true /\ children p = None)
            produced
  /\ (NoDup names -> Forall (fun n => includes_dot n = false) names ->
      forall strategy,
        normalizePopulate metadata entityName request strategy false = Ok produced).
Proof.
  intros Hfind Hreq Hnames produced.
  assert (Hall : lookupAllRelationships metadata entityName = Ok produced).
  { unfold lookupAllRelationships. rewrite Hfind. now rewrite (lookupAll_fold _ _ [] Hnames). }
  assert (Hsel : select_populate metadata entityName request = Ok produced).
  { destruct Hreq as [->|[l [-> Hl]]]; simpl; auto. now rewrite Hl. }
  assert (Hfields : map field produced = names).
  { unfold produced. rewrite map_map. simpl. apply map_id. }
  repeat split; auto.
  - unfold produced. rewrite length_map. eapply omap_length; eauto.
  - unfold produced. apply Forall_forall. intros p Hp.
    apply in_map_iff in Hp. destruct Hp as [n [<- _]]. simpl. auto.
  - intros Hnd Hdots strategy. unfold normalizePopulate. rewrite Hsel. simpl.
    rewrite expand_dotted_plain.
    + simpl. rewrite mergeNestedPopulate_flat; auto.
      * now rewrite Hfields.
      * apply Forall_forall. intros p Hp.
        apply in_map_iff in Hp. destruct Hp as [n [<- _]]. reflexivity.
    + apply Forall_forall. intros p Hp.
      apply in_map_iff in Hp. destruct Hp as [n [<- Hn]]. simpl.
      rewrite Forall_forall in Hdots. auto.
Qed.

Lemma populate_all_one_spec_per_relation_witness :
  find Fixtures.joined_registry "E"
  = Some (mkMeta "E" "E" ["id"] [("a", Fixtures.E_a)] [Fixtures.E_a]) /\
  select_populate Fixtures.joined_registry "E" (PBool true) = Ok [all_spec "a"] /\
  normalizePopulate Fixtures.joined_registry "E" (PBool true) None false = Ok [all_spec "a"].
Proof.
  split; [reflexivity|].
  pose proof (@populate_all_one_spec_per_relation Fixtures.joined_registry "E"
                (mkMeta "E" "E" ["id"] [("a", Fixtures.E_a)] [Fixtures.E_a])
                (PBool true) ["a"] eq_refl (or_introl eq_refl) eq_refl) as H.
  simpl in H. destruct H as [H1 [_ [_ [_ H5]]]].
  split; [exact H1|].
  apply H5.
  - constructor; [simpl; tauto|constructor].
  - constructor; [reflexivity|constructor].
Defined.

(** What the eager lookup can do afterwards: with lookup enabled, an eager
    relation of the target type is attached as a child of the replaced spec. *)
Example populate_all_then_eager_children :
  normalizePopulate Fixtures.cycle_registry "Author" (PBool true) None true
  = Ok [mkPopulate "book" (Some SELECT_IN)
          (Some [mkPopulate "author" None None None]) (Some true)].
Proof. reflexivity. Qed.

(** *** The merge law *)

Lemma filter_none {A} (f : A -> bool) l :
  (forall x, In x l -> f x = false) -> filter f l = [].
Proof.
  induction l as [|x l IH]; simpl; intros H; auto.
  rewrite (H x (or_introl eq_refl)). apply IH. intros; apply H; auto.
Qed.

Lemma filter_by_name rels pa :
  NoDup (map prop_name rels) -> In pa rels ->
  filter (fun r => String.eqb (prop_name r) (prop_name pa)) rels = [pa].
Proof.
  induction rels as [|r rels IH]; simpl; intros Hnd Hin; [contradiction|].
  inversion Hnd as [|? ? Hnotin Hnd']; subst.
  destruct Hin as [->|Hin].
  - rewrite String.eqb_refl. f_equal.
    apply filter_none.
    intros x Hx. apply String.eqb_neq. intros E. apply Hnotin. rewrite <- E.
    now apply in_map.
  - assert (Hne : prop_name r <> prop_name pa).
    { intros E. apply Hnotin. rewrite E. now apply in_map. }
    apply String.eqb_neq in Hne. rewrite Hne. auto.
Qed.

Lemma registry_two_types (metadata : MetadataStorage) e1 e2 m1 m2 :
  find metadata e1 = Some m1 -> find metadata e2 = Some m2 -> e1 <> e2 ->
  2 <= length metadata.
Proof.
  unfold find. destruct metadata as [|[k1 v1] [|[k2 v2] md]]; simpl; try discriminate; try lia.
  destruct (String.eqb k1 e1) eqn:E1, (String.eqb k1 e2) eqn:E2; try discriminate.
  apply String.eqb_eq in E1, E2. congruence.
Qed.

(** A target type without eager relations contributes nothing below a prefix. *)
Lemma lookupEager_no_eager fuel metadata target metaA strategy prefix visited :
  find metadata target = Some metaA ->
  (forall r, In r (meta_relations metaA) -> prop_eager r = false) ->
  prefix <> "" ->
  In target visited \/ 1 <= fuel ->
  lookupEagerLoadedRelationships fuel metadata target [] strategy prefix visited = Ok [].
Proof.
  intros Hfind Hno Hpre Hfuel.
  destruct (includes visited target) eqn:Ev.
  - apply lookupEager_visited. now apply includes_In.
  - destruct Hfuel as [Hin|Hfuel]; [apply includes_In in Hin; congruence|].
    destruct fuel as [|fuel]; [lia|]. simpl. rewrite Hfind, Ev.
    replace (filter _ (meta_relations metaA)) with (@nil EntityProperty).
    + simpl. apply String.eqb_neq in Hpre. now rewrite Hpre.
    + symmetry. apply filter_none.
      intros r Hr. now rewrite (Hno r Hr).
Qed.

Section MergeLaw.
Variables (metadata : MetadataStorage) (entityName : string).
Variables (meta metaA : EntityMetadata) (pa : EntityProperty).
Hypothesis Hmeta : find metadata entityName = Some meta.
Hypothesis Hpa : dget (meta_properties meta) "a" = Some pa.
Hypothesis HmetaA : find metadata (prop_type pa) = Some metaA.

Lemma expand_a_b p :
  field p = "a.b" -> children p = None -> strategy p = None -> all p = None ->
  expand_dotted metadata entityName p
  = Ok (mkPopulate "a" (prop_strategy pa)
          (Some [mkPopulate "b" (prop_strategy pa) None None]) None).
Proof.
  intros Hf Hc Hs Ha. unfold expand_dotted. rewrite Hf, Hc, Hs, Ha. simpl.
  rewrite Hmeta, Hpa, HmetaA. reflexivity.
Qed.

Lemma eager_adds_bare_a strategy :
  no_eager_expansion meta metaA pa ->
  lookupEagerLoadedRelationships (length metadata) metadata entityName
    [hint "a"; hint "a.b"] strategy "" []
  = Ok [hint "a"; hint "a.b";
        mkPopulate "a" (match strategy with Some s => Some s | None => prop_strategy pa end)
          None None].
Proof.
  intros [Hin [Hname [Hemb [Hnd [Hrels HrelsA]]]]].
  assert (Hfuel : prop_type pa = entityName \/ 2 <= length metadata).
  { destruct (String.eqb (prop_type pa) entityName) eqn:E.
    - apply String.eqb_eq in E. auto.
    - apply String.eqb_neq in E. right.
      eapply registry_two_types; [exact Hmeta|exact HmetaA|congruence]. }
  destruct (length metadata) as [|fuel] eqn:El.
  { destruct metadata; [discriminate Hmeta|discriminate El]. }
  rewrite (@lookupEager_S fuel metadata entityName _ strategy "" [] meta Hmeta eq_refl).
  rewrite (filter_ext_in _ (fun r => String.eqb (prop_name r) (prop_name pa))).
  2:{ intros r Hr. destruct (Hrels r Hr) as [-> Hab]. rewrite Hname.
      unfold requested, hint. cbn [existsb field orb].
      rewrite orb_false_r.
      replace ("a.b" =? prop_name r) with false
        by (symmetry; apply String.eqb_neq; congruence).
      rewrite orb_false_r. apply String.eqb_sym. }
  rewrite (filter_by_name _ _ Hnd Hin). cbn [ofold].
  unfold getRelationName.
  replace (getRelationName_rec (length (meta_properties meta)) meta pa)
    with (Ok (A := string) "a")
    by (destruct (length (meta_properties meta)); simpl; rewrite Hemb; congruence).
  simpl. rewrite Hname. simpl.
  change (nested_of [hint "a"; hint "a.b"] "a") with (@nil PopulateOptions).
  rewrite (@lookupEager_no_eager fuel metadata (prop_type pa) metaA strategy "a" [entityName]);
    auto; [discriminate|].
  destruct Hfuel as [->|Hfuel]; [left; simpl; auto|right; lia].
Qed.

Lemma eager_adds_nothing strategy :
  no_eager_expansion meta metaA pa ->
  lookupEagerLoadedRelationships (length metadata) metadata entityName
    [hint "a.b"] strategy "" []
  = Ok [hint "a.b"].
Proof.
  intros [Hin [Hname [Hemb [Hnd [Hrels HrelsA]]]]].
  destruct (length metadata) as [|fuel] eqn:El.
  { destruct metadata; [discriminate Hmeta|discriminate El]. }
  rewrite (@lookupEager_S fuel metadata entityName _ strategy "" [] meta Hmeta eq_refl).
  rewrite filter_none; auto.
  intros r Hr. destruct (Hrels r Hr) as [-> Hab].
  unfold requested, hint. cbn [existsb field orb].
  rewrite orb_false_r. apply String.eqb_neq. congruence.
Qed.


End MergeLaw.

Lemma plain_registry_no_eager :
  no_eager_expansion
    (mkMeta "E" "E" ["id"] [("a", Fixtures.E_a_plain)] [Fixtures.E_a_plain])
    (mkMeta "A" "A" ["id"] [("b", Fixtures.A_b)] [Fixtures.A_b])
    Fixtures.E_a_plain.
Proof.
  unfold no_eager_expansion. simpl.
  split; [auto|]. split; [reflexivity|]. split; [reflexivity|].
  split; [constructor; [simpl; tauto|constructor]|].
  split.
  - intros r [<-|[]]. split; [reflexivity|discriminate].
  - intros r [<-|[]]. reflexivity.
Qed.



End NormalizerClaims.

(** * The condition merge *)

Module ConditionClaims.
Import Metadata Conditions.

Lemma spread_cons a k v b : spread a ((k, v) :: b) = spread (dset a k v) b.
Proof. reflexivity. Qed.

Lemma dget_spread_other a b k :
  ~ In k (dkeys b) -> dget (spread a b) k = dget a k.
Proof.
  revert a. induction b as [|[k' v'] b IH]; intros a Hk; [reflexivity|].
  rewrite spread_cons, IH.
  - apply dget_dset_ne. intros ->. apply Hk. simpl. auto.
  - intros H. apply Hk. simpl. auto.
Qed.

(** Every member of the caller's condition survives the spread. *)
Lemma dget_spread_where a b k v :
  NoDup (dkeys b) -> dget b k = Some v -> dget (spread a b) k = Some v.
Proof.
  revert a. induction b as [|[k' v'] b IH]; intros a Hnd Hget; [discriminate|].
  inversion Hnd as [|? ? Hnotin Hnd']; subst.
  rewrite spread_cons. simpl in Hget. destruct (String.eqb k' k) eqn:E.
  - apply String.eqb_eq in E. subst k'. injection Hget as ->.
    rewrite dget_spread_other; auto. apply dget_dset_eq.
  - apply IH; auto.
Qed.

(** When the caller's condition has a truthy member under the batch key, the
    derived condition and the caller's are both kept, under [$and]. *)
Lemma mergePrimaryCondition_and processWhere ids pk where_ convertCustomTypes metaName :
  truthy (dread where_ pk) = true ->
  mergePrimaryCondition processWhere ids pk where_ convertCustomTypes metaName
  = VObj [("$and",
           VArr [processWhere metaName (negb convertCustomTypes)
                   (VObj [(pk, VObj [("$in", VArr ids)])]);
                 VObj where_])].
Proof.
  intros H. unfold mergePrimaryCondition. now rewrite H.
Qed.

(** When the caller's condition does not mention the batch key, the shallow
    merge keeps the whole caller's condition and every member of the derived
    condition that the caller's does not also name. *)
Lemma mergePrimaryCondition_spread processWhere ids pk where_ convertCustomTypes metaName :
  dget where_ pk = None -> NoDup (dkeys where_) ->
  exists merged,
    mergePrimaryCondition processWhere ids pk where_ convertCustomTypes metaName = VObj merged
    /\ (forall k v, dget where_ k = Some v -> dget merged k = Some v)
    /\ (forall k, ~ In k (dkeys where_) ->
          dget merged k
          = dget (own_members (processWhere metaName (negb convertCustomTypes)
                                 (VObj [(pk, VObj [("$in", VArr ids)])]))) k).
Proof.
  intros Hnone Hnd. unfold mergePrimaryCondition, dread. rewrite Hnone. simpl.
  eexists. split; [reflexivity|]. split.
  - intros k v Hk. now apply dget_spread_where.
  - intros k Hk. now apply dget_spread_other.
Qed.

(** C5, at the failing input.  The caller's condition for the field is
    [{ id: 0 }], the batch is [[1, 2]] on key [id].  The test [options.where[pk]]
    is a truthiness test, so the falsy [0] takes the shallow-merge branch, where
    the caller's [id: 0] overwrites the derived [id: { $in: [1, 2] }]: whatever
    processWhere returns, the merged condition has [id: 0] and the batch
    restriction on [id] is gone; the two conditions are not combined with [$and]. *)
Theorem merge_drops_batch_on_falsy_key :
  (forall processWhere : string -> bool -> Value -> Value,
      exists merged,
        mergePrimaryCondition processWhere [VNum 1; VNum 2] "id" [("id", VNum 0)] true "Author"
        = VObj merged
        /\ dget merged "id" = Some (VNum 0)
        /\ dget merged "$and" =
           dget (own_members (processWhere "Author" false
                                (VObj [("id", VObj [("$in", VArr [VNum 1; VNum 2])])]))) "$and")
  /\ mergePrimaryCondition (fun _ _ cond => cond) [VNum 1; VNum 2] "id" [("id", VNum 0)]
       true "Author"
     = VObj [("id", VNum 0)].
Proof.
  split; [|reflexivity].
  intros processWhere. eexists. split; [reflexivity|]. split.
  - apply dget_spread_where; [|reflexivity].
    constructor; [simpl; tauto|constructor].
  - apply dget_spread_other. simpl. intros [H|[]]. discriminate.
Qed.

(** The same input with a truthy key value is combined with [$and]. *)
Example merge_and_on_truthy_key :
  mergePrimaryCondition (fun _ _ cond => cond) [VNum 1; VNum 2] "id" [("id", VNum 5)]
    true "Author"
  = VObj [("$and", VArr [VObj [("id", VObj [("$in", VArr [VNum 1; VNum 2])])];
                         VObj [("id", VNum 5)]])].
Proof. reflexivity. Qed.

End ConditionClaims.

(** * The loader's claims *)

Module LoaderClaims.
Import Metadata Normalizer Conditions Loader LoaderSpec LoaderFacts FrameFacts SettledFacts.

Section Claims.

Variable Heap : Type.
Variable C : Collaborators Heap.
Variable metadata : MetadataStorage.

#[local] Abbreviation World := (World Heap).

Lemma populate_unfold fuel entityName entities populateArg options (w : World) :
  populate C metadata fuel entityName entities populateArg options w
  = populate_body C metadata (nested_populate C metadata fuel)
      entityName entities populateArg options w.
Proof. destruct fuel; reflexivity. Qed.

Lemma all_have_helper entities (h : Heap) :
  (forall e, In e entities -> has_helper C h e = true) ->
  existsb (fun e => negb (has_helper C h e)) entities = false.
Proof.
  intros H. induction entities as [|e l IH]; simpl; auto.
  rewrite (H e (or_introl eq_refl)). simpl. apply IH. intros; apply H; simpl; auto.
Qed.

(** Past its two guards, [populate] applies the defaults and runs the rest. *)
Lemma populate_past_guards fuel entityName entities populateArg options (w : World) :
  entities <> [] -> isEmpty populateArg = false ->
  (forall e, In e entities -> has_helper C (heap w) e = true) ->
  populate C metadata fuel entityName entities populateArg options w
  = (let (options', w1) := apply_defaults options w in
     let (r, w2) := populate_fields C metadata (nested_populate C metadata fuel)
                      entityName entities populateArg options' w1 in
     ((r, options'), w2)).
Proof.
  intros Hne Hpop Hhelp. rewrite populate_unfold. unfold populate_body.
  destruct entities as [|e l]; [congruence|]. cbn [length Nat.eqb orb].
  rewrite Hpop, (all_have_helper _ _ Hhelp). reflexivity.
Qed.

Lemma apply_defaults_world options (w : World) :
  heap (snd (apply_defaults options w)) = heap w /\
  trace (snd (apply_defaults options w)) = trace w.
Proof. unfold apply_defaults. destruct (opt_where options); split; reflexivity. Qed.

Lemma apply_defaults_flags options (w : World) :
  let o := fst (apply_defaults options w) in
  opt_strategy o = opt_strategy options /\
  flag (opt_lookup o) = match opt_lookup options with Some b => b | None => true end /\
  flag (opt_validate o) = match opt_validate options with Some b => b | None => true end.
Proof.
  unfold apply_defaults. destruct (opt_where options); cbn;
    destruct (opt_lookup options), (opt_validate options); auto.
Qed.

(** C9. A populate node whose field is a scalar property that is not lazy makes
    populateField return at once: the result is success and the world (entity
    graph, condition objects, trace of collaborator calls) is exactly as
    before.  So a populate call with validation enabled whose normalized nodes
    are all such fields, each known to canPopulate, succeeds without recording
    any call. *)
Theorem plain_scalar_field_is_skipped rec entityName entities pop options (w : World)
    meta prop :
  find metadata entityName = Some meta ->
  dget (meta_properties meta) (field pop) = Some prop ->
  prop_reference prop = SCALAR -> prop_lazy prop = false ->
  populateField C metadata rec entityName entities pop options w = (Ok tt, w)
  /\ (forall fuel request,
        entities <> [] -> isEmpty request = false ->
        (forall e, In e entities -> has_helper C (heap w) e = true) ->
        opt_validate options <> Some false ->
        normalizePopulate metadata entityName request (opt_strategy options)
          (match opt_lookup options with Some b => b | None => true end) = Ok [pop] ->
        canPopulate C entityName (field pop) = true ->
        exists options' w',
          populate C metadata fuel entityName entities request options w
          = ((Ok tt, options'), w')
          /\ trace w' = trace w).
Proof.
  intros Hmeta Hprop Hscalar Hlazy.
  assert (Hskip : forall rec' o (w0 : World),
             populateField C metadata rec' entityName entities pop o w0 = (Ok tt, w0)).
  { intros rec' o w0. unfold populateField, find_meta, property_of, required, bind.
    rewrite Hmeta. cbn [ret]. rewrite Hprop. cbn [ret]. now rewrite Hscalar, Hlazy. }
  split; [apply Hskip|].
  intros fuel request Hne Hpop Hhelp Hvalidate Hnorm Hcan.
  rewrite populate_past_guards by assumption.
  destruct (apply_defaults options w) as [o1 w1] eqn:Ed.
  pose proof (apply_defaults_flags options w) as Hf. rewrite Ed in Hf. cbn [fst] in Hf.
  destruct Hf as [Hs [Hl Hv]].
  pose proof (apply_defaults_world options w) as [_ Ht]. rewrite Ed in Ht. cbn [snd] in Ht.
  unfold populate_fields. unfold bind at 1. unfold lift at 1.
  rewrite Hs, Hl, Hnorm. cbn [List.find]. rewrite Hcan. cbn [negb].
  replace (if flag (opt_validate o1) then None else None) with (@None PopulateOptions)
    by (destruct (flag (opt_validate o1)); reflexivity).
  destruct (for_each entities (fun e => modify_heap (init_serialization_populate C e [pop])) w1)
    as [r2 w2] eqn:Ef.
  assert (Ht2 : trace w2 = trace w1).
  { assert (Hp : preserves (@same_trace Heap)
                   (for_each entities
                      (fun e => modify_heap (init_serialization_populate C e [pop])))).
    { apply preserves_for_each; try typeclasses eauto.
      intros e _. apply modify_heap_trace. }
    exact (Hp _ _ _ Ef). }
  assert (Hr2 : r2 = Ok tt).
  { clear - Ef. revert w1 Ef. induction entities as [|e l IH]; intros w1 Ef.
    - now injection Ef.
    - cbn [for_each] in Ef. unfold bind at 1 in Ef. cbn [modify_heap] in Ef. eauto. }
  subst r2. unfold bind. rewrite Ef. cbn [for_each]. unfold bind. rewrite Hskip.
  cbn [ret]. eexists _, _. split; [reflexivity|]. congruence.
Qed.

(** C4. When a populate call with validation enabled (the default) gets past
    its guards and the normalized populate contains a field that canPopulate
    rejects, the call fails with invalidPropertyName naming the first such
    field, and it fails before anything is fetched: the trace of collaborator
    calls and the entity graph are as before.  With validation explicitly
    disabled the check is not made: the call goes on to cache the populate hint
    and to populate every field. *)
Theorem invalid_field_rejected_before_fetch fuel entityName entities request options
    (w : World) normalized bad :
  entities <> [] -> isEmpty request = false ->
  (forall e, In e entities -> has_helper C (heap w) e = true) ->
  normalizePopulate metadata entityName request (opt_strategy options)
    (match opt_lookup options with Some b => b | None => true end) = Ok normalized ->
  List.find (fun p => negb (canPopulate C entityName (field p))) normalized = Some bad ->
  (opt_validate options <> Some false ->
   exists options' w',
     populate C metadata fuel entityName entities request options w
     = ((Throw (InvalidPropertyName entityName (field bad)), options'), w')
     /\ trace w' = trace w /\ heap w' = heap w)
  /\ (opt_validate options = Some false ->
      populate C metadata fuel entityName entities request options w
      = (let (options', w1) := apply_defaults options w in
         let (r, w2) :=
           bind (for_each entities
                   (fun e => modify_heap (init_serialization_populate C e normalized)))
                (fun _ => for_each normalized
                            (fun pop => populateField C metadata (nested_populate C metadata fuel)
                                          entityName entities pop options')) w1 in
         ((r, options'), w2))).
Proof.
  intros Hne Hpop Hhelp Hnorm Hbad.
  rewrite populate_past_guards by assumption.
  destruct (apply_defaults options w) as [o1 w1] eqn:Ed.
  pose proof (apply_defaults_flags options w) as Hf. rewrite Ed in Hf. cbn [fst] in Hf.
  destruct Hf as [Hs [Hl Hv]].
  pose proof (apply_defaults_world options w) as [Hh Ht]. rewrite Ed in Hh, Ht.
  cbn [snd] in Hh, Ht.
  unfold populate_fields. unfold bind at 1. unfold lift at 1.
  rewrite Hs, Hl, Hnorm, Hbad, Hv. split.
  - intros Hvalidate.
    replace (match opt_validate options with Some b => b | None => true end) with true
      by (destruct (opt_validate options) as [[|]|]; congruence).
    cbn [throw]. eexists _, _. split; [reflexivity|]. split; assumption.
  - intros ->. reflexivity.
Qed.



(** An empty call returns before the defaults: the options and the world are
    as the caller passed them. *)
Lemma empty_call_leaves_options fuel entityName entities request options (w : World) :
  entities = [] \/ isEmpty request = true ->
  populate C metadata fuel entityName entities request options w = ((Ok tt, options), w).
Proof.
  intros H. rewrite populate_unfold. unfold populate_body.
  destruct H as [-> | ->]; [reflexivity|]. now rewrite orb_true_r.
Qed.



End Claims.

(** ** The claims on the sample graph *)

Import MemoryFixture.

Lemma plain_scalar_field_is_skipped_witness :
  populateField store registry (out_of_fuel (Heap := Graph)) "UserAccessProfile" [0]
    (hint "id") default_options (world false)
  = (Ok tt, world false).
Proof.
  exact (proj1 (@plain_scalar_field_is_skipped Graph store registry
                  (out_of_fuel (Heap := Graph)) "UserAccessProfile" [0] (hint "id")
                  default_options (world false)
                  (mkMeta "UserAccessProfile" "UserAccessProfile" ["id"]
                     [("id", id_prop); ("permissions", permissions_prop)] [permissions_prop])
                  id_prop eq_refl eq_refl eq_refl eq_refl)).
Defined.

Lemma sample_helpers loaded e : In e [4] -> has_helper store (graph loaded) e = true.
Proof. intros [<-|[]]. reflexivity. Qed.

Lemma invalid_field_rejected_before_fetch_witness :
  exists options' w',
    populate store registry 0 "User" [4] (PArr [hint "nope"]) no_options (empty_world false)
    = ((Throw (InvalidPropertyName "User" "nope"), options'), w')
    /\ trace w' = [] /\ heap w' = graph false.
Proof.
  refine (proj1 (@invalid_field_rejected_before_fetch Graph store registry 0 "User" [4]
                   (PArr [hint "nope"]) no_options (empty_world false)
                   [hint "nope"] (hint "nope") _ eq_refl (sample_helpers false)
                   eq_refl eq_refl) _); discriminate.
Defined.

(** With validation switched off the same call raises no
    invalidPropertyName: it goes on to populateField, which fails on the
    property it cannot find, before anything is fetched. *)
Example unvalidated_field_on_sample :
  let unchecked := mkOptions None None None None None (Some false) None None None None
                     None None None None in
  let run := populate store registry 2 "User" [4] (PArr [hint "nope"]) unchecked
               (empty_world false) in
  fst (fst run) = Throw (TypeError "Cannot read properties of undefined (property)")
  /\ trace (snd run) = [].
Proof. split; reflexivity. Qed.


(** The rows come back as permissions 3, 1, 2 and the collection is hydrated
    with the entities of these keys, in this order. *)
Example pivot_order_on_sample :
  filter (fun ev => negb (is_fetch ev))
         (trace (snd (findChildrenFromPivotTable store registry [0] permissions_prop
                        default_options [] (hint "permissions") (world false))))
  = [EvHydrate 0 "permissions" [3; 1; 2] true]
  /\ map (pk_of (graph false)) [3; 1; 2] = [VNum 3; VNum 1; VNum 2].
Proof. split; reflexivity. Qed.

Lemma permissions_is_relation : is_relation permissions_prop.
Proof. split; discriminate. Qed.



Lemma run_eta {A B D} (x : A * B * D) : x = ((fst (fst x), snd (fst x)), snd x).
Proof. destruct x as [[a b] d]. reflexivity. Qed.


(** The defaults on the sample call, and the caller's settings kept. *)
Example defaults_on_sample :
  let options' := snd (fst (populate store registry 2 "User" [4]
                              (PArr [hint "accessProfile.permissions"]) no_options
                              (empty_world false))) in
  (opt_orderBy options', opt_filters options', opt_lookup options', opt_validate options',
   opt_refresh options', opt_convertCustomTypes options')
  = (Some (VObj []), Some (VObj []), Some true, Some true, Some false, Some true).
Proof. reflexivity. Qed.

Lemma plain_store_marks : marks_keep_view plain_store.
Proof. intros h. repeat split. Qed.

Ltac property_cases H :=
  cbn [dget meta_properties] in H;
  repeat match type of H with
         | (if String.eqb ?k ?f then _ else _) = _ =>
             let E := fresh "E" in
             destruct (String.eqb k f) eqn:E; [apply String.eqb_eq in E; subst f|]
         end;
  first [discriminate H | injection H as <-].

Lemma sample_loaded_closed : loaded_closed plain_store registry (graph true) sample_reach.
Proof.
  intros name e Hreach meta field prop Hmeta Hprop.
  unfold sample_reach in Hreach. cbn [In] in Hreach.
  repeat (destruct Hreach as [Hreach|Hreach]; [injection Hreach as <- <-|]);
    try contradiction;
    vm_compute in Hmeta; injection Hmeta as <-; property_cases Hprop;
    (split; [reflexivity|]); (split; [reflexivity|]); (split; [reflexivity|]);
    intros items Hitems t Ht; vm_compute in Hitems; injection Hitems as <-;
    unfold sample_reach; cbn [prop_type accessProfile_prop permissions_prop id_prop];
    cbn [In] in Ht |- *; intuition (subst; auto).
Qed.



End LoaderClaims.

(** * Laws of the normalizer *)

Module NormalizerLaws.
Import Metadata Normalizer NormalizerSpec NormalizerLawsSpec MergeFacts EagerFacts
  NormalizerClaims.

(** ** The reduce of mergeNestedPopulate, item by item *)

Lemma first_occurrences_In s x : In x (first_occurrences s) <-> In x s.
Proof.
  induction s as [|a s IH]; simpl; [tauto|]. rewrite filter_In, IH.
  destruct (String.eqb_spec a x) as [->|Hne]; simpl.
  - tauto.
  - split; [tauto|]. intros [H|H]; [congruence|auto].
Qed.

Lemma first_occurrences_snoc s y :
  first_occurrences (s ++ [y])
  = first_occurrences s ++ (if existsb (String.eqb y) s then [] else [y]).
Proof.
  induction s as [|a s IH]; simpl; [reflexivity|].
  rewrite IH, filter_app. f_equal. f_equal.
  rewrite (String.eqb_sym y a).
  destruct (String.eqb a y) eqn:E; destruct (existsb (String.eqb y) s); simpl;
    rewrite ?E; reflexivity.
Qed.

Lemma existsb_eqb_In y s : existsb (String.eqb y) s = true <-> In y s.
Proof.
  rewrite existsb_exists. split.
  - intros [x [Hx E]]. apply String.eqb_eq in E. now subst.
  - intros H. exists y. split; auto. apply String.eqb_refl.
Qed.

Lemma find_snoc {A} (f : A -> bool) l x :
  List.find f (l ++ [x])
  = match List.find f l with
    | Some a => Some a
    | None => if f x then Some x else None
    end.
Proof.
  induction l as [|a l IH]; simpl; [reflexivity|]. destruct (f a); auto.
Qed.

Lemma find_field_None l f :
  List.find (same_field f) l = None <-> ~ In f (map field l).
Proof.
  induction l as [|a l IH]; simpl; [tauto|]. unfold same_field at 1.
  destruct (String.eqb_spec (field a) f) as [E|E].
  - split; [discriminate|]. intros H. exfalso. auto.
  - rewrite IH. tauto.
Qed.

Lemma no_children_concat l :
  existsb has_children l = false -> concat (map children_or_none l) = [].
Proof.
  induction l as [|a l IH]; simpl; [reflexivity|].
  intros H. apply orb_false_iff in H. destruct H as [Ha Hl].
  rewrite (IH Hl). unfold has_children in Ha. unfold children_or_none.
  destruct (children a); [discriminate|reflexivity].
Qed.

(** The keys of the reduce: the fields, each at its first occurrence. *)
Lemma merge_reduce_keys l : dkeys (merge_reduce l) = first_occurrences (map field l).
Proof.
  induction l as [|x l IH] using rev_ind; [reflexivity|].
  unfold merge_reduce in *. rewrite fold_left_app, map_app. cbn [fold_left map].
  rewrite first_occurrences_snoc, <- IH.
  set (ret := fold_left merge_item l []) in *. unfold merge_item at 1.
  destruct (dget ret (field x)) as [first|] eqn:E.
  - assert (Hin : existsb (String.eqb (field x)) (map field l) = true).
    { apply existsb_eqb_In. apply first_occurrences_In. rewrite <- IH.
      eapply dget_Some_In; eauto. }
    rewrite Hin, app_nil_r.
    destruct (children first), (children x); auto;
      eapply dkeys_dset_present; eauto.
  - assert (Hin : existsb (String.eqb (field x)) (map field l) = false).
    { destruct (existsb _ _) eqn:Ex; auto. apply existsb_eqb_In in Ex.
      apply first_occurrences_In in Ex. rewrite <- IH in Ex.
      exfalso. eapply dget_None_not_In; eauto. }
    rewrite Hin, (dset_absent _ _ _ E). unfold dkeys. now rewrite map_app.
Qed.

(** The value of the reduce at a field: the first node for it, with the
    children of all the nodes for it. *)
Lemma merge_reduce_at l f : dget (merge_reduce l) f = merged_node l f.
Proof.
  induction l as [|x l IH] using rev_ind; [reflexivity|].
  unfold merge_reduce in *. rewrite fold_left_app. cbn [fold_left].
  set (ret := fold_left merge_item l []) in *.
  unfold merged_node in *. rewrite find_snoc.
  unfold gathered_children in *. rewrite filter_app. cbn [filter].
  destruct (same_field f x) eqn:Ex.
  - apply String.eqb_eq in Ex. subst f. unfold merge_item.
    destruct (List.find (same_field (field x)) l) as [q|] eqn:Eq; rewrite IH.
    + rewrite existsb_app, map_app, concat_app. cbn [existsb map concat].
      rewrite orb_false_r, app_nil_r.
      destruct (existsb has_children (filter (same_field (field x)) l)) eqn:Eh;
        cbn [children set_children]; unfold has_children, children_or_none;
        destruct (children x) as [ci|]; rewrite ?dget_dset_eq, ?IH, ?Eh, ?app_nil_r;
        cbn [orb]; try reflexivity.
      pose proof (no_children_concat _ Eh) as Hc. unfold children_or_none in Hc.
      rewrite Hc. reflexivity.
    + rewrite dget_dset_eq.
      assert (Hnil : filter (same_field (field x)) l = []).
      { apply find_field_None in Eq. clear - Eq. induction l as [|a l IH]; [reflexivity|].
        simpl in *. unfold same_field at 1.
        destruct (String.eqb_spec (field a) (field x)) as [E|E]; [exfalso; auto|].
        apply IH. tauto. }
      rewrite Hnil. cbn [app existsb map concat]. rewrite orb_false_r, app_nil_r.
      unfold has_children, children_or_none. destruct x as [fx sx [cx|] ax]; reflexivity.
  - rewrite app_nil_r.
    assert (Hne : field x <> f).
    { intros <-. unfold same_field in Ex. now rewrite String.eqb_refl in Ex. }
    assert (Hitem : dget (merge_item ret x) f = dget ret f).
    { unfold merge_item. destruct (dget ret (field x)) as [first|];
        [destruct (children first), (children x)|]; auto; now apply dget_dset_ne. }
    rewrite Hitem, IH. destruct (List.find (same_field f) l); reflexivity.
Qed.

Lemma In_dget {V} (d : Dictionary V) k v : NoDup (dkeys d) -> In (k, v) d -> dget d k = Some v.
Proof.
  induction d as [|[k' v'] d IH]; simpl; [tauto|]. intros Hnd [[= -> ->]|Hin].
  - now rewrite String.eqb_refl.
  - inversion Hnd as [|? ? Hk Hd]; subst.
    destruct (String.eqb_spec k' k) as [->|Hne]; [|auto].
    exfalso. apply Hk. unfold dkeys. apply in_map_iff. now exists (k, v).
Qed.

(** A node of the merged list, traced back to the reduce. *)
Lemma merged_from_reduce l p :
  In p (mergeNestedPopulate l) ->
  exists first,
    List.find (same_field (field p)) l = Some first
    /\ field p = field first /\ strategy p = strategy first /\ all p = all first
    /\ children p = option_map mergeNestedPopulate (gathered_children l (field p)).
Proof.
  rewrite mergeNestedPopulate_eq. intros Hp. apply in_map_iff in Hp.
  destruct Hp as [v [<- Hv]]. unfold dvalues in Hv. apply in_map_iff in Hv.
  destruct Hv as [[k v'] [Hs Hin]]. simpl in Hs. subst v'.
  destruct (keyed_merge_reduce l) as [Hnd Hk].
  pose proof (Hk _ _ Hin) as Hf.
  apply (In_dget _ _ _ Hnd) in Hin. rewrite merge_reduce_at in Hin.
  unfold merged_node in Hin.
  destruct (List.find (same_field k) l) as [first|] eqn:Efirst; [|discriminate].
  injection Hin as <-. cbn [field set_children] in Hf.
  assert (Hfield : forall c, field (match c with
                                    | Some c0 => set_children
                                                   (set_children first (gathered_children l k))
                                                   (Some (mergeNestedPopulate c0))
                                    | None => set_children first (gathered_children l k)
                                    end) = k)
    by (intros [c0|]; exact Hf).
  exists first. cbn [children set_children].
  destruct (gathered_children l k) as [c|] eqn:Eg; cbn [field strategy all children set_children];
    rewrite Hf, Efirst, ?Eg; repeat split; reflexivity.
Qed.

(** The fields of the merged list. *)
Lemma merged_fields l :
  map field (mergeNestedPopulate l) = first_occurrences (map field l).
Proof.
  rewrite mergeNestedPopulate_eq, map_map.
  rewrite (map_ext _ field); [|intros v; destruct (children v); auto].
  now rewrite fields_merge_reduce, merge_reduce_keys.
Qed.


(** X2. The children of a merged node are the children of all the nodes given
    for its field, in the order given, merged in turn; the node has no
    [children] array when none of them has one. *)
Theorem merge_unites_children l :
  Forall (fun p => children p
                   = option_map mergeNestedPopulate (gathered_children l (field p)))
         (mergeNestedPopulate l).
Proof.
  apply Forall_forall. intros p Hp.
  destruct (merged_from_reduce _ _ Hp) as (first & _ & _ & _ & _ & Hc). exact Hc.
Qed.

(** A list without repeated sibling fields is already merged. *)
Lemma merge_unique_fields_id n : forall l,
  depths l <= n -> unique_fields l -> mergeNestedPopulate l = l.
Proof.
  induction n as [|n IH]; intros l Hd Hu; inversion Hu as [l' Hnd Hch]; subst l';
    rewrite mergeNestedPopulate_eq; unfold merge_reduce;
    rewrite (merge_reduce_distinct l []) by exact Hnd;
    cbn [app];
    replace (dvalues (map (fun p => (field p, p)) l)) with l
      by (unfold dvalues; rewrite map_map; symmetry; apply map_id);
    rewrite <- (map_id l) at 2; apply map_ext_in; intros p Hp;
    pose proof (depths_In _ _ Hp) as Hdp; rewrite depth_eq in Hdp;
    destruct (children p) as [c|] eqn:Ec; try reflexivity.
  - lia.
  - rewrite (IH c); [|lia|eapply Hch; eauto].
    destruct p as [f s ch a]. cbn in *. now subst ch.
Qed.

(** X3. mergeNestedPopulate is idempotent: merging a merged list changes
    nothing. *)
Theorem merge_idempotent l :
  mergeNestedPopulate (mergeNestedPopulate l) = mergeNestedPopulate l.
Proof.
  eapply merge_unique_fields_id; [reflexivity|]. apply mergeNestedPopulate_unique_fields.
Qed.

(** ** Dotted paths *)

Lemma join_split s : join_dot (split_dot s) = s.
Proof.
  induction s as [|c r IH]; [reflexivity|]. cbn [split_dot].
  destruct (is_dot c) eqn:Ec.
  - unfold is_dot in Ec. apply Ascii.eqb_eq in Ec. subst c.
    cbn [join_dot]. destruct (split_dot r) as [|h t] eqn:Er.
    + now destruct (split_dot_nonempty r).
    + rewrite IH. reflexivity.
  - destruct (split_dot r) as [|h t] eqn:Er.
    + now destruct (split_dot_nonempty r).
    + cbn [join_dot] in *. destruct t; rewrite <- IH; reflexivity.
Qed.

Lemma split_dot_segments s : Forall (fun x => includes_dot x = false) (split_dot s).
Proof.
  induction s as [|c r IH]; cbn [split_dot]; [repeat constructor|].
  destruct (is_dot c) eqn:Ec.
  - constructor; [reflexivity|exact IH].
  - destruct (split_dot r) as [|h t]; [repeat constructor; cbn; now rewrite Ec|].
    inversion IH as [|? ? Hh Ht]; subst. constructor; [|exact Ht].
    cbn [includes_dot]. now rewrite Ec, Hh.
Qed.

Lemma split_dot_dotted s :
  includes_dot s = true -> exists f x rest, split_dot s = f :: x :: rest.
Proof.
  induction s as [|c r IH]; cbn [includes_dot split_dot]; [discriminate|].
  destruct (is_dot c); cbn [orb].
  - intros _. destruct (split_dot r) as [|h t] eqn:Er.
    + now destruct (split_dot_nonempty r).
    + eauto.
  - intros H. destruct (IH H) as (f & x & rest & ->). eauto.
Qed.

(** expandNestedPopulate turns the segments into a chain of single children,
    one node per segment, all with the strategy given. *)
Lemma expandNestedPopulate_chain metadata : forall parts entityName strategy a p,
  parts <> [] ->
  expandNestedPopulate metadata entityName parts strategy a = Ok p ->
  chain_fields p = parts /\ chain_strategy strategy p /\ all p = a.
Proof.
  induction parts as [|f rest IH]; intros entityName strategy a p Hne; [congruence|].
  cbn [expandNestedPopulate].
  destruct (find metadata entityName) as [meta|]; [|discriminate].
  destruct rest as [|x rest'].
  - intros [= <-]. cbn. auto.
  - destruct (dget (meta_properties meta) f) as [prop|]; [|discriminate].
    destruct (expandNestedPopulate metadata (prop_type prop) (x :: rest') strategy None)
      as [child| |] eqn:Ec; cbn [obind]; try discriminate.
    intros [= <-].
    assert (Hrest : x :: rest' <> []) by discriminate.
    destruct (IH _ _ _ _ Hrest Ec) as (Hf & Hs & _).
    cbn. rewrite Hf. auto.
Qed.

(** X4. Expanding a dotted field keeps the path: the node takes the first
    segment as its field and gets one more child, a chain of single children
    whose fields are the remaining segments, so that joining the fields with
    dots gives the field back.  The node's strategy is its own or else the one
    declared by the property of the first segment, every node of the chain
    carries that strategy, and the node keeps its [all] flag and the children
    it had. *)
Theorem expand_keeps_path metadata entityName p q :
  includes_dot (field p) = true ->
  expand_dotted metadata entityName p = Ok q ->
  exists meta prop child,
    find metadata entityName = Some meta
    /\ dget (meta_properties meta) (field q) = Some prop
    /\ children q = Some (children_or_none p ++ [child])
    /\ join_dot (field q :: chain_fields child) = field p
    /\ strategy q = match strategy p with Some s => Some s | None => prop_strategy prop end
    /\ chain_strategy (strategy q) child
    /\ all q = all p.
Proof.
  intros Hdot. unfold expand_dotted. rewrite Hdot. cbn [negb].
  destruct (split_dot_dotted _ Hdot) as (f & x & rest & Hsplit). rewrite Hsplit.
  destruct (find metadata entityName) as [meta|]; [|discriminate].
  destruct (dget (meta_properties meta) f) as [prop|] eqn:Eprop; [|discriminate].
  destruct (expandNestedPopulate metadata (prop_type prop) (x :: rest) _ (all p))
    as [child| |] eqn:Ec; cbn [obind]; try discriminate.
  intros [= <-].
  assert (Hrest : x :: rest <> []) by discriminate.
  destruct (expandNestedPopulate_chain _ _ _ _ Hrest Ec) as (Hf & Hs & _).
  exists meta, prop, child. cbn [field children strategy all].
  repeat split; auto.
  rewrite Hf, <- Hsplit. apply join_split.
Qed.

Lemma expand_keeps_path_witness :
  exists child,
    expand_dotted Fixtures.joined_registry "E" (hint "a.b")
    = Ok (mkPopulate "a" (Some JOINED) (Some [child]) None)
    /\ join_dot ("a" :: chain_fields child) = "a.b".
Proof.
  destruct (@expand_keeps_path Fixtures.joined_registry "E" (hint "a.b")
              (mkPopulate "a" (Some JOINED)
                 (Some [mkPopulate "b" (Some JOINED) None None]) None)
              eq_refl eq_refl) as (meta & prop & child & _ & _ & Hc & Hj & _).
  injection Hc as <-. eexists. split; [reflexivity|exact Hj].
Defined.

(** ** normalizePopulate as a whole *)

Lemma omap_Forall {A B} (f : A -> Outcome B) (P : B -> Prop) l :
  (forall x y, In x l -> f x = Ok y -> P y) ->
  forall ys, omap f l = Ok ys -> Forall P ys.
Proof.
  induction l as [|x l IH]; cbn [omap]; intros H ys.
  - intros [= <-]. constructor.
  - destruct (f x) as [y| |] eqn:Ef; cbn [obind]; try discriminate.
    destruct (omap f l) as [ys'| |]; cbn [obind]; try discriminate.
    intros [= <-]. constructor.
    + eapply H; eauto. now left.
    + apply IH; auto. intros x' y' Hx. apply H. now right.
Qed.

Lemma expand_dotted_field metadata entityName p q :
  expand_dotted metadata entityName p = Ok q -> includes_dot (field q) = false.
Proof.
  unfold expand_dotted. destruct (includes_dot (field p)) eqn:Hdot; cbn [negb].
  - pose proof (split_dot_segments (field p)) as Hseg.
    destruct (split_dot (field p)) as [|f parts] eqn:Es;
      [now destruct (split_dot_nonempty (field p))|].
    destruct (find metadata entityName) as [meta|]; [|discriminate].
    destruct (dget (meta_properties meta) f) as [prop|]; [|discriminate].
    destruct (expandNestedPopulate _ _ _ _ _); cbn [obind]; try discriminate.
    intros [= <-]. cbn [field]. now inversion Hseg.
  - intros [= <-]. exact Hdot.
Qed.

(** X5. Whatever the request and whether or not the eager lookup runs, the
    list that normalizePopulate returns has no dotted field among its nodes:
    each one names a single property of the entity. *)
Theorem normalized_fields_are_plain metadata entityName request strategy lookup r :
  normalizePopulate metadata entityName request strategy lookup = Ok r ->
  Forall (fun p => includes_dot (field p) = false) r.
Proof.
  unfold normalizePopulate.
  destruct (select_populate metadata entityName request) as [l0| |]; cbn [obind];
    try discriminate.
  destruct (if lookup then _ else _) as [l1| |]; cbn [obind]; try discriminate.
  destruct (omap (expand_dotted metadata entityName) l1) as [l2| |] eqn:Eo; cbn [obind];
    try discriminate.
  intros [= <-].
  assert (Hl2 : Forall (fun p => includes_dot (field p) = false) l2).
  { eapply omap_Forall; [|exact Eo]. intros x y _. apply expand_dotted_field. }
  apply Forall_forall. intros p Hp.
  assert (Hf : In (field p) (map field l2)).
  { apply first_occurrences_In. rewrite <- merged_fields. now apply in_map. }
  apply in_map_iff in Hf. destruct Hf as [p2 [Hfield Hin]].
  rewrite Forall_forall in Hl2. rewrite <- Hfield. auto.
Qed.

Lemma normalized_fields_are_plain_witness :
  Forall (fun p => includes_dot (field p) = false)
         [mkPopulate "a" None (Some [mkPopulate "b" (Some JOINED) None None]) None].
Proof.
  exact (@normalized_fields_are_plain Fixtures.joined_registry "E"
           (PArr [hint "a"; hint "a.b"]) None true _ eq_refl).
Defined.

Lemma eager_lookup_appends fuel metadata entityName populate strategy visited r :
  lookupEagerLoadedRelationships fuel metadata entityName populate strategy "" visited = Ok r ->
  exists added, r = populate ++ added.
Proof.
  destruct fuel as [|fuel]; cbn [lookupEagerLoadedRelationships];
    destruct (find metadata entityName) as [meta|];
    try (intros [= <-]; exists []; now rewrite app_nil_r);
    destruct (includes visited entityName);
    try (intros [= <-]; exists []; now rewrite app_nil_r); try discriminate.
  cbn [String.eqb]. intros H.
  eapply (ofold_invariant (fun acc => exists added, acc = populate ++ added)); [| |exact H].
  - intros acc prop acc' _ [added ->].
    destruct (getRelationName meta prop); cbn [obind]; try discriminate.
    destruct (lookupEagerLoadedRelationships fuel _ _ _ _ _ _) as [[|n ns]| |];
      cbn [obind]; try discriminate; intros [= <-]; rewrite <- app_assoc; eauto.
  - exists []. now rewrite app_nil_r.
Qed.

(** X6. Run from the top (empty prefix), the eager lookup keeps the nodes it
    was given, in their order, and only appends to them. *)
Theorem eager_lookup_keeps_requested fuel metadata entityName populate strategy visited r :
  lookupEagerLoadedRelationships fuel metadata entityName populate strategy "" visited = Ok r ->
  exists added, r = populate ++ added.
Proof. apply eager_lookup_appends. Qed.

Lemma eager_lookup_keeps_requested_witness :
  exists added,
    [mkPopulate "a" None None None; mkPopulate "a" (Some JOINED) None None]
    = [hint "a"] ++ added.
Proof.
  exact (@eager_lookup_keeps_requested 3 Fixtures.joined_registry "E" [hint "a"] None []
           _ eq_refl).
Defined.

Lemma expand_dotted_first_segment metadata entityName p q :
  expand_dotted metadata entityName p = Ok q -> field q = first_segment p.
Proof.
  unfold expand_dotted, first_segment.
  destruct (includes_dot (field p)) eqn:Hdot; cbn [negb].
  - destruct (split_dot (field p)) as [|f parts]; [now intros [= <-]|].
    destruct (find metadata entityName) as [meta|]; [|discriminate].
    destruct (dget (meta_properties meta) f) as [prop|]; [|discriminate].
    destruct (expandNestedPopulate _ _ _ _ _); cbn [obind]; try discriminate.
    now intros [= <-].
  - intros [= <-]. now rewrite (split_dot_plain _ Hdot).
Qed.

Lemma omap_map {A B D} (g : A -> Outcome B) (f : B -> D) (h : A -> D) l :
  (forall x y, g x = Ok y -> f y = h x) ->
  forall ys, omap g l = Ok ys -> map f ys = map h l.
Proof.
  intros Hg. induction l as [|x l IH]; cbn [omap]; intros ys.
  - now intros [= <-].
  - destruct (g x) as [y| |] eqn:Eg; cbn [obind]; try discriminate.
    destruct (omap g l) as [ys'| |]; cbn [obind]; try discriminate.
    intros [= <-]. cbn [map]. now rewrite (Hg _ _ Eg), (IH _ eq_refl).
Qed.



(** ** Eager relations *)

Lemma append_assoc3 a b c : ((a ++ b) ++ c)%string = (a ++ b ++ c)%string.
Proof. induction a as [|x a IH]; cbn; [reflexivity|]. now rewrite IH. Qed.

Lemma append_nonempty a b : a <> ""%string -> (a ++ b)%string <> ""%string.
Proof. destruct a; [congruence|]. discriminate. Qed.

(** Below the top, with nothing requested, every path the lookup produces
    lies under the prefix it was given. *)
Lemma lookupEager_under metadata strategy : forall fuel entityName prefix visited r,
  prefix <> ""%string ->
  lookupEagerLoadedRelationships fuel metadata entityName [] strategy prefix visited = Ok r ->
  Forall (under prefix) r.
Proof.
  induction fuel as [|fuel IH]; intros entityName prefix visited r Hp;
    cbn [lookupEagerLoadedRelationships];
    destruct (find metadata entityName) as [meta|]; try (intros [= <-]; constructor);
    destruct (includes visited entityName); try (intros [= <-]; constructor);
    try discriminate.
  apply String.eqb_neq in Hp. rewrite Hp. intros H.
  eapply (ofold_invariant (Forall (under prefix))); [| |exact H]; [|constructor].
  intros acc prop acc' _ Hacc. cbv beta.
  destruct (getRelationName meta prop) as [f| |]; cbn [obind]; try discriminate.
  destruct (lookupEagerLoadedRelationships fuel _ _ _ _ _ _) as [nested| |] eqn:En;
    cbn [obind]; try discriminate.
  apply IH in En; [|apply append_nonempty; now apply String.eqb_neq].
  destruct nested as [|n ns]; intros [= <-]; apply Forall_app; split; auto.
  - repeat constructor. exists f. reflexivity.
  - eapply Forall_impl; [|exact En]. intros p [rest Hrest].
    exists (f ++ "." ++ rest)%string. rewrite Hrest.
    rewrite append_assoc3. cbn. reflexivity.
Qed.

Lemma first_segment_under name p :
  includes_dot name = false -> under name p -> first_segment p = name.
Proof.
  intros Hplain [rest Hrest]. unfold first_segment.
  now rewrite Hrest, split_dot_app, (split_dot_plain _ Hplain).
Qed.

Lemma ofold_appends_keep {A B} (f : list B -> A -> Outcome (list B)) (Q : B -> Prop) l :
  (forall acc a acc', f acc a = Ok acc' -> exists added, acc' = acc ++ added) ->
  forall acc r, Exists Q acc -> ofold f l acc = Ok r -> Exists Q r.
Proof.
  intros Happ acc r Hacc Hr.
  eapply (ofold_invariant (Exists Q)); [| exact Hacc | exact Hr].
  intros a x a' _ Ha Hf. destruct (Happ _ _ _ Hf) as [added ->].
  apply Exists_app. now left.
Qed.

Lemma ofold_reaches {A B} (f : list B -> A -> Outcome (list B)) (Q : B -> Prop) x l :
  (forall acc a acc', f acc a = Ok acc' -> exists added, acc' = acc ++ added) ->
  (forall acc acc', f acc x = Ok acc' -> Exists Q acc') ->
  In x l -> forall acc r, ofold f l acc = Ok r -> Exists Q r.
Proof.
  intros Happ Hx. induction l as [|a l IH]; intros Hin acc r; [destruct Hin|].
  cbn [ofold]. destruct (f acc a) as [acc'| |] eqn:Ef; cbn [obind]; try discriminate.
  destruct Hin as [->|Hin].
  - eapply ofold_appends_keep; [exact Happ|]. eapply Hx; eauto.
  - now apply IH.
Qed.

(** X23. With the eager lookup on, every eager relation of the entity type
    is among the fields of the normalized populate, whatever was requested
    (relation names being plain property names). *)
Theorem eager_relations_are_populated metadata entityName meta prop request strategy r :
  plain_relation_names metadata ->
  find metadata entityName = Some meta ->
  In prop (meta_relations meta) -> prop_eager prop = true ->
  normalizePopulate metadata entityName request strategy true = Ok r ->
  In (prop_name prop) (map field r).
Proof.
  intros Hplain Hfind Hin Heager. unfold normalizePopulate.
  destruct (select_populate metadata entityName request) as [l0| |]; cbn [obind];
    try discriminate.
  destruct (lookupEagerLoadedRelationships (length metadata) metadata entityName l0 strategy
              "" []) as [l1| |] eqn:El; cbn [obind]; try discriminate.
  destruct (omap (expand_dotted metadata entityName) l1) as [l2| |] eqn:Eo; cbn [obind];
    try discriminate.
  intros [= <-].
  destruct (Hplain _ _ _ (dget_In _ _ Hfind) Hin) as (Hemb & Hdots & Hname).
  assert (Hl1 : Exists (fun p => first_segment p = prop_name prop) l1).
  { destruct (existsb (fun p => String.eqb (field p) (prop_name prop)) l0) eqn:Ereq.
    - apply existsb_exists in Ereq. destruct Ereq as [p [Hp Ep]].
      apply String.eqb_eq in Ep.
      destruct (eager_lookup_appends _ _ _ _ _ _ El) as [added ->].
      apply Exists_app. left. apply Exists_exists. exists p. split; [exact Hp|].
      unfold first_segment. rewrite Ep. now rewrite (split_dot_plain _ Hdots).
    - destruct (length metadata) as [|fuel] eqn:Elen.
      { destruct metadata; [discriminate Hfind|discriminate Elen]. }
      erewrite lookupEager_S in El by (eauto; reflexivity).
      cbn [String.eqb] in El.
      eapply (@ofold_reaches _ _ _ (fun p => first_segment p = prop_name prop) prop);
        [| | |exact El].
      + intros acc a acc'. cbv beta.
        destruct (getRelationName meta a); cbn [obind]; try discriminate.
        destruct (lookupEagerLoadedRelationships fuel _ _ _ _ _ _) as [[|n ns]| |];
          cbn [obind]; try discriminate; intros [= <-]; eauto.
      + intros acc acc'. cbv beta. unfold getRelationName.
        assert (Hrel : getRelationName_rec (length (meta_properties meta)) meta prop
                       = Ok (prop_name prop)).
        { destruct (length (meta_properties meta)); cbn; now rewrite Hemb. }
        rewrite Hrel. cbn [obind].
        assert (Hnone : nested_of l0 (prop_name prop) = []).
        { unfold nested_of.
          destruct (List.find (fun p => String.eqb (field p) (prop_name prop)) l0) as [p|] eqn:Ef;
            [|reflexivity].
          apply find_some in Ef. destruct Ef as [Hp Ep].
          assert (Hex : existsb (fun p => String.eqb (field p) (prop_name prop)) l0 = true)
            by (apply existsb_exists; eauto).
          congruence. }
        rewrite Hnone.
        destruct (lookupEagerLoadedRelationships fuel _ _ _ _ _ _) as [nested| |] eqn:En;
          cbn [obind]; try discriminate.
        apply lookupEager_under in En; [|exact Hname].
        destruct nested as [|n ns]; intros [= <-]; apply Exists_app; right.
        * constructor. unfold first_segment. cbn [field].
          now rewrite (split_dot_plain _ Hdots).
        * constructor. apply first_segment_under; auto. now inversion En.
      + apply filter_In. split; [exact Hin|]. now rewrite Heager. }
  apply Exists_exists in Hl1. destruct Hl1 as [p [Hp Hseg]].
  assert (Hfields : map field l2 = map first_segment l1)
    by (eapply omap_map; [|exact Eo]; intros x y; apply expand_dotted_first_segment).
  rewrite merged_fields. apply first_occurrences_In.
  rewrite Hfields, <- Hseg. now apply in_map.
Qed.

Lemma self_registry_plain : plain_relation_names Fixtures.self_registry.
Proof.
  intros k meta prop [[= <- <-]|[]] [<-|[]]. repeat split. discriminate.
Qed.

Lemma eager_relations_are_populated_witness :
  In "parent" (map field [mkPopulate "parent" None None None]).
Proof.
  exact (@eager_relations_are_populated Fixtures.self_registry "Node" _ Fixtures.node_parent
           (PArr []) None _ self_registry_plain eq_refl (or_introl eq_refl) eq_refl eq_refl).
Defined.

End NormalizerLaws.

(** * Laws of the condition helpers *)

Module ConditionLaws.
Import Metadata Conditions ConditionLawsSpec ConditionClaims.

(** ** Dictionaries: keys under writes and deletes *)

Lemma dkeys_dset_In {V} (d : Dictionary V) k v k' :
  In k' (dkeys (dset d k v)) -> k' = k \/ In k' (dkeys d).
Proof.
  induction d as [|[k0 v0] d IH]; cbn [dset dkeys map fst In].
  - intros [<-|[]]. now left.
  - destruct (String.eqb k0 k); cbn [map fst In]; [tauto|].
    intros [<-|H]; [tauto|]. destruct (IH H); tauto.
Qed.

Lemma NoDup_dkeys_dset {V} (d : Dictionary V) k v :
  NoDup (dkeys d) -> NoDup (dkeys (dset d k v)).
Proof.
  intros Hnd. destruct (dget d k) as [v0|] eqn:E.
  - now rewrite (dkeys_dset_present _ _ _ E).
  - rewrite (dset_absent _ _ _ E). unfold dkeys. rewrite map_app.
    apply NoDup_app; auto.
    + repeat constructor. simpl. tauto.
    + intros a Ha [<-|[]]. now apply (dget_None_not_In _ _ E).
Qed.

Lemma dkeys_ddelete_In {V} (d : Dictionary V) k k' :
  In k' (dkeys (ddelete d k)) -> In k' (dkeys d).
Proof.
  induction d as [|[k0 v0] d IH]; cbn [ddelete dkeys map fst In]; [tauto|].
  destruct (String.eqb k0 k); cbn [map fst In]; [tauto|].
  intros [<-|H]; [tauto|]. right. now apply IH.
Qed.

Lemma dkeys_ddelete_gone {V} (d : Dictionary V) k :
  NoDup (dkeys d) -> ~ In k (dkeys (ddelete d k)).
Proof.
  induction d as [|[k0 v0] d IH]; cbn [ddelete dkeys map fst]; [tauto|].
  intros Hnd. inversion Hnd as [|? ? Hk Hd]; subst.
  destruct (String.eqb_spec k0 k) as [->|Hne]; [exact Hk|].
  cbn [map fst In]. intros [H|H]; [congruence|]. now apply IH.
Qed.

Lemma NoDup_dkeys_ddelete {V} (d : Dictionary V) k :
  NoDup (dkeys d) -> NoDup (dkeys (ddelete d k)).
Proof.
  induction d as [|[k0 v0] d IH]; cbn [ddelete dkeys map fst]; [tauto|].
  intros Hnd. inversion Hnd as [|? ? Hk Hd]; subst.
  destruct (String.eqb k0 k); [exact Hd|]. cbn [map fst]. constructor; [|now apply IH].
  intros H. apply Hk. now apply dkeys_ddelete_In in H.
Qed.

Section Extraction.

Variable isOperator : string -> bool -> bool.
Variable isPrimaryKey : Value -> bool.

(** ** The steps of extractChildCondition *)

(** What holds of the state however many steps have run. *)
Lemma run_steps_invariant {A} (P : ChildCondition -> Prop)
    (step : ChildCondition -> A -> Outcome ChildCondition) l :
  (forall st x st', P st -> step st x = Ok st' -> P st') ->
  forall st, P st -> P (fst (run_steps step l st)).
Proof.
  intros Hstep. induction l as [|x l IH]; intros st Hst; cbn [run_steps]; [exact Hst|].
  destruct (step st x) as [st'| |] eqn:E; cbn [fst]; auto.
  apply IH. eapply Hstep; eauto.
Qed.

Lemma collect_group_cases propName pk st op st' :
  collect_group isOperator isPrimaryKey propName pk st op = Ok st' ->
  st' = st \/ exists child, st' = write_subCond propName st (dset (subCond st) op child).
Proof.
  unfold collect_group. destruct (truthy (dread (where_after st) op)); [|intros [= <-]; auto].
  destruct (dread (where_after st) op) as [| | | | |conds|]; try discriminate.
  destruct (omap _ conds) as [subs| |]; cbn [obind]; try discriminate.
  destruct (map _ _); intros [= <-]; eauto.
Qed.

Lemma move_operator_cases propName pk st op st' :
  move_operator propName pk st op = Ok st' ->
  exists sub,
    st' = write_subCond propName st (ddelete sub op)
    /\ (forall k, In k (dkeys sub) -> k = pk \/ In k (dkeys (subCond st)))
    /\ (NoDup (dkeys (subCond st)) -> NoDup (dkeys sub)).
Proof.
  unfold move_operator.
  set (sub1 := if nullish (dread (subCond st) pk)
               then dset (subCond st) pk (VObj []) else subCond st).
  assert (H1 : forall k, In k (dkeys sub1) -> k = pk \/ In k (dkeys (subCond st))).
  { unfold sub1. destruct (nullish _); auto. intros k. apply dkeys_dset_In. }
  assert (N1 : NoDup (dkeys (subCond st)) -> NoDup (dkeys sub1)).
  { unfold sub1. destruct (nullish _); auto. apply NoDup_dkeys_dset. }
  destruct (dread sub1 pk) as [| | | | |arr|target]; try discriminate; intros [= <-].
  - exists sub1. auto.
  - eexists. split; [reflexivity|]. split.
    + intros k Hk. apply dkeys_dset_In in Hk. destruct Hk; auto.
    + intros Hnd. apply NoDup_dkeys_dset. auto.
Qed.

Lemma where_kept_write where_ propName st sub :
  where_kept where_ propName st -> where_kept where_ propName (write_subCond propName st sub).
Proof.
  intros (Hk & Ha & Hn). unfold write_subCond. destruct (aliased st) eqn:E;
    repeat split; cbn [where_after aliased subCond]; try discriminate; auto.
  - intros k Hne. rewrite dget_dset_ne; auto.
  - intros _. apply dget_dset_eq.
Qed.

(** X7. extractChildCondition writes into the caller's [where] at the key of
    the property only: every other key reads as before, whether the call
    succeeds or throws half way.  When [where[prop.name]] is a plain object the
    sub-condition is that very object, so [where[prop.name]] reads as the
    sub-condition after the call; otherwise the sub-condition is a new object
    and [where] is exactly as it was. *)
Theorem extract_writes_one_key where_ propName pk :
  let st := fst (extractChildCondition isOperator isPrimaryKey where_ propName pk) in
  (forall k, k <> propName -> dget (where_after st) k = dget where_ k)
  /\ aliased st = isPlainObject (dread where_ propName)
  /\ (aliased st = true -> dget (where_after st) propName = Some (VObj (subCond st)))
  /\ (aliased st = false -> where_after st = where_).
Proof.
  cbv zeta. unfold extractChildCondition.
  set (st0 := match dread where_ propName with
              | VObj sub => mkChild sub true where_
              | _ => mkChild [] false where_
              end).
  assert (H0 : where_kept where_ propName st0 /\
               aliased st0 = isPlainObject (dread where_ propName)).
  { unfold st0, dread. destruct (dget where_ propName) as [[| | | | | |sub]|] eqn:E;
      (split; [repeat split; cbn; auto; discriminate|reflexivity]). }
  set (P := fun st => where_kept where_ propName st /\
                      aliased st = isPlainObject (dread where_ propName)).
  assert (Hgroup : forall st x st', P st ->
             collect_group isOperator isPrimaryKey propName pk st x = Ok st' -> P st').
  { intros st x st' [Hk Ha] Hs. apply collect_group_cases in Hs.
    destruct Hs as [->|[child ->]]; split; auto. now apply where_kept_write. }
  assert (Hmove : forall st x st', P st -> move_operator propName pk st x = Ok st' -> P st').
  { intros st x st' [Hk Ha] Hs. apply move_operator_cases in Hs.
    destruct Hs as (sub & -> & _). split; auto. now apply where_kept_write. }
  pose proof (run_steps_invariant P _ ["$and"; "$or"] Hgroup st0 H0) as H1.
  destruct (run_steps (collect_group isOperator isPrimaryKey propName pk) ["$and"; "$or"] st0)
    as [st1 [e|]]; cbn [fst] in *.
  - destruct H1 as [(Hk & Ha & Hn) Hal]. auto.
  - match goal with
    | |- context [run_steps (move_operator propName pk) ?ops st1] =>
        pose proof (run_steps_invariant P _ ops Hmove st1 H1) as H2;
        destruct (run_steps (move_operator propName pk) ops st1) as [st2 err]
    end.
    cbn [fst] in *. destruct H2 as [(Hk & Ha & Hn) Hal]. auto.
Qed.

(** ** Operators are nested under the primary key *)

Lemma move_operators_all propName pk :
  isOperator pk false = false ->
  forall ops st st',
    operators_within isOperator ops st ->
    run_steps (move_operator propName pk) ops st = (st', None) ->
    operators_within isOperator [] st'.
Proof.
  intros Hpk. induction ops as [|op ops IH]; intros st st' Hw; cbn [run_steps].
  - now intros [= <-].
  - destruct (move_operator propName pk st op) as [st1| |] eqn:E; try discriminate.
    + apply IH. apply move_operator_cases in E.
      destruct E as (sub & -> & Hkeys & Hnd). destruct Hw as [Hn Hops].
      split; cbn [write_subCond subCond].
      * now apply NoDup_dkeys_ddelete, Hnd.
      * intros k Hk Hop.
        assert (Hne : k <> op).
        { intros ->. revert Hk. apply dkeys_ddelete_gone. auto. }
        apply dkeys_ddelete_In in Hk. destruct (Hkeys k Hk) as [->|Hin]; [congruence|].
        destruct (Hops k Hin Hop) as [<-|H]; [congruence|exact H].
    + exfalso. clear - E. unfold move_operator in E.
      destruct (dread _ pk); discriminate.
Qed.


(** X9. Where the caller's [where] has no [$and] or [$or] group and the
    entry for the property has no operator key at its top, extraction is a
    plain lookup: the sub-condition is the object at [where[prop.name]] (an
    empty new object when there is no plain object there), nothing throws, and
    [where] is left as it was. *)
Theorem extract_plain_lookup where_ propName pk :
  truthy (dread where_ "$and") = false ->
  truthy (dread where_ "$or") = false ->
  (forall sub k, dread where_ propName = VObj sub -> In k (dkeys sub) ->
                 isOperator k false = false) ->
  extractChildCondition isOperator isPrimaryKey where_ propName pk
  = (match dread where_ propName with
     | VObj sub => mkChild sub true where_
     | _ => mkChild [] false where_
     end, None).
Proof.
  intros Hand Hor Hplain. unfold extractChildCondition.
  assert (Hstep : forall st op, where_after st = where_ -> truthy (dread where_ op) = false ->
            collect_group isOperator isPrimaryKey propName pk st op = Ok st)
    by (intros st op Hw Hop; unfold collect_group; now rewrite Hw, Hop).
  assert (Hnone : forall keys, (forall k, In k keys -> isOperator k false = false) ->
            filter (fun key => isOperator key false) keys = []).
  { induction keys as [|k keys IH]; intros Hk; [reflexivity|]. cbn [filter].
    rewrite (Hk k (or_introl eq_refl)). apply IH. intros; apply Hk; now right. }
  destruct (dread where_ propName) as [| | | | | |sub] eqn:E; cbn [run_steps];
    rewrite !Hstep by auto; cbn [subCond dkeys map filter run_steps]; try reflexivity.
  rewrite Hnone; [reflexivity|]. intros k Hk. now apply (Hplain sub).
Qed.

End Extraction.


Lemma extract_plain_lookup_witness :
  extractChildCondition (Loader.isOperator MemoryFixture.store) (Loader.isPrimaryKey MemoryFixture.store)
    [("author", VObj [("name", VStr "x")]); ("title", VStr "t")] "author" "id"
  = (mkChild [("name", VStr "x")] true
       [("author", VObj [("name", VStr "x")]); ("title", VStr "t")], None).
Proof.
  refine (@extract_plain_lookup (Loader.isOperator MemoryFixture.store)
            (Loader.isPrimaryKey MemoryFixture.store)
            [("author", VObj [("name", VStr "x")]); ("title", VStr "t")] "author" "id"
            eq_refl eq_refl _).
  intros sub k [= <-] [<-|[]]. reflexivity.
Defined.

(** ** mergePrimaryCondition beside the caller's keys *)

(** X10. When the caller's condition does not name the batch key, the merged
    condition restricts the batch key exactly as the derived condition does,
    keeps every member of the caller's condition with its value, and has no
    key from anywhere else. *)
Theorem merge_keeps_batch_and_caller processWhere ids pk where_ convertCustomTypes metaName
    cond1 :
  processWhere metaName (negb convertCustomTypes) (VObj [(pk, VObj [("$in", VArr ids)])])
  = VObj cond1 ->
  dget where_ pk = None -> NoDup (dkeys where_) ->
  exists merged,
    mergePrimaryCondition processWhere ids pk where_ convertCustomTypes metaName = VObj merged
    /\ dget merged pk = dget cond1 pk
    /\ (forall k v, dget where_ k = Some v -> dget merged k = Some v)
    /\ (forall k, In k (dkeys merged) -> In k (dkeys cond1) \/ In k (dkeys where_)).
Proof.
  intros Hcond Hnone Hnd. unfold mergePrimaryCondition, dread. rewrite Hnone, Hcond.
  cbn [truthy own_members]. eexists. split; [reflexivity|]. split; [|split].
  - apply dget_spread_other. now apply dget_None_not_In.
  - intros k v Hk. now apply dget_spread_where.
  - clear. revert cond1. induction where_ as [|[k0 v0] b IH]; intros a k; [cbn; auto|].
    rewrite spread_cons. intros Hk. destruct (IH _ _ Hk) as [H|H].
    + apply dkeys_dset_In in H. cbn [dkeys map fst In]. destruct H as [->|H]; auto.
    + cbn [dkeys map fst In]. auto.
Qed.

Lemma merge_keeps_batch_and_caller_witness :
  exists merged,
    mergePrimaryCondition (fun _ _ cond => cond) [VNum 1; VNum 2] "id"
      [("name", VStr "x")] true "Author" = VObj merged
    /\ dget merged "id" = Some (VObj [("$in", VArr [VNum 1; VNum 2])])
    /\ dget merged "name" = Some (VStr "x").
Proof.
  destruct (@merge_keeps_batch_and_caller (fun _ _ cond => cond) [VNum 1; VNum 2] "id"
              [("name", VStr "x")] true "Author" _ eq_refl eq_refl)
    as (merged & Hm & Hpk & Hkeep & _).
  - repeat constructor. cbn. tauto.
  - exists merged. split; [exact Hm|]. split; [exact Hpk|]. now apply Hkeep.
Defined.

End ConditionLaws.

(** * Laws of the loader *)

Module LoaderLaws.
Import Metadata Normalizer Conditions Loader LoaderSpec LoaderLawsSpec LoaderFacts FrameFacts
  SettledFacts EagerFacts LoaderClaims.

Section Laws.

Variable Heap : Type.
Variable C : Collaborators Heap.
Variable metadata : MetadataStorage.

#[local] Abbreviation M := (M Heap).
#[local] Abbreviation World := (World Heap).

(** ** buildFields *)

Lemma strict_eqb_VStr n x : strict_eqb (VStr n) x = true -> x = VStr n.
Proof.
  destruct x; cbn; try discriminate. intros H. apply String.eqb_eq in H. now subst.
Qed.

Lemma includes_dot_app a b : includes_dot (a ++ "." ++ b)%string = true.
Proof.
  change ("." ++ b)%string with (String "."%char b).
  induction a as [|c a IH]; cbn; [reflexivity|]. rewrite IH. apply orb_true_r.
Qed.

(** X11. buildFields reads only: the world is as before.  A list that it
    returns is never empty, and for a ONE_TO_MANY relation it names the owning
    property of the target (the property that [mappedBy] points to), which is
    what ties the fetched children back to their parents. *)
Theorem buildFields_selects_owner_key fields prop (w : World) r w' :
  buildFields metadata fields prop w = (Ok (Some r), w') ->
  w' = w /\ r <> []
  /\ (prop_reference prop = ONE_TO_MANY ->
      exists targetMeta owner,
        find metadata (prop_type prop) = Some targetMeta
        /\ dget (meta_properties targetMeta) (prop_mappedBy prop) = Some owner
        /\ In (VStr (prop_name owner)) r).
Proof.
  intros H. split; [eapply buildFields_world; eassumption|].
  unfold buildFields in H. unfold bind at 1 in H. unfold lift at 1 in H.
  destruct (ofold _ _ _) as [[|x ret_]| |]; try discriminate.
  destruct (prop_reference prop) eqn:Ek;
    try (injection H as <- _; split; [discriminate|intros; discriminate]).
  unfold find_meta, property_of, required in H. unfold bind at 1 in H.
  destruct (find metadata (prop_type prop)) as [targetMeta|] eqn:Em; [|discriminate].
  cbn [ret] in H. unfold bind at 1 in H.
  destruct (dget (meta_properties targetMeta) (prop_mappedBy prop)) as [owner|] eqn:Eo;
    [|discriminate].
  cbn [ret] in H.
  destruct (existsb (strict_eqb (VStr (prop_name owner))) (x :: ret_)) eqn:Ex;
    injection H as <- _.
  - split; [discriminate|]. intros _. exists targetMeta, owner.
    split; [first [reflexivity|exact Em]|]. split; [first [reflexivity|exact Eo]|].
    apply existsb_exists in Ex. destruct Ex as [y [Hy Ey]].
    apply strict_eqb_VStr in Ey. now subst.
  - split; [discriminate|]. intros _. exists targetMeta, owner.
    split; [first [reflexivity|exact Em]|]. split; [first [reflexivity|exact Eo]|].
    change (In (VStr (prop_name owner)) ((x :: ret_) ++ [VStr (prop_name owner)])).
    apply in_or_app. right. now left.
Qed.

(** X12. A dotted entry of the caller's [fields] selects its tail for the
    relation that its first segment names, and nothing for any other
    relation: with the single entry [name.rest], buildFields returns [[rest]]
    for the property [name] and undefined (select everything) for a property
    with another name. *)
Theorem dotted_field_selects_tail prop rest other (w : World) :
  includes_dot (prop_name prop) = false ->
  prop_reference prop <> ONE_TO_MANY ->
  buildFields metadata (Some [VStr (prop_name prop ++ "." ++ rest)%string]) prop w
  = (Ok (Some [VStr rest]), w)
  /\ (includes_dot other = false -> other <> prop_name prop ->
      buildFields metadata (Some [VStr (other ++ "." ++ rest)%string]) prop w = (Ok None, w)).
Proof.
  intros Hplain Hkind. split.
  - unfold buildFields, field_entry. cbn [ofold].
    rewrite includes_dot_app, split_dot_app, (split_dot_plain _ Hplain). cbn [app].
    rewrite String.eqb_refl, NormalizerLaws.join_split. cbn [obind ofold app].
    unfold bind, lift. destruct (prop_reference prop); try reflexivity. congruence.
  - intros Hother Hne. unfold buildFields, field_entry. cbn [ofold].
    rewrite includes_dot_app, split_dot_app, (split_dot_plain _ Hother). cbn [app].
    apply String.eqb_neq in Hne. rewrite Hne. reflexivity.
Qed.

(** ** Lazy scalars *)

(** X13. Populating a lazy scalar property never asks once per entity: when
    the property has a value on every entity (and [refresh] is off), or lazy
    scalars are to be ignored, nothing is fetched and the world is untouched;
    otherwise the call either fails before reaching the store, or makes one
    [em.find] on the entity's own class that selects this property only and
    populates nothing further.  A call that returns hands back the entities it
    was given. *)
Theorem lazy_scalar_one_fetch entityName entities pop options (w : World) meta prop r w' :
  find metadata entityName = Some meta ->
  dget (meta_properties meta) (field pop) = Some prop ->
  prop_reference prop = SCALAR -> prop_lazy prop = true ->
  populateMany C metadata entityName entities pop options w = (r, w') ->
  let missing := lazy_missing C (heap w) prop (flag (opt_refresh options)) entities in
  (forall data, r = Ok data -> data = entities)
  /\ (flag (opt_ignoreLazyScalarProperties options) = true \/ missing = [] ->
      r = Ok entities /\ w' = w)
  /\ (flag (opt_ignoreLazyScalarProperties options) = false -> missing <> [] ->
      (w' = w /\ forall data, r <> Ok data)
      \/ exists where_,
           trace w' = trace w ++
             [EvFind (meta_className meta) where_
                (mkFind None (opt_filters options) (opt_convertCustomTypes options)
                   (opt_lockMode options) (opt_populateWhere options) VUndefined (PArr [])
                   (opt_strategy options) (Some [VStr (prop_name prop)]) None
                   (opt_connectionType options))]).
Proof.
  intros Hmeta Hprop Hkind Hlazy H missing.
  unfold populateMany, find_meta, property_of, required in H.
  unfold bind at 1 in H. rewrite Hmeta in H. cbn [ret] in H.
  unfold bind at 1 in H. rewrite Hprop in H. cbn [ret] in H.
  rewrite Hkind, Hlazy in H. unfold bind at 1 in H. cbn [get_heap] in H.
  fold (lazy_missing C (heap w) prop (flag (opt_refresh options)) entities) in H.
  fold missing in H.
  destruct (flag (opt_ignoreLazyScalarProperties options)) eqn:Ei.
  { injection H as <- <-. repeat split; auto; try congruence; intros data [= <-]; auto. }
  destruct missing as [|m ms] eqn:Em.
  { injection H as <- <-. repeat split; auto; try congruence; intros data [= <-]; auto. }
  apply bind_cases in H.
  destruct H as [(where_ & w1 & Hm & H)|[Hr [(e & Hm & _)|[Hm _]]]].
  - assert (w1 = w) as -> by (eapply mergePrimaryCondition_world; eassumption).
    unfold bind, call_find in H.
    destruct (em_find C _ _ _ (heap w)) as [[found| |] h'] eqn:Ef; injection H as <- <-;
      (split; [intros data [= <-]; reflexivity|]);
      (split; [intros [?|?]; discriminate|]); intros _ _; right; exists where_; reflexivity.
  - assert (w' = w) as -> by (eapply mergePrimaryCondition_world; eassumption).
    split; [intros data Hd; now destruct (Hr data)|].
    split; [intros [?|?]; discriminate|]. intros _ _. left. auto.
  - assert (w' = w) as -> by (eapply mergePrimaryCondition_world; eassumption).
    split; [intros data Hd; now destruct (Hr data)|].
    split; [intros [?|?]; discriminate|]. intros _ _. left. auto.
Qed.

(** ** Re-attaching the children to their parents *)

Lemma kept_items {A} (f : A -> bool) l :
  map fst (filter snd (combine l (map f l))) = filter f l.
Proof.
  induction l as [|x l IH]; [reflexivity|]. cbn [map combine filter snd].
  destruct (f x); cbn [map fst]; now rewrite IH.
Qed.

Lemma omap_total {A B} (g : A -> Outcome B) (f : A -> B) l :
  (forall x y, g x = Ok y -> y = f x) ->
  forall ys, omap g l = Ok ys -> ys = map f l.
Proof.
  intros Hg. induction l as [|x l IH]; cbn [omap map]; intros ys.
  - now intros [= <-].
  - destruct (g x) as [y| |] eqn:Eg; cbn [obind]; try discriminate.
    destruct (omap g l) as [ys'| |]; cbn [obind]; try discriminate.
    intros [= <-]. now rewrite (Hg _ _ Eg), (IH _ eq_refl).
Qed.

(** The loop shared by initializeOneToMany and initializeManyToMany: for each
    parent, the children that pass the test are hydrated into its collection,
    in the order of the children. *)
Lemma reattach_loop (K : Heap -> EntId -> EntId -> M bool)
    (test : Heap -> EntId -> EntId -> Outcome bool)
    (passes : Heap -> EntId -> EntId -> bool) children field force :
  (forall h parent child (w : World), K h parent child w = (test h parent child, w)) ->
  (forall h parent child b, test h parent child = Ok b -> b = passes h parent child) ->
  forall filtered (w w' : World),
    for_each filtered (fun entity =>
      bind (get_heap (Heap := Heap)) (fun h =>
      bind (map_m children (K h entity)) (fun keep =>
      hydrate C entity field (map fst (filter snd (combine children keep))) force))) w
    = (Ok tt, w') ->
    exists perParent,
      trace w' = trace w ++ hydrations field force filtered perParent
      /\ Forall2 (fun parent items => exists h, items = filter (passes h parent) children)
                 filtered perParent
      /\ conds w' = conds w.
Proof.
  intros HK Htest. induction filtered as [|entity filtered IH]; intros w w' H.
  - injection H as <-. exists []. split; [now rewrite app_nil_r|]. split; [constructor|auto].
  - cbn [for_each] in H. apply bind_Ok in H. destruct H as ([] & w1 & Hone & Hrest).
    destruct (IH _ _ Hrest) as (perParent & Ht & Hf & Hc). clear IH Hrest.
    unfold bind at 1 in Hone. cbn [get_heap] in Hone.
    unfold bind at 1 in Hone.
    rewrite (map_m_pure (K (heap w) entity) (fun _ child => test (heap w) entity child))
      in Hone by (intros; apply HK).
    destruct (omap (fun child => test (heap w) entity child) children) as [keep| |] eqn:Ek;
      try discriminate.
    apply (omap_total _ (passes (heap w) entity)) in Ek; [|intros; eapply Htest; eauto].
    subst keep. rewrite kept_items in Hone.
    unfold hydrate in Hone. unfold bind at 1 in Hone. cbn [get_heap] in Hone.
    destruct (isCollection (slot C (heap w) entity field)); [|discriminate].
    unfold call_hydrate in Hone. injection Hone as <-. cbn [trace conds] in *.
    exists (filter (passes (heap w) entity) children :: perParent).
    split; [|split; [constructor; eauto|exact Hc]].
    rewrite Ht. unfold hydrations. cbn [combine map fst snd]. now rewrite <- app_assoc.
Qed.



(** ** One fetch per field, for the whole call *)

Lemma for_each_fetches {A} (l : list A) (body : A -> M unit) :
  (forall x, In x l -> preserves (@adds_fetches Heap 1) (body x)) ->
  preserves (@adds_fetches Heap (length l)) (for_each l body).
Proof.
  induction l as [|x l IH]; intros Hb; cbn [for_each length].
  - apply preserves_ret. typeclasses eauto.
  - apply (@preserves_bind_then _ _ _ (@adds_fetches _ 1) (@adds_fetches _ (length l))
             (@adds_fetches _ (S (length l)))).
    + intros a b c H1 H2. exact (adds_fetches_trans H1 H2).
    + intros a b H1. eapply adds_fetches_mono; [|exact H1]. lia.
    + apply Hb. now left.
    + intros _. apply IH. intros y Hy. apply Hb. now right.
Qed.

Hint Resolve populateMany_one_fetch : pres1.

Lemma populateField_leaf_one_fetch rec entityName entities pop options :
  children pop = None ->
  preserves (@adds_fetches Heap 1)
            (populateField C metadata rec entityName entities pop options).
Proof. intros Hc. unfold populateField. rewrite Hc. pres1. Qed.

(** X16. A populate call whose normalized populate has no nested children
    (plain field names, nothing eager below them) makes at most one batched
    fetch per normalized field, however many entities it is given and however
    it ends. *)
Theorem flat_populate_fetches_once_per_field fuel entityName entities request options
    (w : World) normalized res options' w' :
  normalizePopulate metadata entityName request (opt_strategy options)
    (match opt_lookup options with Some b => b | None => true end) = Ok normalized ->
  Forall (fun p => children p = None) normalized ->
  populate C metadata fuel entityName entities request options w = ((res, options'), w') ->
  adds_fetches (length normalized) w w'.
Proof.
  intros Hnorm Hleaf H. rewrite populate_unfold in H. unfold populate_body in H.
  destruct (Nat.eqb (length entities) 0 || isEmpty request);
    [injection H as _ _ <-; apply adds_fetches_refl|].
  destruct (existsb _ entities); [injection H as _ _ <-; apply adds_fetches_refl|].
  destruct (apply_defaults options w) as [o1 w1] eqn:Ed.
  pose proof (apply_defaults_flags options w) as Hf. rewrite Ed in Hf. cbn [fst] in Hf.
  destruct Hf as [Hs [Hl _]].
  pose proof (apply_defaults_world options w) as [_ Ht]. rewrite Ed in Ht. cbn [snd] in Ht.
  destruct (populate_fields C metadata (nested_populate C metadata fuel) entityName entities
              request o1 w1) as [r2 w2] eqn:Ef.
  injection H as _ _ <-.
  eapply adds_fetches_from; [exact Ht|].
  unfold populate_fields in Ef. unfold bind at 1 in Ef. unfold lift at 1 in Ef.
  rewrite Hs, Hl, Hnorm in Ef.
  destruct (if flag (opt_validate o1) then _ else None);
    [injection Ef as _ <-; apply adds_fetches_refl|].
  revert Ef.
  match goal with
  | |- ?c w1 = _ -> _ =>
      enough (Hp : preserves (@adds_fetches Heap (length normalized)) c)
        by (intros Ef; exact (Hp _ _ _ Ef))
  end.
  apply (@preserves_bind_then _ _ _ (@adds_fetches _ 0) (@adds_fetches _ (length normalized))
           (@adds_fetches _ (length normalized))).
  - intros a b c H1 H2. exact (adds_fetches_trans H1 H2).
  - intros a b H1. eapply adds_fetches_mono; [|exact H1]. lia.
  - apply preserves_for_each; try typeclasses eauto. intros e _. apply modify_heap_no_fetch.
  - intros _. apply for_each_fetches. intros pop Hpop.
    apply populateField_leaf_one_fetch. rewrite Forall_forall in Hleaf. auto.
Qed.

(** ** The pivot fetch *)


(** X18. When the map that the pivot fetch returns has no entry under the
    serialized key of the first parent, the load fails with a TypeError after
    the fetch has been made: the fetch is on the trace, nothing has been
    hydrated, and the graph is as the fetch left it. *)
Theorem pivot_map_without_parent_key e rest prop options orderBy pop (w : World)
    sub where_ w1 fields map_ h2 :
  extractChildCondition C metadata options prop true w = (Ok (sub, where_), w1) ->
  buildFields metadata (opt_fields options) prop w1 = (Ok fields, w1) ->
  let options2 :=
    mkFind (opt_refresh options) (opt_filters options) (opt_convertCustomTypes options)
      (opt_lockMode options) (opt_populateWhere options)
      (match opt_orderBy options with Some v => v | None => VUndefined end)
      (PArr (match Normalizer.children pop with Some c => c | None => [] end))
      (opt_strategy options) fields (opt_schema options) (opt_connectionType options) in
  let ids := pivot_keys C (heap w) prop (e :: rest) in
  loadFromPivotTable C prop ids where_ orderBy options2 (heap w1) = (Ok map_, h2) ->
  dget map_ (helper_getSerializedPrimaryKey C h2 e) = None ->
  findChildrenFromPivotTable C metadata (e :: rest) prop options orderBy pop w
  = (Throw (TypeError "Cannot read properties of undefined (reading 'map')"),
     mkWorld h2 (conds w1)
       (trace w ++ [EvLoadFromPivotTable prop ids where_ orderBy options2])).
Proof.
  intros Hx Hb options2 ids Hload Hrow.
  assert (Ht1 : trace w1 = trace w) by (eapply extractChildCondition_trace; eauto).
  unfold findChildrenFromPivotTable. unfold bind at 1. cbn [get_heap].
  unfold bind at 1. rewrite Hx. unfold bind at 1. rewrite Hb.
  unfold bind at 1. unfold call_loadFromPivotTable.
  fold (pivot_keys C (heap w) prop (e :: rest)). fold ids. fold options2.
  rewrite Hload. cbn [map_m]. unfold bind, get_heap. cbn [heap].
  rewrite Hrow. cbn [required throw]. now rewrite Ht1.
Qed.

(** ** The condition objects *)

(** X19. A populate call whose options carry no [where], or an empty one,
    changes no condition object that existed before the call: the objects it
    makes for itself and for the nested calls are new ones. *)
Theorem populate_spares_condition_objects fuel entityName entities request options
    (w : World) res options' w' :
  opt_where options = None \/ (exists r, opt_where options = Some r /\ empty_where r w) ->
  populate C metadata fuel entityName entities request options w = ((res, options'), w') ->
  exists fresh, conds w' = conds w ++ fresh.
Proof.
  intros Hwhere H. rewrite populate_unfold in H. unfold populate_body in H.
  destruct (Nat.eqb (length entities) 0 || isEmpty request);
    [injection H as _ _ <-; exists []; now rewrite app_nil_r|].
  destruct (existsb _ entities); [injection H as _ _ <-; exists []; now rewrite app_nil_r|].
  unfold apply_defaults in H.
  destruct Hwhere as [Hnone|[r [Hsome Hempty]]].
  - rewrite Hnone in H.
    match type of H with
    | context [populate_fields C metadata ?rec entityName entities request ?o ?w1] =>
        destruct (populate_fields C metadata rec entityName entities request o w1)
          as [r2 w2] eqn:Ef
    end.
    injection H as _ _ <-.
    eapply populate_fields_keeps in Ef; [|apply nested_populate_keeps|reflexivity].
    destruct Ef as [fresh Hfresh].
    + unfold empty_where, cond_read. cbn [conds where_loc where_path].
      rewrite nth_error_app2 by lia. now rewrite Nat.sub_diag.
    + cbn [conds] in Hfresh. exists ([[]] ++ fresh). now rewrite app_assoc.
  - rewrite Hsome in H.
    match type of H with
    | context [populate_fields C metadata ?rec entityName entities request ?o ?w1] =>
        destruct (populate_fields C metadata rec entityName entities request o w1)
          as [r2 w2] eqn:Ef
    end.
    injection H as _ _ <-.
    eapply populate_fields_keeps in Ef; [|apply nested_populate_keeps|reflexivity].
    exact (Ef Hempty).
Qed.

(** ** The batch and its fetch *)

Lemma omap_all_ok {A B} (g : A -> Outcome B) (f : A -> B) l :
  (forall x, In x l -> g x = Ok (f x)) -> omap g l = Ok (map f l).
Proof.
  induction l as [|x l IH]; intros H; [reflexivity|]. cbn [omap map].
  rewrite (H x (or_introl eq_refl)). cbn [obind]. rewrite IH; [reflexivity|].
  intros y Hy. apply H. now right.
Qed.

(** X20. With [refresh] off, the batch of child references for a ONE_TO_MANY
    relation is computed without failure and is the owner of the collection of
    every parent whose collection is not fully initialized, in the order of
    the parents; for a MANY_TO_ONE or ONE_TO_ONE relation it never contains an
    entity that is already initialized. *)
Theorem batch_leaves_out_what_is_loaded h entities prop :
  (prop_reference prop = ONE_TO_MANY ->
   getChildReferences C h entities prop false
   = Ok (map (fun e => coll_owner C h e (prop_name prop))
             (filterCollections C h entities (prop_name prop) false)))
  /\ (prop_reference prop = MANY_TO_ONE \/ prop_reference prop = ONE_TO_ONE ->
      exists batch,
        getChildReferences C h entities prop false = Ok batch
        /\ Forall (fun t => helper_initialized C h t = false) batch).
Proof.
  split.
  - intros Hkind. unfold getChildReferences. rewrite Hkind.
    apply omap_all_ok. intros e He. unfold filterCollections in He.
    apply filter_In in He. destruct He as [_ He]. apply andb_true_iff in He.
    destruct He as [Hc _]. now rewrite Hc.
  - intros Hkind. eexists. split.
    + unfold getChildReferences. destruct Hkind as [-> | ->]; reflexivity.
    + apply Forall_forall. intros t Ht. unfold filterReferences in Ht.
      apply in_flat_map in Ht. destruct Ht as [e [He Ht]].
      apply filter_In in He. destruct He as [_ He].
      unfold slot_initialized, unwrapReference in *.
      destruct (slot C h e (prop_name prop)); cbn in Ht; try contradiction;
        destruct Ht as [<-|[]]; now apply negb_true_iff in He.
Qed.

(** X21. The one [em.find] that findChildren makes for a batch that is not
    empty asks for the target type, ordered by the caller's [orderBy], then by
    the property's own, and last by the batch key ascending; it passes the
    node's children (or its [all] flag, or nothing) as what to populate, and
    the caller's refresh, filters, lock mode, strategy and connection type. *)
Theorem find_orders_by_batch_key_last entities prop pop options (w : World) data w'
    c cs fk meta :
  find_plan C metadata (heap w) entities prop pop (flag (opt_refresh options))
  = Ok (c :: cs, fk, meta) ->
  findChildren C metadata entities prop pop options w = (Ok data, w') ->
  exists where_ fields schema,
    trace w' = trace w ++
      [EvFind (prop_type prop) where_
         (mkFind (opt_refresh options) (opt_filters options) (opt_convertCustomTypes options)
            (opt_lockMode options) (opt_populateWhere options)
            (VArr ((match opt_orderBy options with Some v => asArray v | None => [] end)
                   ++ (match prop_orderBy prop with Some v => asArray v | None => [] end)
                   ++ [VObj [(fk, VStr "ASC")]]))
            (children_or_all pop) (opt_strategy options) fields schema
            (opt_connectionType options))].
Proof.
  intros Hplan. rewrite findChildren_run, Hplan. unfold find_batch.
  unfold bind at 1. cbn [get_heap]. intros H.
  apply bind_Ok in H. destruct H as (where_ & w1 & Hm & H).
  assert (w1 = w) as -> by (eapply mergePrimaryCondition_world; eassumption).
  apply bind_Ok in H. destruct H as (fields & w2 & Hb & H).
  assert (w2 = w) as -> by (eapply buildFields_world; eassumption).
  unfold call_find in H.
  destruct (em_find C _ _ _ (heap w)) as [found h'].
  injection H as _ <-. eexists _, _, _. reflexivity.
Qed.

End Laws.

(** ** The laws on the sample graphs *)

Import MemoryFixture LibraryFixture.

Lemma buildFields_selects_owner_key_witness :
  reading_room = reading_room /\ [VStr "title"; VStr "author"] <> []
  /\ (ONE_TO_MANY = ONE_TO_MANY ->
      exists targetMeta owner,
        find library "Book" = Some targetMeta
        /\ dget (meta_properties targetMeta) "author" = Some owner
        /\ In (VStr (prop_name owner)) [VStr "title"; VStr "author"]).
Proof.
  exact (@buildFields_selects_owner_key Graph library (Some [VStr "books.title"]) author_books
           reading_room [VStr "title"; VStr "author"] reading_room eq_refl).
Defined.

Lemma dotted_field_selects_tail_witness :
  buildFields registry (Some [VStr "accessProfile.name"]) accessProfile_prop (world false)
  = (Ok (Some [VStr "name"]), world false).
Proof.
  refine (proj1 (@dotted_field_selects_tail Graph registry accessProfile_prop "name" "other"
                   (world false) eq_refl _)).
  discriminate.
Defined.

Lemma lazy_scalar_one_fetch_witness :
  exists where_,
    trace (snd (populateMany librarian library "Book" [1; 2] (hint "perex") default_options
                  reading_room))
    = [EvFind "Book" where_
         (mkFind None (Some (VObj [])) (Some true) None None VUndefined (PArr []) None
            (Some [VStr "perex"]) None None)].
Proof.
  destruct (@lazy_scalar_one_fetch Graph librarian library "Book" [1; 2] (hint "perex")
              default_options reading_room _ book_perex _ _ eq_refl eq_refl eq_refl eq_refl
              (surjective_pairing _)) as (_ & _ & H).
  destruct (H eq_refl ltac:(discriminate)) as [[_ Hnot]|Hfind].
  - exfalso. exact (Hnot [1; 2] eq_refl).
  - exact Hfind.
Defined.


(** Both books point back to author 1 and land in its collection, in order. *)
Example books_attached_on_sample :
  trace (snd (initializeCollections librarian library [0] author_books "books" [1; 2]
                reading_room))
  = [EvHydrate 0 "books" [1; 2] false].
Proof. reflexivity. Qed.

Lemma flat_populate_fetches_once_per_field_witness :
  adds_fetches 1 (empty_world false)
    (snd (populate store registry 0 "User" [4] (PArr [hint "accessProfile"]) no_options
            (empty_world false))).
Proof.
  eapply (@flat_populate_fetches_once_per_field Graph store registry 0 "User" [4]
            (PArr [hint "accessProfile"]) no_options (empty_world false)
            [hint "accessProfile"]).
  - reflexivity.
  - repeat constructor.
  - apply run_eta.
Defined.


Lemma pivot_map_without_parent_key_witness :
  exists (w1 : World Graph) where_ options2,
    findChildrenFromPivotTable bare_store registry [0] permissions_prop default_options []
      (hint "permissions") (world false)
    = (Throw (TypeError "Cannot read properties of undefined (reading 'map')"),
       mkWorld (graph false) (conds w1)
         (trace (world false) ++
          [EvLoadFromPivotTable permissions_prop [VArr [VNum 1]] where_ [] options2])).
Proof.
  eexists _, _, _.
  eapply (@pivot_map_without_parent_key Graph bare_store registry 0 [] permissions_prop
            default_options [] (hint "permissions") (world false)); cbv; reflexivity.
Defined.

Lemma populate_spares_condition_objects_witness :
  exists fresh,
    conds (snd (populate store registry 2 "User" [4] (PArr [hint "accessProfile.permissions"])
                  no_options (world false)))
    = conds (world false) ++ fresh.
Proof.
  eapply (@populate_spares_condition_objects Graph store registry 2 "User" [4]
            (PArr [hint "accessProfile.permissions"]) no_options (world false)).
  - left. reflexivity.
  - apply run_eta.
Defined.

Lemma find_orders_by_batch_key_last_witness :
  exists where_ fields schema,
    trace (snd (findChildren librarian library [1; 2] book_author (hint "author")
                  default_options reading_room))
    = trace reading_room ++
      [EvFind "Author" where_
         (mkFind (Some false) (Some (VObj [])) (Some true) None None
            (VArr [VObj []; VObj [("id", VStr "ASC")]]) (PArr []) None fields schema None)].
Proof.
  eapply (@find_orders_by_batch_key_last Graph librarian library [1; 2] book_author
            (hint "author") default_options reading_room [] _ 0 [0] "id"
            (mkMeta "Author" "Author" ["id"]
               [("id", id_prop); ("books", author_books)] [author_books]));
    reflexivity.
Defined.

End LoaderLaws.
